(** * The Kafka->Ethereum bridge of ethconnect: in-flight tracker and loops

    A shallow embedding of [internal/kldkafka/kafkabridge.go]: the bridge
    configuration and its validation, the message context, the in-flight
    map with its per-partition offset advancement, [Reply], and the bodies
    of the consumer loop and of the two producer feedback loops; then the
    encoding of a reply, the slice that is sorted, [connect], [Start] and
    the [kafka] command, and [startServer] of the [cmd] package.

    Go's [int], [int32] and [int64] values are only compared, never
    computed with (but for the difference of two clock readings, which is
    saturated as in Go), so they are integers of [Z].  Go's [string] and [[]byte]
    are sequences of 8-bit characters, as Rocq's [string] is.  A
    [*msgContext] is a location of a heap of contexts: the in-flight map,
    the processor and the producer message all alias the same object. *)

From Stdlib Require Import QArith Ascii String.
From stdpp Require Import gmap strings list fin_maps pretty sorting.

Open Scope Z_scope.

(* stdpp's solvers clear hypotheses that are sometimes already gone. *)
Set Warnings "-clear-no-such-hyp".

(** ** Configuration *)

(** Modelled from the spec: [KafkaCommonConf] is declared in another file
    of the package; of its keys ([kafka.topicIn], [kafka.topicOut],
    brokers, TLS, ...) the bridge reads the two topic names only. *)
Record KafkaCommonConf := {
  TopicIn : string;
  TopicOut : string;
}.

Record KafkaBridgeConf := {
  Kafka : KafkaCommonConf;
  MaxInFlight : Z;
  MaxTXWaitTime : Z;
  PredictNonces : bool;
  RPC_URL : string;
}.

(** Go's [error] values are observed through their message only. *)
Definition error := string.

(** ** Messages *)

(** [sarama.ConsumerMessage]: the fields the bridge reads. *)
Record ConsumerMessage := {
  Topic : string;
  Partition : Z;
  Offset : Z;
  Value : string;
}.

(** Modelled from the spec: [kldmessages.CommonHeaders] is declared
    outside this file.  The fields are those of the request envelope of the
    spec, under the names this file reads them by; [Context] is an opaque
    blob echoed into the reply. *)
Record CommonHeaders := {
  ID : string;
  MsgType : string;
  Account : string;
  Context : string;
}.

(** Modelled from the spec: [kldmessages.RequestCommon], the part of a
    request that every message type shares. *)
Record RequestCommon := {
  Headers : CommonHeaders;
}.

(** Modelled from the spec: [kldmessages.ReplyHeaders] is declared outside
    this file; it holds the common headers and the reply stamps.
    [Elapsed] is a [float64] in Go; it is kept here as the exact rational
    number of seconds that [Duration.Seconds] rounds. *)
Record ReplyHeaders := {
  rCommon : CommonHeaders;
  Received : string;
  Elapsed : Q;
  ReqOffset : string;
  ReqID : string;
}.

(** Modelled from the spec: a [kldmessages.ReplyWithHeaders] is an
    envelope whose [ReplyHeaders()] method exposes its headers for update;
    the body is opaque here. *)
Record ReplyMsg := {
  replyHeaders : ReplyHeaders;
  replyBody : string;
}.

(** [time.Time]: a wall-clock reading (nanoseconds since the epoch), used
    for rendering, and a monotonic reading, used for differences. *)
Record Time := {
  wall : Z;
  mono : Z;
}.

Definition maxDuration : Z := 2 ^ 63 - 1.
Definition minDuration : Z := - 2 ^ 63.

(** [Time.Sub] on two readings that carry a monotonic clock: the
    difference in nanoseconds, saturated to the range of [int64]. *)
Definition Sub (t u : Time) : Z :=
  let d := mono t - mono u in
  if maxDuration <? d then maxDuration
  else if d <? minDuration then minDuration
  else d.

(** [Duration.Seconds]. *)
Definition Seconds (d : Z) : Q := Qmake d 1000000000.

Definition loc := positive.

Record msgContext := {
  timeReceived : Time;
  requestCommon : RequestCommon;
  reqOffset : string;
  saramaMsg : ConsumerMessage;
  key : string;
  complete : bool;
  replyType : string;
  replyTime : Time;
  replyBytes : string;
}.

(** [interface{}] as it occurs in [ProducerMessage.Metadata]: either a
    string, or a value of another dynamic type. *)
Inductive Metadata :=
  | MetaString (s : string)
  | MetaOther.

(** [sarama.ProducerMessage].  Its [Value] is the context itself, whose
    [Encode] method hands out [replyBytes]. *)
Record ProducerMessage := {
  pmTopic : string;
  pmKey : string;
  pmMetadata : Metadata;
  pmValue : loc;
}.

#[global] Instance ConsumerMessage_eq_dec : EqDecision ConsumerMessage.
Proof. solve_decision. Defined.
#[global] Instance Metadata_eq_dec : EqDecision Metadata.
Proof. solve_decision. Defined.
#[global] Instance ProducerMessage_eq_dec : EqDecision ProducerMessage.
Proof. solve_decision. Defined.

Definition zeroTime : Time := {| wall := 0; mono := 0 |}.
Definition zeroHeaders : CommonHeaders :=
  {| ID := ""; MsgType := ""; Account := ""; Context := "" |}.
Definition zeroMsg : ConsumerMessage :=
  {| Topic := ""; Partition := 0; Offset := 0; Value := "" |}.

#[global] Instance msgContext_inhabited : Inhabited msgContext :=
  populate {| timeReceived := zeroTime;
              requestCommon := {| Headers := zeroHeaders |};
              reqOffset := ""; saramaMsg := zeroMsg; key := "";
              complete := false; replyType := ""; replyTime := zeroTime;
              replyBytes := "" |}.

(** ** The bridge and the world around it *)

Record KafkaBridge := {
  conf : KafkaBridgeConf;
  inFlight : gmap string loc;
}.

(** What the bridge does to its collaborators and what they do to it, in
    the order it happens: a message admitted to the in-flight map, a
    context handed to the processor ([OnMessage]), a message sent on the
    producer's input, an acknowledgement taken from the producer's success
    stream, a [MarkOffset] call on the consumer. *)
Inductive Action :=
  | ActAdmit (msg : ConsumerMessage)
  | ActDispatch (c : loc)
  | ActEnqueue (pm : ProducerMessage)
  | ActAck (reqOffset : string)
  | ActMark (msg : ConsumerMessage).

#[global] Instance Action_eq_dec : EqDecision Action.
Proof. solve_decision. Defined.

(** The bridge, the heap of message contexts, and the actions so far,
    most recent first. *)
Record World := {
  bridge : KafkaBridge;
  heap : gmap loc msgContext;
  history : list Action;
}.

Definition SetConf (cf : KafkaBridgeConf) (k : KafkaBridge) : KafkaBridge :=
  {| conf := cf; inFlight := inFlight k |}.
Definition setInFlight (m : gmap string loc) (k : KafkaBridge) : KafkaBridge :=
  {| conf := conf k; inFlight := m |}.

Definition withInFlight (m : gmap string loc) (w : World) : World :=
  {| bridge := setInFlight m (bridge w); heap := heap w; history := history w |}.
Definition withHeap (h : gmap loc msgContext) (w : World) : World :=
  {| bridge := bridge w; heap := h; history := history w |}.
Definition record (a : Action) (w : World) : World :=
  {| bridge := bridge w; heap := heap w; history := a :: history w |}.

(** ** ValidateConf *)

(** [ValidateConf] updates the configuration in place and returns an
    error or nil; the warning it logs is not modelled. *)
Definition ValidateConf (k : KafkaBridge) : KafkaBridge * option error :=
  let cf := conf k in
  if decide (RPC_URL cf = "") then
    (k, Some "No JSON/RPC URL set for ethereum node")
  else
    let cf1 :=
      if MaxTXWaitTime cf <? 10 then
        {| Kafka := Kafka cf; MaxInFlight := MaxInFlight cf;
           MaxTXWaitTime := 10; PredictNonces := PredictNonces cf;
           RPC_URL := RPC_URL cf |}
      else cf in
    let cf2 :=
      if MaxInFlight cf1 =? 0 then
        {| Kafka := Kafka cf1; MaxInFlight := 10;
           MaxTXWaitTime := MaxTXWaitTime cf1;
           PredictNonces := PredictNonces cf1; RPC_URL := RPC_URL cf1 |}
      else cf1 in
    (SetConf cf2 k, None).

(** ** Library functions and helpers declared outside this file *)

(** The Go runtime and libraries the bridge calls.  [json_Unmarshal] takes
    the bytes and the value to decode into, and returns the (possibly
    partly) decoded value with the error; [json_Marshal] returns the bytes
    ([Reply] drops its error).  [NewErrorReply] builds the standard error
    envelope of [kldmessages].  The order in which [range] visits a map is
    unspecified and may differ from one loop to the next, hence the seed;
    [sort.Sort] is not stable, and sorts with respect to any [Less] that
    is a strict weak order. *)
Class Extern := {
  json_Unmarshal : string → RequestCommon → RequestCommon * option error;
  json_Marshal : ReplyMsg → string;
  time_Format_RFC3339 : Time → string;
  NewErrorReply : error → string → ReplyMsg;
  map_range : nat → gmap string loc → list (string * loc);
  map_range_perm : ∀ seed m, map_range seed m ≡ₚ map_to_list m;
  sort_Sort : (loc → loc → bool) → list loc → list loc;
  sort_Sort_perm : ∀ less l, sort_Sort less l ≡ₚ l;
  sort_Sort_sorted : ∀ less l,
    (∀ a, less a a = false) →
    (∀ a b c, less a b = true → less b c = true → less a c = true) →
    (∀ a b c, less a b = false → less b c = false → less a c = false) →
    StronglySorted (λ a b, less b a = false) (sort_Sort less l);
}.

(** Lower-case hexadecimal digits, and the two digits of a byte. *)
Definition hexDigit (n : Z) : ascii :=
  default "0"%char (list_ascii_of_string "0123456789abcdef" !! Z.to_nat n).

Definition hexByte (b : Z) : string :=
  String (hexDigit (Z.shiftr b 4)) (String (hexDigit (Z.land b 15)) "").

(** The random bytes a generator draws; bytes that are missing read as 0. *)
Definition Entropy := list Z.

Definition rndByte (r : Entropy) (i : nat) : Z :=
  Z.land (default 0 (r !! i)) 255.

(** Modelled from the spec: [kldutils.UUIDv4] is not part of this file.
    The spec asks for a freshly generated v4 UUID string; it is rendered
    here from sixteen random bytes in the canonical 8-4-4-4-12 form, with
    the version and variant bits set. *)
Definition UUIDv4 (r : Entropy) : string :=
  let b := rndByte r in
  let b6 := Z.lor (Z.land (b 6%nat) 15) 64 in
  let b8 := Z.lor (Z.land (b 8%nat) 63) 128 in
  hexByte (b 0%nat) +:+ hexByte (b 1%nat) +:+ hexByte (b 2%nat)
  +:+ hexByte (b 3%nat) +:+ "-"
  +:+ hexByte (b 4%nat) +:+ hexByte (b 5%nat) +:+ "-"
  +:+ hexByte b6 +:+ hexByte (b 7%nat) +:+ "-"
  +:+ hexByte b8 +:+ hexByte (b 9%nat) +:+ "-"
  +:+ hexByte (b 10%nat) +:+ hexByte (b 11%nat) +:+ hexByte (b 12%nat)
  +:+ hexByte (b 13%nat) +:+ hexByte (b 14%nat) +:+ hexByte (b 15%nat).

(** ** Message contexts *)

Definition set_requestCommon (rc : RequestCommon) (c : msgContext) : msgContext :=
  {| timeReceived := timeReceived c; requestCommon := rc;
     reqOffset := reqOffset c; saramaMsg := saramaMsg c; key := key c;
     complete := complete c; replyType := replyType c;
     replyTime := replyTime c; replyBytes := replyBytes c |}.

Definition set_key (s : string) (c : msgContext) : msgContext :=
  {| timeReceived := timeReceived c; requestCommon := requestCommon c;
     reqOffset := reqOffset c; saramaMsg := saramaMsg c; key := s;
     complete := complete c; replyType := replyType c;
     replyTime := replyTime c; replyBytes := replyBytes c |}.

Definition set_complete (b : bool) (c : msgContext) : msgContext :=
  {| timeReceived := timeReceived c; requestCommon := requestCommon c;
     reqOffset := reqOffset c; saramaMsg := saramaMsg c; key := key c;
     complete := b; replyType := replyType c;
     replyTime := replyTime c; replyBytes := replyBytes c |}.

Definition set_reply (ty : string) (t : Time) (bytes : string)
    (c : msgContext) : msgContext :=
  {| timeReceived := timeReceived c; requestCommon := requestCommon c;
     reqOffset := reqOffset c; saramaMsg := saramaMsg c; key := key c;
     complete := complete c; replyType := ty;
     replyTime := t; replyBytes := bytes |}.

Definition set_ID (s : string) (h : CommonHeaders) : CommonHeaders :=
  {| ID := s; MsgType := MsgType h; Account := Account h;
     Context := Context h |}.

(** [fmt.Sprintf("%s:%d:%d", msg.Topic, msg.Partition, msg.Offset)] *)
Definition coordinate (msg : ConsumerMessage) : string :=
  Topic msg +:+ ":" +:+ pretty (Partition msg) +:+ ":" +:+ pretty (Offset msg).

(** [*pCtx]: pointers to contexts are never dangling in Go. *)
Definition deref (h : gmap loc msgContext) (p : loc) : msgContext := h !!! p.

Section Bridge.
Context {rt : Extern}.

(** ** addInflightMsg *)

(** The context is built first; it reaches the heap (and a location) only
    when it is put into the map, the copy made for a redelivery being
    garbage.  [now] is what [time.Now()] returns and [rnd] the random
    bytes [UUIDv4] draws.  The result is the world with Go's [(pCtx, err)],
    a nil pointer being [None].  An admission is recorded in the history. *)
Definition addInflightMsg (now : Time) (rnd : Entropy) (w : World)
    (msg : ConsumerMessage) : World * option loc * option error :=
  let ctx :=
    {| timeReceived := now;
       requestCommon := {| Headers := zeroHeaders |};
       reqOffset := coordinate msg;
       saramaMsg := msg;
       key := ""; complete := false; replyType := "";
       replyTime := zeroTime; replyBytes := "" |} in
  match inFlight (bridge w) !! reqOffset ctx with
  | Some _ => (w, None, None)
  | None =>
    let pCtx := fresh (dom (heap w)) in
    let w1 :=
      record (ActAdmit msg)
        (withInFlight (<[reqOffset ctx := pCtx]> (inFlight (bridge w)))
           (withHeap (<[pCtx := ctx]> (heap w)) w)) in
    let '(rc, err) := json_Unmarshal (Value msg) (requestCommon ctx) in
    let ctx1 := set_requestCommon rc ctx in
    match err with
    | Some e => (withHeap (<[pCtx := ctx1]> (heap w1)) w1, Some pCtx, Some e)
    | None =>
      let headers := Headers rc in
      let headers1 :=
        if decide (ID headers = "") then set_ID (UUIDv4 rnd) headers
        else headers in
      let ctx2 := set_requestCommon {| Headers := headers1 |} ctx1 in
      let ctx3 :=
        if decide (Account headers1 ≠ "") then set_key (Account headers1) ctx2
        else set_key (ID headers1) ctx2 in
      (withHeap (<[pCtx := ctx3]> (heap w1)) w1, Some pCtx, None)
    end
  end.

(** ** setInFlightComplete *)

(** [ctxByOffset.Less] *)
Definition Less (h : gmap loc msgContext) (a b : loc) : bool :=
  Offset (saramaMsg (deref h a)) <? Offset (saramaMsg (deref h b)).

(** The first loop and the sort: the in-flight contexts of the partition
    of [ctx], by offset. *)
Definition completeInParition (seed : nat) (w : World) (ctx : loc) : list loc :=
  let collected :=
    filter (λ inflight,
              Partition (saramaMsg (deref (heap w) inflight))
              = Partition (saramaMsg (deref (heap w) ctx)))
           (map_range seed (inFlight (bridge w))).*2 in
  sort_Sort (Less (heap w)) collected.

(** The second loop: forwards until the first that is not complete. *)
Fixpoint completePrefix (h : gmap loc msgContext) (l : list loc) : list loc :=
  match l with
  | [] => []
  | c :: l' => if complete (deref h c) then c :: completePrefix h l' else []
  end.

Definition readyToAck (seed : nat) (w : World) (ctx : loc) : list loc :=
  completePrefix (heap w) (completeInParition seed w ctx).

(** [ctx.complete = true] *)
Definition markComplete (w : World) (ctx : loc) : World :=
  withHeap (alter (set_complete true) ctx (heap w)) w.

(** [canMark] is [len(readyToAck) > 0], that is, the list has a last
    element; [consumer.MarkOffset] is recorded in the history. *)
Definition setInFlightComplete (seed : nat) (w : World) (ctx : loc) : World :=
  let w1 := markComplete w ctx in
  let ready := readyToAck seed w1 ctx in
  match last ready with
  | Some highest =>
    let m :=
      foldl (λ m c, delete (reqOffset (deref (heap w1) c)) m)
            (inFlight (bridge w1)) ready in
    record (ActMark (saramaMsg (deref (heap w1) highest))) (withInFlight m w1)
  | None => w1
  end.

(** ** Reply *)

Definition stamp (id : string) (ctxt : string) (reqID : string)
    (off : string) (recv : string) (el : Q) (r : ReplyHeaders) : ReplyHeaders :=
  {| rCommon := {| ID := id; MsgType := MsgType (rCommon r);
                   Account := Account (rCommon r); Context := ctxt |};
     Received := recv; Elapsed := el; ReqOffset := off; ReqID := reqID |}.

(** The reply headers as [Reply] leaves them, the assignments in the
    order of the source, [ReqOffset] being assigned twice. *)
Definition stampedHeaders (now : Time) (rnd : Entropy) (c : msgContext)
    (r : ReplyHeaders) : ReplyHeaders :=
  let r := stamp (UUIDv4 rnd) (Context (rCommon r)) (ReqID r) (ReqOffset r)
                 (Received r) (Elapsed r) r in
  let r := stamp (ID (rCommon r)) (Context (Headers (requestCommon c)))
                 (ReqID r) (ReqOffset r) (Received r) (Elapsed r) r in
  let r := stamp (ID (rCommon r)) (Context (rCommon r))
                 (ID (Headers (requestCommon c))) (ReqOffset r)
                 (Received r) (Elapsed r) r in
  let r := stamp (ID (rCommon r)) (Context (rCommon r)) (ReqID r)
                 (reqOffset c) (Received r) (Elapsed r) r in
  let r := stamp (ID (rCommon r)) (Context (rCommon r)) (ReqID r)
                 (reqOffset c) (Received r) (Elapsed r) r in
  let r := stamp (ID (rCommon r)) (Context (rCommon r)) (ReqID r)
                 (ReqOffset r) (time_Format_RFC3339 (timeReceived c))
                 (Elapsed r) r in
  stamp (ID (rCommon r)) (Context (rCommon r)) (ReqID r) (ReqOffset r)
        (Received r) (Seconds (Sub now (timeReceived c))) r.

(** [now] is the reading [time.Now()] returns for [replyTime]. *)
Definition Reply (now : Time) (rnd : Entropy) (w : World) (c : loc)
    (replyMessage : ReplyMsg) : World :=
  let ctx := deref (heap w) c in
  let hdr := stampedHeaders now rnd ctx (replyHeaders replyMessage) in
  let stamped := {| replyHeaders := hdr; replyBody := replyBody replyMessage |} in
  let ctx1 :=
    set_reply (MsgType (rCommon (replyHeaders replyMessage))) now
              (json_Marshal stamped) ctx in
  record
    (ActEnqueue {| pmTopic := TopicOut (Kafka (conf (bridge w)));
                   pmKey := key ctx1;
                   pmMetadata := MetaString (reqOffset ctx1);
                   pmValue := c |})
    (withHeap (<[c := ctx1]> (heap w)) w).

(** ** The loops *)

(** How one iteration of a loop ends: it completes, it is parked in
    [inFlightCond.Wait()] (to look at the map again when woken), or the
    process panics. *)
Inductive Outcome :=
  | Done (w : World)
  | Waiting
  | Panic (e : error).

(** [processor.OnMessage]: the processor is declared outside this file;
    it receives the context and replies on it later. *)
Definition OnMessage (w : World) (c : loc) : World := record (ActDispatch c) w.

(** One iteration of [ConsumerMessagesLoop], for the message [msg] drawn
    from the consumer.  [now] and [rnd] serve [addInflightMsg], [now'] and
    [rnd'] the error reply. *)
Definition ConsumerMessagesLoop_iter (now : Time) (rnd : Entropy)
    (now' : Time) (rnd' : Entropy) (w : World) (msg : ConsumerMessage)
    : Outcome :=
  if MaxInFlight (conf (bridge w)) <=? Z.of_nat (size (inFlight (bridge w)))
  then Waiting
  else
    match addInflightMsg now rnd w msg with
    | (w1, None, _) => Done w1
    | (w1, Some msgCtx, None) => Done (OnMessage w1 msgCtx)
    | (w1, Some msgCtx, Some err) =>
      Done (Reply now' rnd' w1 msgCtx (NewErrorReply err (Value msg)))
    end.

(** [sarama.ProducerError] *)
Record ProducerError := {
  peMsg : ProducerMessage;
  peErr : error;
}.

Definition typeAssertion : error :=
  "interface conversion: interface {} is not string".

(** One iteration of [ProducerErrorLoop]: the type assertion on the
    metadata, then the lookup of the context for the log line (a nil
    context is fine there), then the panic with the producer's error. *)
Definition ProducerErrorLoop_iter (w : World) (err : ProducerError) : Outcome :=
  match pmMetadata (peMsg err) with
  | MetaString reqOffset => Panic (peErr err)
  | MetaOther => Panic typeAssertion
  end.

(** One iteration of [ProducerSuccessLoop], for the acknowledgement [msg]
    taken from the producer's success stream. *)
Definition ProducerSuccessLoop_iter (seed : nat) (w : World)
    (msg : ProducerMessage) : Outcome :=
  match pmMetadata msg with
  | MetaString reqOffset =>
    match inFlight (bridge w) !! reqOffset with
    | Some ctx => Done (setInFlightComplete seed (record (ActAck reqOffset) w) ctx)
    | None =>
      Panic ("Received confirmation for message not in in-flight map: "
             +:+ reqOffset)
    end
  | MetaOther => Panic typeAssertion
  end.

(** ** Runs of the bridge *)

(** The mutex makes the iterations of the loops atomic with respect to
    the map, so a run is a sequence of events: the consumer loop takes a
    message, the processor replies on a context it was handed, the success
    loop takes an acknowledgement of a message that was sent to the
    producer, the error loop takes an error. *)
Inductive Event :=
  | EvMessage (msg : ConsumerMessage) (now : Time) (rnd : Entropy)
              (now' : Time) (rnd' : Entropy)
  | EvReply (c : loc) (m : ReplyMsg) (now : Time) (rnd : Entropy)
  | EvSuccess (pm : ProducerMessage) (seed : nat)
  | EvError (err : ProducerError).

Definition continue (o : Outcome) : option World :=
  match o with
  | Done w => Some w
  | Waiting | Panic _ => None
  end.

(** A step is [None] when the event cannot happen in [w], when the
    consumer loop has to wait, or when the process panics. *)
Definition step (w : World) (ev : Event) : option World :=
  match ev with
  | EvMessage msg now rnd now' rnd' =>
    continue (ConsumerMessagesLoop_iter now rnd now' rnd' w msg)
  | EvReply c m now rnd =>
    if decide (ActDispatch c ∈ history w) then Some (Reply now rnd w c m)
    else None
  | EvSuccess pm seed =>
    if decide (ActEnqueue pm ∈ history w)
    then continue (ProducerSuccessLoop_iter seed w pm)
    else None
  | EvError err =>
    if decide (ActEnqueue (peMsg err) ∈ history w)
    then continue (ProducerErrorLoop_iter w err)
    else None
  end.

(** The messages marked so far, most recent first. *)
Definition marked (w : World) : list ConsumerMessage :=
  omap (λ a, match a with ActMark m => Some m | _ => None end) (history w).

Fixpoint run (w : World) (evs : list Event) : option World :=
  match evs with
  | [] => Some w
  | ev :: evs' =>
    match step w ev with
    | Some w' => run w' evs'
    | None => None
    end
  end.

End Bridge.

(** [NewKafkaBridge], and the world a bridge configured with [cf] starts
    in. *)
Definition NewKafkaBridge : KafkaBridge :=
  {| conf := {| Kafka := {| TopicIn := ""; TopicOut := "" |};
                MaxInFlight := 0; MaxTXWaitTime := 0;
                PredictNonces := false; RPC_URL := "" |};
     inFlight := ∅ |}.

Definition start (cf : KafkaBridgeConf) : World :=
  {| bridge := SetConf cf NewKafkaBridge; heap := ∅; history := [] |}.

(** ** Encoding a reply *)

(** [msgContext.Length] and [msgContext.Encode]: the producer calls them
    on the [Value] of a message it was handed, which is the context itself,
    at the time it sends the message. *)
Definition Length (c : msgContext) : Z :=
  Z.of_nat (String.length (replyBytes c)).

Definition Encode (c : msgContext) : string * option error :=
  (replyBytes c, None).

(** ** ctxByOffset *)

(** The slice [sort.Sort] works on, through [Len], [Less] and [Swap].  An
    index expression out of range panics, which is [None] here. *)
Definition ctxByOffset := list loc.

Definition Len (a : ctxByOffset) : Z := Z.of_nat (length a).

Definition index (a : ctxByOffset) (i : Z) : option loc :=
  if decide (0 ≤ i) then a !! Z.to_nat i else None.

(** [a[i], a[j] = a[j], a[i]]: both right-hand sides are read, then
    [a[i]] is assigned, then [a[j]]. *)
Definition Swap (a : ctxByOffset) (i j : Z) : option ctxByOffset :=
  x ← index a j;
  y ← index a i;
  Some (<[Z.to_nat j := y]> (<[Z.to_nat i := x]> a)).

(** [ctxByOffset.Less] on indices; [Less] above is its comparison. *)
Definition ctxByOffset_Less (h : gmap loc msgContext) (a : ctxByOffset)
    (i j : Z) : option bool :=
  x ← index a i;
  y ← index a j;
  Some (Less h x y).

(** ** Starting the bridge *)

(** What [Start] and the command reach outside this file: the YAML
    printer of [kldutils], [rpc.Dial] (whose client is opaque here), and
    [KafkaCommon], the Kafka side of the bridge, which validates its part
    of the configuration, possibly updating it, and runs the loops. *)
Class Startup := {
  MarshalToYAML : KafkaBridgeConf → string * option error;
  rpc_Dial : string → option error;
  kafka_ValidateConf : KafkaCommonConf → KafkaCommonConf * option error;
  kafka_Start : KafkaCommonConf → option error;
}.

(** What starting the bridge does to the world, in order: text printed,
    the node dialled, the processor initialised with its wait, the Kafka
    side started. *)
Inductive Effect :=
  | EffPrint (s : string)
  | EffDial (url : string)
  | EffInit (maxWait : Z)
  | EffKafkaStart (cf : KafkaCommonConf).

Definition newline : string := String "010"%char "".

Definition withKafka (kc : KafkaCommonConf) (k : KafkaBridge) : KafkaBridge :=
  SetConf {| Kafka := kc; MaxInFlight := MaxInFlight (conf k);
             MaxTXWaitTime := MaxTXWaitTime (conf k);
             PredictNonces := PredictNonces (conf k);
             RPC_URL := RPC_URL (conf k) |} k.

Section Starting.
Context {st : Startup}.

Definition connect (k : KafkaBridge) : list Effect * option error :=
  let url := RPC_URL (conf k) in
  match rpc_Dial url with
  | Some err =>
    ([EffDial url],
     Some ("JSON/RPC connection to " +:+ url +:+ " failed: " +:+ err))
  | None => ([EffDial url; EffInit (MaxTXWaitTime (conf k))], None)
  end.

(** [printYAML] is the value the bridge's [*printYAML] has when [Start]
    runs. *)
Definition Start (printYAML : bool) (k : KafkaBridge)
    : list Effect * option error :=
  if printYAML then
    let '(b, err) := MarshalToYAML (conf k) in
    ([EffPrint ("# YAML Configuration snippet for Kafka->Ethereum bridge"
                +:+ newline +:+ b)], err)
  else
    match connect k with
    | (effs, Some err) => (effs, Some err)
    | (effs, None) =>
      (effs ++ [EffKafkaStart (Kafka (conf k))], kafka_Start (Kafka (conf k)))
    end.

(** The two hooks [CobraInit] gives the [kafka] command. *)
Definition PreRunE (k : KafkaBridge) : KafkaBridge * option error :=
  match kafka_ValidateConf (Kafka (conf k)) with
  | (kc, Some err) => (withKafka kc k, Some err)
  | (kc, None) => ValidateConf (withKafka kc k)
  end.

Definition RunE (printYAML : bool) (k : KafkaBridge)
    : list Effect * option error :=
  Start printYAML k.

(** The command as cobra executes it: [RunE] runs when [PreRunE] returned
    no error. *)
Definition kafkaCommand (printYAML : bool) (k : KafkaBridge)
    : list Effect * option error :=
  match PreRunE k with
  | (_, Some err) => ([], Some err)
  | (k', None) => RunE printYAML k'
  end.

End Starting.

(** ** The server command *)

(** [ServerConfig]: the two maps hold pointers, which are nil ([None])
    for an entry the file leaves null.  [W] is the configuration of a
    webhooks bridge, which this development does not look into. *)
Record ServerConfig (W : Type) := {
  KafkaBridges : gmap string (option KafkaBridgeConf);
  WebhooksBridges : gmap string (option W);
}.
Arguments KafkaBridges {W} _.
Arguments WebhooksBridges {W} _.

(** How configuring one bridge ends: it is ready to start, its
    [ValidateConf] returned an error, or the process panicked. *)
Inductive Configured (B : Type) :=
  | CfgReady (b : B)
  | CfgError (e : error)
  | CfgPanic.
Arguments CfgReady {B} _.
Arguments CfgError {B} _.
Arguments CfgPanic {B}.

(** What [startServer] reaches outside this file and [kldkafka]: the
    webhooks bridge ([NewWebhooksBridge], [SetConf] and [ValidateConf],
    taken together), the YAML printer, and [range] over a map, whose order
    is unspecified. *)
Class ServerExtern (W : Type) := {
  webhooks_configure : option W → Configured W;
  server_MarshalToYAML : ServerConfig W → string * option error;
  range : ∀ {A : Type}, nat → gmap string A → list (string * A);
  range_perm : ∀ (A : Type) seed (m : gmap string A),
    range seed m ≡ₚ map_to_list m;
}.

(** A goroutine [startServer] launched, which runs the bridge's [Start]
    and then signals [anyRoutineFinished]. *)
Inductive Routine (W : Type) :=
  | KafkaRoutine (name : string) (k : KafkaBridge)
  | WebhooksRoutine (name : string) (b : W).
Arguments KafkaRoutine {W} _ _.
Arguments WebhooksRoutine {W} _ _.

(** How [startServer] ends: it returns, it panics, or it waits on
    [anyRoutineFinished] for the first bridge to finish (and returns nil
    then). *)
Inductive Stop :=
  | Returned (err : option error)
  | Panicked
  | AwaitsRoutine.

(** [NewKafkaBridge], [SetConf] and [ValidateConf] on one entry; [SetConf]
    dereferences the pointer. *)
Definition kafka_configure (conf : option KafkaBridgeConf)
    : Configured KafkaBridge :=
  match conf with
  | None => CfgPanic
  | Some cf =>
    match ValidateConf (SetConf cf NewKafkaBridge) with
    | (_, Some err) => CfgError err
    | (k, None) => CfgReady k
    end
  end.

(** One of the two loops of [startServer], over the entries in the order
    [range] gives them: the routines launched, and how the loop stopped if
    it did not reach its end. *)
Fixpoint startBridges {C B R : Type} (configure : option C → Configured B)
    (routine : string → B → R) (l : list (string * option C))
    : list R * option Stop :=
  match l with
  | [] => ([], None)
  | (name, conf) :: l' =>
    match configure conf with
    | CfgPanic => ([], Some Panicked)
    | CfgError err => ([], Some (Returned (Some err)))
    | CfgReady b =>
      let '(rs, stop) := startBridges configure routine l' in
      (routine name b :: rs, stop)
    end
  end.

Section Server.
Context {W : Type} {srv : ServerExtern W}.

(** [read] is what [readServerConfig] returned; the result is the text
    printed, the routines launched, and how the function ended. *)
Definition startServer (read : ServerConfig W + error) (PrintYAML : bool)
    (seed1 seed2 : nat) : option string * list (Routine W) * Stop :=
  match read with
  | inr err => (None, [], Returned (Some err))
  | inl serverConfig =>
    if PrintYAML then
      let '(b, err) := server_MarshalToYAML serverConfig in
      (Some ("# Full YAML configuration processed from supplied file"
             +:+ newline +:+ b), [], Returned err)
    else
      match startBridges kafka_configure KafkaRoutine
                         (range seed1 (KafkaBridges serverConfig)) with
      | (ks, Some stop) => (None, ks, stop)
      | (ks, None) =>
        match startBridges webhooks_configure WebhooksRoutine
                           (range seed2 (WebhooksBridges serverConfig)) with
        | (ws, Some stop) => (None, ks ++ ws, stop)
        | (ws, None) => (None, ks ++ ws, AwaitsRoutine)
        end
      end
  end.

End Server.

(** * What is stated of the bridge *)

(** ** The in-flight map *)

(** Every entry of the map points to a context of the heap that carries
    the entry's key, and every context is keyed by the coordinate of its
    message. *)
Definition tracked (w : World) : Prop :=
  (∀ k c, inFlight (bridge w) !! k = Some c →
          ∃ ctx, heap w !! c = Some ctx ∧ reqOffset ctx = k)
  ∧ (∀ c ctx, heap w !! c = Some ctx →
              reqOffset ctx = coordinate (saramaMsg ctx)).

Definition offsetOf (w : World) (c : loc) : Z :=
  Offset (saramaMsg (deref (heap w) c)).
Definition partitionOf (w : World) (c : loc) : Z :=
  Partition (saramaMsg (deref (heap w) c)).
Definition isComplete (w : World) (c : loc) : Prop :=
  complete (deref (heap w) c) = true.
Definition isInFlight (w : World) (c : loc) : Prop :=
  ∃ k, inFlight (bridge w) !! k = Some c.

(** ** Histories *)

(** The reply to coordinate [k] was sent to the producer and the producer
    acknowledged it. *)
Definition acknowledged (h : list Action) (k : string) : Prop :=
  ActAck k ∈ h ∧ ∃ pm, pmMetadata pm = MetaString k ∧ ActEnqueue pm ∈ h.

Record Inv (w : World) : Prop := {
  inv_tracked : tracked w;
  inv_dispatched : ∀ c, ActDispatch c ∈ history w → is_Some (heap w !! c);
  inv_admitted : ∀ c ctx,
    heap w !! c = Some ctx → ActAdmit (saramaMsg ctx) ∈ history w;
  inv_complete : ∀ k c ctx,
    inFlight (bridge w) !! k = Some c → heap w !! c = Some ctx →
    complete ctx = true → acknowledged (history w) k;
  inv_pending : ∀ m,
    ActAdmit m ∈ history w →
    (∃ c ctx, inFlight (bridge w) !! coordinate m = Some c
              ∧ heap w !! c = Some ctx ∧ saramaMsg ctx = m)
    ∨ acknowledged (history w) (coordinate m);
  inv_marked : ∀ m, ActMark m ∈ history w → ActAdmit m ∈ history w;
}.

(** Admissions arrive in offset order on each partition: a message is
    admitted at or above the offsets admitted before it on its
    partition. *)
Definition inOrder (h : list Action) : Prop :=
  ∀ later m2 earlier m1,
    h = later ++ ActAdmit m2 :: earlier → ActAdmit m1 ∈ earlier →
    Partition m1 = Partition m2 → Offset m1 ≤ Offset m2.

(** The consumer reads one topic. *)
Definition oneTopic (t : string) (h : list Action) : Prop :=
  ∀ m, ActAdmit m ∈ h → Topic m = t.

(** P2: on each partition the marked offsets never go down. *)
Definition marksAscend (h : list Action) : Prop :=
  ∀ later m2 earlier m1,
    h = later ++ ActMark m2 :: earlier → ActMark m1 ∈ earlier →
    Partition m1 = Partition m2 → Offset m1 ≤ Offset m2.

(** P3: when an offset is marked, every message admitted before on the
    partition at or below that offset has had its reply sent and
    acknowledged. *)
Definition noPrematureCommit (h : list Action) : Prop :=
  ∀ later m earlier m',
    h = later ++ ActMark m :: earlier → ActAdmit m' ∈ earlier →
    Partition m' = Partition m → Offset m' ≤ Offset m →
    acknowledged earlier (coordinate m').

(** A message is marked after it was admitted. *)
Definition marksAdmitted (h : list Action) : Prop :=
  ∀ later m earlier, h = later ++ ActMark m :: earlier → ActAdmit m ∈ earlier.

(** The contexts in flight are at or above the marks of their partition. *)
Definition aboveMarks (w : World) : Prop :=
  ∀ k c ctx m,
    inFlight (bridge w) !! k = Some c → heap w !! c = Some ctx →
    ActMark m ∈ history w → Partition m = Partition (saramaMsg ctx) →
    Offset m ≤ Offset (saramaMsg ctx).

(** Two contexts that differ in their reply fields at most. *)
Definition sameCore (x y : msgContext) : Prop :=
  saramaMsg x = saramaMsg y ∧ reqOffset x = reqOffset y
  ∧ complete x = complete y.

Definition quietAction (w : World) (a : Action) : Prop :=
  match a with
  | ActDispatch c => is_Some (heap w !! c)
  | ActEnqueue _ => True
  | _ => False
  end.

(** A step that leaves the map alone, touches reply fields only, and
    records a dispatch or a send. *)
Definition quiet (w w' : World) : Prop :=
  bridge w' = bridge w
  ∧ (∀ c, option_Forall2 sameCore (heap w !! c) (heap w' !! c))
  ∧ ∃ a, quietAction w a ∧ history w' = a :: history w.

(** What holds of every world a run reaches, [t] being the topic the
    consumer reads. *)
Definition Good (t : string) (w : World) : Prop :=
  Inv w
  ∧ marksAdmitted (history w)
  ∧ (inOrder (history w) → aboveMarks w ∧ marksAscend (history w))
  ∧ (oneTopic t (history w) → noPrematureCommit (history w)).

(** ** Scenario 2 of the spec *)

(** The contexts [c10], [c11] and [c12], at offsets 10, 11 and 12, are
    all that is in flight on partition [p]; those of [done] are complete
    and the others are not. *)
Definition three (p : Z) (c10 c11 c12 : loc) (w : World) (done : list loc)
    : Prop :=
  tracked w
  ∧ (∀ c, isInFlight w c ∧ partitionOf w c = p ↔ c ∈ [c10; c11; c12])
  ∧ offsetOf w c10 = 10 ∧ offsetOf w c11 = 11 ∧ offsetOf w c12 = 12
  ∧ (∀ c, c ∈ [c10; c11; c12] → is_Some (heap w !! c))
  ∧ (∀ c, c ∈ [c10; c11; c12] → isComplete w c ↔ c ∈ done).

(** ** Assumptions on a history, as checks *)

Definition belowOrElsewhere (m2 : ConsumerMessage) (a : Action) : bool :=
  match a with
  | ActAdmit m1 =>
    if decide (Partition m1 = Partition m2) then Offset m1 <=? Offset m2
    else true
  | _ => true
  end.

Fixpoint inOrderb (h : list Action) : bool :=
  match h with
  | [] => true
  | ActAdmit m2 :: earlier =>
    forallb (belowOrElsewhere m2) earlier && inOrderb earlier
  | _ :: earlier => inOrderb earlier
  end.

Definition oneTopicb (t : string) (h : list Action) : bool :=
  forallb (λ a, match a with
                | ActAdmit m => bool_decide (Topic m = t)
                | _ => true
                end) h.

(** ** What a run keeps of a context *)

(** [x'] is [x] later in a run: what the admission wrote is still there,
    and a context that was complete still is. *)
Definition keeps (x x' : msgContext) : Prop :=
  saramaMsg x' = saramaMsg x
  ∧ reqOffset x' = reqOffset x
  ∧ key x' = key x
  ∧ timeReceived x' = timeReceived x
  ∧ requestCommon x' = requestCommon x
  ∧ (complete x = true → complete x' = true).

(** Every admitted message is still in flight, or a mark on its
    partition is at or above its offset. *)
Definition covered (w : World) : Prop :=
  ∀ m, ActAdmit m ∈ history w →
    (∃ c ctx, inFlight (bridge w) !! coordinate m = Some c
              ∧ heap w !! c = Some ctx ∧ saramaMsg ctx = m)
    ∨ (∃ mk, ActMark mk ∈ history w ∧ Partition mk = Partition m
             ∧ Offset m ≤ Offset mk).

(** ** Messages handed to the producer *)

(** The message [pm] is one the bridge can account for: its [Value] is a
    context of the heap, its metadata the coordinate that context is
    tracked under, its key the context's key and its topic the outbound
    topic of the configuration. *)
Definition sendable (w : World) (pm : ProducerMessage) : Prop :=
  ∃ x, heap w !! pmValue pm = Some x
       ∧ pmMetadata pm = MetaString (reqOffset x)
       ∧ pmKey pm = key x
       ∧ pmTopic pm = TopicOut (Kafka (conf (bridge w))).

Definition allSendable (w : World) : Prop :=
  ∀ pm, ActEnqueue pm ∈ history w → sendable w pm.

(** * A concrete runtime, for running the model *)

Module Sample.

(** Go's insertion sort (what [sort.Sort] runs on short slices): each
    element moves left past the elements it is [Less] than. *)
Fixpoint insertLeft (less : loc → loc → bool) (l : list loc) (x : loc) : list loc :=
  match l with
  | [] => [x]
  | y :: l' =>
    if less x y then x :: y :: l' else y :: insertLeft less l' x
  end.

Definition insertionSort (less : loc → loc → bool) (l : list loc) : list loc :=
  foldl (insertLeft less) [] l.

(** A stand-in for the JSON decoder on three payloads (written without
    their quotes); anything else is a syntax error, which leaves the
    target untouched. *)
Definition decode (value : string) (rc : RequestCommon)
    : RequestCommon * option error :=
  if decide (value = "{headers:{id:A,account:0xabc}}") then
    ({| Headers := {| ID := "A"; MsgType := MsgType (Headers rc);
                      Account := "0xabc"; Context := Context (Headers rc) |} |},
     None)
  else if decide (value = "{headers:{id:B}}") then
    ({| Headers := {| ID := "B"; MsgType := MsgType (Headers rc);
                      Account := Account (Headers rc);
                      Context := Context (Headers rc) |} |}, None)
  else if decide (value = "{}") then (rc, None)
  else (rc, Some "invalid character").

Definition encode (m : ReplyMsg) : string :=
  "{headers:{requestId:" +:+ ReqID (replyHeaders m)
  +:+ ",requestOffset:" +:+ ReqOffset (replyHeaders m)
  +:+ "},body:" +:+ replyBody m +:+ "}".

Definition errorReply (err : error) (orig : string) : ReplyMsg :=
  {| replyHeaders :=
       {| rCommon := {| ID := ""; MsgType := "Error"; Account := "";
                        Context := "" |};
          Received := ""; Elapsed := 0%Q; ReqOffset := ""; ReqID := "" |};
     replyBody := err |}.

Lemma insertLeft_perm less l x : insertLeft less l x ≡ₚ x :: l.
Proof.
  induction l as [|y l IH]; simpl; [done|].
  destruct (less x y); [done|]. rewrite IH. apply Permutation_swap.
Qed.

Lemma insertionSort_perm less l : insertionSort less l ≡ₚ l.
Proof.
  unfold insertionSort.
  enough (∀ acc, foldl (insertLeft less) acc l ≡ₚ l ++ acc) as Hacc
    by (rewrite Hacc; by rewrite app_nil_r).
  induction l as [|x l IH]; intros acc; simpl; [done|].
  rewrite IH, insertLeft_perm. by rewrite Permutation_middle.
Qed.

Section sorted.
Context (less : loc → loc → bool).
Hypothesis less_irrefl : ∀ a, less a a = false.
Hypothesis less_trans :
  ∀ a b c, less a b = true → less b c = true → less a c = true.
Hypothesis less_negtrans :
  ∀ a b c, less a b = false → less b c = false → less a c = false.

Let ascending (a b : loc) : Prop := less b a = false.

Lemma less_asym a b : less a b = true → less b a = false.
Proof.
  intros Hab. destruct (less b a) eqn:Hba; [|done].
  pose proof (less_irrefl a) as Ha.
  by rewrite (less_trans _ _ _ Hab Hba) in Ha.
Qed.

Lemma insertLeft_sorted l x :
  StronglySorted ascending l → StronglySorted ascending (insertLeft less l x).
Proof.
  induction 1 as [|y l Hl IH Hy]; simpl.
  - repeat constructor.
  - destruct (less x y) eqn:Hxy.
    + constructor; [by constructor|].
      constructor; [by apply less_asym|].
      eapply Forall_impl; [exact Hy|]. intros z Hz. unfold ascending in *.
      destruct (less z x) eqn:Hzx; [|done].
      by rewrite (less_trans _ _ _ Hzx Hxy) in Hz.
    + constructor; [done|].
      rewrite insertLeft_perm. by constructor.
Qed.

Lemma insertionSort_sorted l : StronglySorted ascending (insertionSort less l).
Proof.
  unfold insertionSort.
  enough (∀ acc, StronglySorted ascending acc →
                 StronglySorted ascending (foldl (insertLeft less) acc l)) as Hacc
    by (apply Hacc; constructor).
  induction l as [|x l IH]; intros acc Hacc; simpl; [done|].
  by apply IH, insertLeft_sorted.
Qed.
End sorted.

Definition runtime : Extern := {|
  json_Unmarshal := decode;
  json_Marshal := encode;
  time_Format_RFC3339 := λ t, pretty (wall t);
  NewErrorReply := errorReply;
  map_range := λ _ m, map_to_list m;
  map_range_perm := λ _ m, reflexivity _;
  sort_Sort := insertionSort;
  sort_Sort_perm := insertionSort_perm;
  sort_Sort_sorted := λ less l Hi Ht Hn, insertionSort_sorted less Hi Ht l;
|}.

Definition cf2 : KafkaBridgeConf :=
  {| Kafka := {| TopicIn := "in"; TopicOut := "out" |};
     MaxInFlight := 3; MaxTXWaitTime := 10; PredictNonces := false;
     RPC_URL := "http://localhost:8545" |}.

(** A bridge configured with a 3 second wait and no ceiling, and one with
    a negative ceiling. *)
Definition kShort : KafkaBridge :=
  SetConf {| Kafka := Kafka cf2; MaxInFlight := 0; MaxTXWaitTime := 3;
             PredictNonces := false; RPC_URL := "http://localhost:8545" |}
          NewKafkaBridge.

Definition kNegative : KafkaBridge :=
  SetConf {| Kafka := Kafka cf2; MaxInFlight := -1; MaxTXWaitTime := 30;
             PredictNonces := false; RPC_URL := "http://localhost:8545" |}
          NewKafkaBridge.

Definition msgAt (o : Z) (v : string) : ConsumerMessage :=
  {| Topic := "in"; Partition := 0; Offset := o; Value := v |}.

Definition t0 : Time := {| wall := 1000; mono := 5 |}.
Definition t1 : Time := {| wall := 3000; mono := 2005 |}.

(** Scenario 2 of the spec: offsets 10, 11 and 12 of partition 0 are
    admitted and replied to, and the producer acknowledges 11, then 12,
    then 10. *)
Definition request : string := "{headers:{id:B}}".

Definition success : ReplyMsg :=
  {| replyHeaders :=
       {| rCommon := {| ID := ""; MsgType := "TransactionSuccess";
                        Account := ""; Context := "" |};
          Received := ""; Elapsed := 0%Q; ReqOffset := ""; ReqID := "" |};
     replyBody := "0xT" |}.

Definition sent (o : Z) (c : loc) : ProducerMessage :=
  {| pmTopic := "out"; pmKey := "B";
     pmMetadata := MetaString ("in:0:" +:+ pretty o); pmValue := c |}.

Definition admissions : list Event :=
  [ EvMessage (msgAt 10 request) t0 [] t1 [];
    EvMessage (msgAt 11 request) t0 [] t1 [];
    EvMessage (msgAt 12 request) t0 [] t1 [];
    EvReply 1%positive success t1 [];
    EvReply 2%positive success t1 [];
    EvReply 3%positive success t1 [] ].

Definition completions : list Event :=
  [ EvSuccess (sent 11 2%positive) 0;
    EvSuccess (sent 12 3%positive) 0;
    EvSuccess (sent 10 1%positive) 0 ].

(** The worlds after the admissions and replies, and after the
    acknowledgements. *)
Definition admitted : World :=
  default (start cf2) (@run runtime (start cf2) admissions).

Definition final : World :=
  default (start cf2) (@run runtime (start cf2) (admissions ++ completions)).

(** A second runtime, which walks a map in the opposite order. *)
Definition reversed : Extern := {|
  json_Unmarshal := decode;
  json_Marshal := encode;
  time_Format_RFC3339 := λ t, pretty (wall t);
  NewErrorReply := errorReply;
  map_range := λ _ m, reverse (map_to_list m);
  map_range_perm := λ _ m, reverse_Permutation (map_to_list m);
  sort_Sort := insertionSort;
  sort_Sort_perm := insertionSort_perm;
  sort_Sort_sorted := λ less l Hi Ht Hn, insertionSort_sorted less Hi Ht l;
|}.

(** The world of scenario 2 when 11 and 12 are acknowledged and 10 is
    not. *)
Definition waiting : World :=
  default (start cf2)
          (@run runtime (start cf2) (admissions ++ take 2 completions)).

(** A node that answers on one URL only, and a Kafka side that starts. *)
Definition startup : Startup := {|
  MarshalToYAML := λ cf, ("rpc: " +:+ RPC_URL cf, None);
  rpc_Dial := λ url,
    if decide (url = "http://localhost:8545") then None
    else Some "connection refused";
  kafka_ValidateConf := λ kc, (kc, None);
  kafka_Start := λ _, None;
|}.

(** A server whose webhooks bridges are configured by a port, which has
    to be there. *)
Definition server : ServerExtern Z := {|
  webhooks_configure := λ conf,
    match conf with
    | None => CfgPanic
    | Some port => if port =? 0 then CfgError "No port" else CfgReady port
    end;
  server_MarshalToYAML := λ _, ("", None);
  range := λ A _ m, map_to_list m;
  range_perm := λ A _ m, reflexivity _;
|}.

Definition noURL : KafkaBridgeConf :=
  {| Kafka := Kafka cf2; MaxInFlight := 0; MaxTXWaitTime := 0;
     PredictNonces := false; RPC_URL := "" |}.

Definition twoBridges : ServerConfig Z :=
  {| KafkaBridges := {[ "a" := Some (conf kShort) ]};
     WebhooksBridges := {[ "w" := Some 8080 ]} |}.

Definition oneBroken : ServerConfig Z :=
  {| KafkaBridges := {[ "a" := Some (conf kShort); "b" := Some noURL ]};
     WebhooksBridges := {[ "w" := Some 8080 ]} |}.

End Sample.

(** * Properties *)

(** ** Configuration *)

Lemma ValidateConf_error k :
  RPC_URL (conf k) = "" →
  ValidateConf k = (k, Some "No JSON/RPC URL set for ethereum node").
Proof. intros Hurl. unfold ValidateConf. by rewrite decide_True. Qed.

Lemma ValidateConf_ok k :
  RPC_URL (conf k) ≠ "" →
  ∃ k', ValidateConf k = (k', None)
    ∧ inFlight k' = inFlight k
    ∧ Kafka (conf k') = Kafka (conf k)
    ∧ PredictNonces (conf k') = PredictNonces (conf k)
    ∧ RPC_URL (conf k') = RPC_URL (conf k)
    ∧ MaxTXWaitTime (conf k') = Z.max 10 (MaxTXWaitTime (conf k))
    ∧ MaxInFlight (conf k')
      = (if decide (MaxInFlight (conf k) = 0) then 10 else MaxInFlight (conf k)).
Proof.
  intros Hurl. unfold ValidateConf. rewrite decide_False by done.
  eexists; split; [reflexivity|].
  destruct (Z.ltb_spec (MaxTXWaitTime (conf k)) 10);
    simpl; destruct (Z.eqb_spec (MaxInFlight (conf k)) 0);
    simpl; case_decide; repeat split; try done; lia.
Qed.

(** C9: [ValidateConf] returns an error exactly when the RPC URL is
    empty (and then changes nothing); otherwise it returns nil, with
    [MaxTXWaitTime] raised to 10 when it was below 10 and unchanged when it
    was at least 10, [MaxInFlight] set to 10 when it was 0 and unchanged
    otherwise, and every other field, and the in-flight map, as before. *)
Theorem ValidateConf_spec (k k' : KafkaBridge) (err : option error) :
  ValidateConf k = (k', err) →
  (is_Some err ↔ RPC_URL (conf k) = "")
  ∧ (is_Some err → k' = k)
  ∧ (err = None →
     (MaxTXWaitTime (conf k) < 10 → MaxTXWaitTime (conf k') = 10)
     ∧ (10 ≤ MaxTXWaitTime (conf k) →
        MaxTXWaitTime (conf k') = MaxTXWaitTime (conf k))
     ∧ (MaxInFlight (conf k) = 0 → MaxInFlight (conf k') = 10)
     ∧ (MaxInFlight (conf k) ≠ 0 →
        MaxInFlight (conf k') = MaxInFlight (conf k))
     ∧ Kafka (conf k') = Kafka (conf k)
     ∧ PredictNonces (conf k') = PredictNonces (conf k)
     ∧ RPC_URL (conf k') = RPC_URL (conf k)
     ∧ inFlight k' = inFlight k).
Proof.
  intros Hv. destruct (decide (RPC_URL (conf k) = "")) as [Hurl|Hurl].
  - rewrite (ValidateConf_error _ Hurl) in Hv. simplify_eq.
    split_and!; [split; eauto|done|intros [=]].
  - destruct (ValidateConf_ok _ Hurl) as (k1 & Hk1 & Hm & Hk & Hp & Hu & Ht & Hi).
    rewrite Hk1 in Hv. simplify_eq.
    split_and!; [split; [by intros [? [=]]|done]|by intros [? [=]]|].
    intros _. rewrite Ht, Hi. case_decide; split_and!; try done; lia.
Qed.

Lemma ValidateConf_spec_witness :
  MaxTXWaitTime (conf (ValidateConf Sample.kShort).1) = 10
  ∧ MaxInFlight (conf (ValidateConf Sample.kShort).1) = 10.
Proof.
  pose proof (ValidateConf_spec Sample.kShort (ValidateConf Sample.kShort).1
                None eq_refl) as (_ & _ & Hok).
  destruct (Hok eq_refl) as (Ht & _ & Hi & _).
  split; [apply Ht; simpl; lia | apply Hi; reflexivity].
Defined.

(** C10: the default of 10 replaces [MaxInFlight] only when it is exactly
    0.  With a negative [MaxInFlight] (and an RPC URL) [ValidateConf]
    returns nil and leaves the value negative, and under such a value the
    consumer loop finds the map full whatever its size, and waits: no
    message is admitted. *)
Theorem ValidateConf_negative_MaxInFlight (k : KafkaBridge) :
  RPC_URL (conf k) ≠ "" →
  MaxInFlight (conf k) < 0 →
  (ValidateConf k).2 = None
  ∧ MaxInFlight (conf (ValidateConf k).1) = MaxInFlight (conf k)
  ∧ (∀ k0, MaxInFlight (conf (ValidateConf k0).1) ≠ MaxInFlight (conf k0) →
           MaxInFlight (conf k0) = 0
           ∧ MaxInFlight (conf (ValidateConf k0).1) = 10)
  ∧ (∀ (E : Extern) now rnd now' rnd' w msg,
       conf (bridge w) = conf (ValidateConf k).1 →
       ConsumerMessagesLoop_iter now rnd now' rnd' w msg = Waiting).
Proof.
  intros Hurl Hneg.
  destruct (ValidateConf_ok _ Hurl) as (k1 & Hk1 & _ & _ & _ & _ & _ & Hi).
  rewrite Hk1; simpl. rewrite decide_False in Hi by lia.
  split_and!; [done|done| |].
  - intros k0 Hne. destruct (decide (RPC_URL (conf k0) = "")) as [H0|H0].
    + by rewrite (ValidateConf_error _ H0) in Hne.
    + destruct (ValidateConf_ok _ H0) as (k2 & Hk2 & _ & _ & _ & _ & _ & Hi2).
      rewrite Hk2 in *; simpl in *. by case_decide.
  - intros E now rnd now' rnd' w msg Hcf. unfold ConsumerMessagesLoop_iter.
    rewrite Hcf, Hi. case_match eqn:Hle; [done|].
    apply Z.leb_gt in Hle. lia.
Qed.

Lemma ValidateConf_negative_MaxInFlight_witness :
  (ValidateConf Sample.kNegative).2 = None
  ∧ MaxInFlight (conf (ValidateConf Sample.kNegative).1) = -1.
Proof.
  assert (RPC_URL (conf Sample.kNegative) ≠ "") as Hurl by (simpl; discriminate).
  assert (MaxInFlight (conf Sample.kNegative) < 0) as Hneg by (simpl; lia).
  destruct (ValidateConf_negative_MaxInFlight Sample.kNegative Hurl Hneg)
    as (Herr & Hmax & _).
  split; [exact Herr | exact Hmax].
Defined.

(** ** Admission *)

Section Admission.
Context {rt : Extern}.

Lemma UUIDv4_nonempty rnd : UUIDv4 rnd ≠ "".
Proof. unfold UUIDv4, hexByte. simpl. discriminate. Qed.

Lemma addInflightMsg_dup now rnd w msg :
  is_Some (inFlight (bridge w) !! coordinate msg) →
  addInflightMsg now rnd w msg = (w, None, None).
Proof. intros [c Hc]. unfold addInflightMsg. simpl. by rewrite Hc. Qed.

(** What a novel message leaves behind: one more entry in the map, for
    a fresh location holding the context, and one more action. *)
Lemma addInflightMsg_novel now rnd w msg :
  inFlight (bridge w) !! coordinate msg = None →
  ∃ ctx err,
    let c := fresh (dom (heap w)) in
    addInflightMsg now rnd w msg
    = ({| bridge := setInFlight (<[coordinate msg := c]> (inFlight (bridge w)))
                                (bridge w);
          heap := <[c := ctx]> (heap w);
          history := ActAdmit msg :: history w |}, Some c, err)
    ∧ heap w !! c = None
    ∧ reqOffset ctx = coordinate msg
    ∧ saramaMsg ctx = msg
    ∧ timeReceived ctx = now
    ∧ complete ctx = false
    ∧ err = (json_Unmarshal (Value msg) {| Headers := zeroHeaders |}).2.
Proof.
  intros Hnovel. unfold addInflightMsg. simpl. rewrite Hnovel.
  assert (heap w !! fresh (dom (heap w)) = None) as Hfresh
    by apply not_elem_of_dom, is_fresh.
  destruct (json_Unmarshal _ _) as [rc [e|]]; simpl.
  - eexists _, _. unfold withHeap, record, withInFlight; simpl.
    rewrite insert_insert_eq. by split_and!.
  - destruct (decide (ID (Headers rc) = "")), (decide (Account _ ≠ ""));
      eexists _, _; unfold withHeap, record, withInFlight; simpl;
      rewrite insert_insert_eq; by split_and!.
Qed.

(** C4: a message whose coordinate is already a key of the in-flight map
    is a duplicate for [addInflightMsg], which returns nil, nil and the
    world as it was; the consumer loop then either waits (when the map is
    full) or completes its iteration in the same world: nothing is
    dispatched, nothing is replied, the map and its size are unchanged. *)
Theorem redelivery_dropped now rnd now' rnd' (w : World) (msg : ConsumerMessage) :
  is_Some (inFlight (bridge w) !! coordinate msg) →
  addInflightMsg now rnd w msg = (w, None, None)
  ∧ (Z.of_nat (size (inFlight (bridge w))) < MaxInFlight (conf (bridge w)) →
     ConsumerMessagesLoop_iter now rnd now' rnd' w msg = Done w)
  ∧ (∀ w', ConsumerMessagesLoop_iter now rnd now' rnd' w msg = Done w' →
       w' = w
       ∧ history w' = history w
       ∧ size (inFlight (bridge w')) = size (inFlight (bridge w)))
  ∧ (∀ e, ConsumerMessagesLoop_iter now rnd now' rnd' w msg ≠ Panic e).
Proof.
  intros Hdup. pose proof (addInflightMsg_dup now rnd _ _ Hdup) as Hadd.
  unfold ConsumerMessagesLoop_iter. rewrite Hadd.
  split_and!; [done| | |].
  - intros Hcap. by rewrite (proj2 (Z.leb_gt _ _) Hcap).
  - intros w'. case_match; [done|]. by intros [= <-].
  - intros e. by case_match.
Qed.

(** C7: for a message admitted and parsed, the id of the context's
    headers is the decoded id, or a generated UUID when that was empty;
    the key is the account when that is not empty and the id otherwise;
    neither the id nor the key is empty. *)
Theorem key_derivation now rnd (w w1 : World) (msg : ConsumerMessage) (c : loc) :
  addInflightMsg now rnd w msg = (w1, Some c, None) →
  let decoded :=
    Headers (json_Unmarshal (Value msg) {| Headers := zeroHeaders |}).1 in
  let ctx := deref (heap w1) c in
  let headers := Headers (requestCommon ctx) in
  inFlight (bridge w1) !! coordinate msg = Some c
  ∧ ID headers = (if decide (ID decoded = "") then UUIDv4 rnd else ID decoded)
  ∧ Account headers = Account decoded
  ∧ key ctx = (if decide (Account headers = "") then ID headers
               else Account headers)
  ∧ ID headers ≠ ""
  ∧ key ctx ≠ "".
Proof.
  unfold addInflightMsg. simpl.
  destruct (inFlight (bridge w) !! coordinate msg); [done|].
  destruct (json_Unmarshal _ _) as [rc [e|]]; simpl; [done|].
  intros [= <- <-]. unfold deref; simpl.
  rewrite lookup_total_insert_eq, lookup_insert_eq.
  pose proof (UUIDv4_nonempty rnd).
  destruct (decide (ID (Headers rc) = "")), (decide (Account _ ≠ ""));
    simpl in *; repeat case_decide; by split_and!.
Qed.

End Admission.

Lemma key_derivation_witness :
  key (deref (heap (@addInflightMsg Sample.runtime Sample.t0 [] (start Sample.cf2)
                      (Sample.msgAt 5 "{headers:{id:A,account:0xabc}}")).1.1) 1%positive)
  = "0xabc".
Proof.
  pose proof (key_derivation (rt := Sample.runtime) Sample.t0 [] (start Sample.cf2)
    (@addInflightMsg Sample.runtime Sample.t0 [] (start Sample.cf2)
       (Sample.msgAt 5 "{headers:{id:A,account:0xabc}}")).1.1
    (Sample.msgAt 5 "{headers:{id:A,account:0xabc}}") 1%positive eq_refl)
    as (_ & _ & _ & Hkey & _).
  exact Hkey.
Defined.

Lemma redelivery_dropped_witness :
  let w := (@addInflightMsg Sample.runtime Sample.t0 [] (start Sample.cf2)
              (Sample.msgAt 7 "{}")).1.1 in
  @ConsumerMessagesLoop_iter Sample.runtime Sample.t0 [] Sample.t0 [] w
    (Sample.msgAt 7 "{}")
  = Done w.
Proof.
  intros w.
  assert (is_Some (inFlight (bridge w) !! coordinate (Sample.msgAt 7 "{}")))
    as Hdup by (vm_compute; eauto).
  destruct (redelivery_dropped (rt := Sample.runtime) Sample.t0 [] Sample.t0 []
              w (Sample.msgAt 7 "{}") Hdup) as (_ & Hdone & _).
  apply Hdone. vm_compute. reflexivity.
Defined.

(** ** The in-flight map *)

Section Tracker.
Context {rt : Extern}.

Lemma deref_lookup h c ctx : h !! c = Some ctx → deref h c = ctx.
Proof. intros Hc. unfold deref. by rewrite (lookup_total_correct _ _ _ Hc). Qed.

Lemma deref_markComplete w ctx c :
  deref (heap (markComplete w ctx)) c
  = if decide (c = ctx ∧ is_Some (heap w !! ctx))
    then set_complete true (deref (heap w) c) else deref (heap w) c.
Proof.
  unfold markComplete, deref; simpl. rewrite lookup_total_alter.
  destruct (decide (ctx = c)) as [->|Hne].
  - destruct (heap w !! c) as [x|] eqn:Hc; simpl.
    + rewrite decide_True by eauto. by rewrite (lookup_total_correct _ _ _ Hc).
    + rewrite decide_False by (intros [_ [? [=]]]).
      by rewrite lookup_total_alt, Hc.
  - rewrite decide_False; [done|]. by intros [-> _].
Qed.

Lemma offsetOf_markComplete w ctx c :
  offsetOf (markComplete w ctx) c = offsetOf w c.
Proof. unfold offsetOf. rewrite deref_markComplete. by case_decide. Qed.

Lemma partitionOf_markComplete w ctx c :
  partitionOf (markComplete w ctx) c = partitionOf w c.
Proof. unfold partitionOf. rewrite deref_markComplete. by case_decide. Qed.

Lemma reqOffset_markComplete w ctx c :
  reqOffset (deref (heap (markComplete w ctx)) c) = reqOffset (deref (heap w) c).
Proof. rewrite deref_markComplete. by case_decide. Qed.

Lemma saramaMsg_markComplete w ctx c :
  saramaMsg (deref (heap (markComplete w ctx)) c) = saramaMsg (deref (heap w) c).
Proof. rewrite deref_markComplete. by case_decide. Qed.

Lemma isComplete_markComplete w ctx c :
  isComplete (markComplete w ctx) c
  ↔ (c = ctx ∧ is_Some (heap w !! ctx)) ∨ isComplete w c.
Proof.
  unfold isComplete. rewrite deref_markComplete.
  destruct (decide (c = ctx ∧ is_Some (heap w !! ctx))); simpl; tauto.
Qed.

Lemma tracked_markComplete w ctx : tracked w → tracked (markComplete w ctx).
Proof.
  intros [Hmap Hheap]. split; simpl.
  - intros k c Hk. destruct (Hmap _ _ Hk) as (x & Hx & Hoff).
    rewrite lookup_alter. case_decide; subst; rewrite Hx; simpl; eauto.
  - intros c x. rewrite lookup_alter. case_decide; [subst|by apply Hheap].
    destruct (heap w !! c) as [y|] eqn:Hy; [|done]. intros [= <-].
    simpl. by apply Hheap in Hy.
Qed.

Lemma StronglySorted_weaken {A} (R R' : relation A) l :
  (∀ a b, R a b → R' a b) → StronglySorted R l → StronglySorted R' l.
Proof.
  intros HR. induction 1 as [|x l Hl IH Hx]; constructor; [done|].
  eapply Forall_impl; [exact Hx|]. intros y. apply HR.
Qed.

(** [Less] is a strict weak order. *)
Lemma Less_irrefl h a : Less h a a = false.
Proof. unfold Less. apply Z.ltb_irrefl. Qed.

Lemma Less_trans h a b c :
  Less h a b = true → Less h b c = true → Less h a c = true.
Proof. unfold Less. rewrite !Z.ltb_lt. lia. Qed.

Lemma Less_negtrans h a b c :
  Less h a b = false → Less h b c = false → Less h a c = false.
Proof. unfold Less. rewrite !Z.ltb_ge. lia. Qed.

(** The first loop and the sort together: the in-flight contexts of the
    partition, each once, by ascending offset. *)
Lemma elem_of_completeInParition seed w ctx c :
  c ∈ completeInParition seed w ctx
  ↔ isInFlight w c ∧ partitionOf w c = partitionOf w ctx.
Proof.
  unfold completeInParition. rewrite sort_Sort_perm, list_elem_of_filter.
  rewrite map_range_perm, list_elem_of_fmap. unfold isInFlight, partitionOf.
  split.
  - intros [Hp [[k c'] [-> Hkc]]]. apply elem_of_map_to_list in Hkc. eauto.
  - intros [[k Hk] Hp]. split; [done|]. exists (k, c).
    split; [done|]. by apply elem_of_map_to_list.
Qed.

Lemma completeInParition_sorted seed w ctx :
  StronglySorted (λ a b, offsetOf w a ≤ offsetOf w b)
                 (completeInParition seed w ctx).
Proof.
  unfold completeInParition.
  eapply StronglySorted_weaken;
    [|apply sort_Sort_sorted;
      eauto using Less_irrefl, Less_trans, Less_negtrans].
  intros a b. unfold Less, offsetOf. rewrite Z.ltb_ge. lia.
Qed.

Lemma NoDup_inFlight_values w :
  tracked w → NoDup (map_to_list (inFlight (bridge w))).*2.
Proof.
  intros [Hmap _]. apply NoDup_fmap_2_strong; [|apply NoDup_map_to_list].
  intros [k1 c1] [k2 c2] H1%elem_of_map_to_list H2%elem_of_map_to_list; simpl.
  intros <-. destruct (Hmap _ _ H1) as (x1 & Hx1 & <-).
  destruct (Hmap _ _ H2) as (x2 & Hx2 & <-). by simplify_eq.
Qed.

Lemma completeInParition_NoDup seed w ctx :
  tracked w → NoDup (completeInParition seed w ctx).
Proof.
  intros Hw. unfold completeInParition. rewrite sort_Sort_perm.
  apply NoDup_filter. rewrite map_range_perm. by apply NoDup_inFlight_values.
Qed.

(** The second loop takes the longest prefix of complete contexts. *)
Lemma completePrefix_split h l :
  ∃ rest, l = completePrefix h l ++ rest
    ∧ Forall (λ c, complete (deref h c) = true) (completePrefix h l)
    ∧ (∀ c, head rest = Some c → complete (deref h c) = false).
Proof.
  induction l as [|c l (rest & Hl & Hall & Hhd)]; simpl.
  - exists []. split_and!; [done|constructor|done].
  - destruct (complete (deref h c)) eqn:Hc.
    + exists rest. split_and!; [simpl; congruence|by constructor|done].
    + exists (c :: l). split_and!; [done|constructor|].
      by intros ? [= <-].
Qed.

Lemma readyToAck_split seed w ctx :
  ∃ rest, completeInParition seed w ctx = readyToAck seed w ctx ++ rest
    ∧ Forall (isComplete w) (readyToAck seed w ctx)
    ∧ (∀ c, head rest = Some c → ¬ isComplete w c).
Proof.
  destruct (completePrefix_split (heap w) (completeInParition seed w ctx))
    as (rest & Hl & Hall & Hhd).
  exists rest. split_and!; [done|done|].
  intros c Hc. unfold isComplete. by rewrite (Hhd _ Hc).
Qed.

Lemma readyToAck_inFlight seed w ctx c :
  c ∈ readyToAck seed w ctx →
  isInFlight w c ∧ partitionOf w c = partitionOf w ctx ∧ isComplete w c.
Proof.
  intros Hc. destruct (readyToAck_split seed w ctx) as (rest & Hl & Hall & _).
  rewrite Forall_forall in Hall.
  assert (c ∈ completeInParition seed w ctx) as Hin
    by (rewrite Hl; set_solver).
  apply elem_of_completeInParition in Hin as [??]. auto.
Qed.

(** The third loop. *)
Lemma lookup_foldl_delete (f : loc → string) (l : list loc)
    (m : gmap string loc) (k : string) :
  foldl (λ m c, delete (f c) m) m l !! k
  = if decide (k ∈ f <$> l) then None else m !! k.
Proof.
  revert m. induction l as [|c l IH]; intros m.
  - case_decide as Hk; [|done]. by apply elem_of_nil in Hk.
  - cbn [foldl]. rewrite IH, fmap_cons.
    destruct (decide (k = f c)) as [->|Hne].
    + rewrite lookup_delete_eq.
      rewrite (decide_True (P := f c ∈ f c :: _)) by left.
      by destruct (decide _).
    + rewrite lookup_delete_ne by done.
      destruct (decide (k ∈ f <$> l)) as [Hin|Hin].
      * by rewrite decide_True by (by right).
      * rewrite decide_False; [done|]. by intros [?|?]%elem_of_cons.
Qed.

Lemma setInFlightComplete_unfold seed w ctx :
  let w1 := markComplete w ctx in
  let w' := setInFlightComplete seed w ctx in
  heap w' = heap w1
  ∧ conf (bridge w') = conf (bridge w)
  ∧ inFlight (bridge w')
    = foldl (λ m c, delete (reqOffset (deref (heap w1) c)) m)
            (inFlight (bridge w)) (readyToAck seed w1 ctx)
  ∧ history w'
    = match last (readyToAck seed w1 ctx) with
      | Some highest => ActMark (saramaMsg (deref (heap w) highest)) :: history w
      | None => history w
      end.
Proof.
  intros w1 w'. unfold w', setInFlightComplete. fold w1.
  destruct (last (readyToAck seed w1 ctx)) as [hi|] eqn:Hlast.
  - split_and!; [done..|]. cbn [history record withInFlight].
    do 2 f_equal. apply saramaMsg_markComplete.
  - apply last_None in Hlast. by rewrite Hlast.
Qed.

(** The entries left in the map are those whose context was not ready. *)
Lemma setInFlightComplete_inFlight seed w ctx k c :
  tracked w →
  inFlight (bridge (setInFlightComplete seed w ctx)) !! k = Some c
  ↔ inFlight (bridge w) !! k = Some c
    ∧ c ∉ readyToAck seed (markComplete w ctx) ctx.
Proof.
  intros Hw. pose proof (tracked_markComplete _ ctx Hw) as [Hmap _].
  destruct (setInFlightComplete_unfold seed w ctx) as (_ & _ & -> & _).
  rewrite lookup_foldl_delete. set (w1 := markComplete w ctx) in *.
  assert (∀ c', c' ∈ readyToAck seed w1 ctx →
    inFlight (bridge w) !! reqOffset (deref (heap w1) c') = Some c') as Hkey.
  { intros c' [[k' Hk'] _]%readyToAck_inFlight.
    destruct (Hmap _ _ Hk') as (x & Hx & <-). by rewrite (deref_lookup _ _ _ Hx). }
  case_decide as Hk.
  - split; [done|]. intros [Hkc Hc].
    apply list_elem_of_fmap in Hk as (c' & -> & Hc').
    pose proof (Hkey _ Hc') as Hkc'. by simplify_eq.
  - split; [|by intros []]. intros Hkc. split; [done|]. intros Hc.
    apply Hk, list_elem_of_fmap. exists c. split; [|done].
    apply Hkey in Hc. destruct (Hmap _ _ Hkc) as (x & Hx & <-).
    by rewrite (deref_lookup _ _ _ Hx).
Qed.

Lemma setInFlightComplete_subseteq seed w ctx :
  inFlight (bridge (setInFlightComplete seed w ctx)) ⊆ inFlight (bridge w).
Proof.
  destruct (setInFlightComplete_unfold seed w ctx) as (_ & _ & -> & _).
  apply map_subseteq_spec. intros k c. rewrite lookup_foldl_delete.
  by case_decide.
Qed.

Lemma tracked_setInFlightComplete seed w ctx :
  tracked w → tracked (setInFlightComplete seed w ctx).
Proof.
  intros Hw. pose proof (tracked_markComplete _ ctx Hw) as [Hmap Hheap].
  destruct (setInFlightComplete_unfold seed w ctx) as (Hh & _).
  split; rewrite Hh; [|done].
  intros k c Hk. apply (setInFlightComplete_inFlight _ _ _ _ _ Hw) in Hk as [Hk _].
  by apply Hmap.
Qed.

(** The contexts of the partition that stay in the map are at or above
    the offset that is marked. *)
Lemma readyToAck_last_highest seed w ctx highest c :
  last (readyToAck seed w ctx) = Some highest →
  c ∈ completeInParition seed w ctx →
  if decide (c ∈ readyToAck seed w ctx)
  then offsetOf w c ≤ offsetOf w highest
  else offsetOf w highest ≤ offsetOf w c.
Proof.
  intros Hlast Hc.
  destruct (readyToAck_split seed w ctx) as (rest & Hl & _ & _).
  pose proof (completeInParition_sorted seed w ctx) as Hsorted.
  rewrite Hl in Hsorted, Hc. apply last_Some in Hlast as [ready' Hready].
  rewrite Hready in *. case_decide as Hin.
  - apply elem_of_app in Hin as [Hin| ->%list_elem_of_singleton]; [|done].
    apply StronglySorted_app_1_l in Hsorted.
    eapply (StronglySorted_app_1_elem_of _ _ _ _ _ Hsorted); [done|].
    by apply list_elem_of_singleton.
  - apply elem_of_app in Hc as [Hc|Hc]; [done|].
    eapply (StronglySorted_app_1_elem_of _ _ _ _ _ Hsorted); [|done].
    apply elem_of_app. right. by apply list_elem_of_singleton.
Qed.

(** When a context of the partition with an offset below all the others
    is not complete, there is nothing to acknowledge. *)
Lemma readyToAck_lowest_incomplete seed w ctx lowest :
  lowest ∈ completeInParition seed w ctx →
  ¬ isComplete w lowest →
  (∀ c, c ∈ completeInParition seed w ctx → c ≠ lowest →
        offsetOf w lowest < offsetOf w c) →
  readyToAck seed w ctx = [].
Proof.
  intros Hin Hinc Hlow.
  pose proof (completeInParition_sorted seed w ctx) as Hsorted.
  unfold readyToAck.
  destruct (completeInParition seed w ctx) as [|c l] eqn:Hl; [done|].
  destruct (decide (c = lowest)) as [->|Hne].
  - simpl. unfold isComplete in Hinc. by destruct (complete _).
  - apply elem_of_cons in Hin as [?|Hin]; [done|].
    apply StronglySorted_cons in Hsorted as [Hc _].
    rewrite Forall_forall in Hc. specialize (Hc _ Hin).
    specialize (Hlow c (list_elem_of_here _ _) Hne). lia.
Qed.

(** When all the contexts of the partition are complete, all are ready. *)
Lemma readyToAck_all_complete seed w ctx :
  (∀ c, c ∈ completeInParition seed w ctx → isComplete w c) →
  readyToAck seed w ctx = completeInParition seed w ctx.
Proof.
  intros Hall. destruct (readyToAck_split seed w ctx) as (rest & Hl & _ & Hhd).
  destruct rest as [|c rest]; [by rewrite app_nil_r in Hl|].
  destruct (Hhd c eq_refl). apply Hall. rewrite Hl. set_solver.
Qed.

End Tracker.

(** ** Invariants of a run *)

Lemma acknowledged_mono h h' k :
  h ⊆ h' → acknowledged h k → acknowledged h' k.
Proof. intros Hh [Hack (pm & Hpm & Henq)]. split; [|exists pm]; set_solver. Qed.

Lemma quiet_lookup w w' c ctx' :
  quiet w w' → heap w' !! c = Some ctx' →
  ∃ ctx, heap w !! c = Some ctx ∧ sameCore ctx ctx'.
Proof.
  intros (_ & Hheap & _) Hc. specialize (Hheap c). rewrite Hc in Hheap.
  inversion Hheap; eauto.
Qed.

Lemma quiet_lookup_inv w w' c ctx :
  quiet w w' → heap w !! c = Some ctx →
  ∃ ctx', heap w' !! c = Some ctx' ∧ sameCore ctx ctx'.
Proof.
  intros (_ & Hheap & _) Hc. specialize (Hheap c). rewrite Hc in Hheap.
  inversion Hheap; eauto.
Qed.

Lemma quiet_Inv w w' : quiet w w' → Inv w → Inv w'.
Proof.
  intros Hq [[Hmap Hkey] Hdisp Hadm Hcomp Hpend Hmark].
  pose proof Hq as (Hb & Hheap & a & Ha & Hhist).
  assert (history w ⊆ history w') as Hsub by (rewrite Hhist; set_solver).
  split.
  - split; rewrite ?Hb.
    + intros k c Hk. destruct (Hmap _ _ Hk) as (ctx & Hc & <-).
      destruct (quiet_lookup_inv _ _ _ _ Hq Hc) as (ctx' & ? & _ & Hoff & _).
      exists ctx'. by rewrite <-Hoff.
    + intros c ctx' Hc.
      destruct (quiet_lookup _ _ _ _ Hq Hc) as (ctx & ? & Hmsg & Hoff & _).
      rewrite <-Hmsg, <-Hoff. eauto.
  - intros c. rewrite Hhist. intros [<-|Hc]%elem_of_cons.
    + destruct Ha as [ctx Hc].
      destruct (quiet_lookup_inv _ _ _ _ Hq Hc) as (ctx' & ? & _). eauto.
    + destruct (Hdisp _ Hc) as [ctx Hctx].
      destruct (quiet_lookup_inv _ _ _ _ Hq Hctx) as (ctx' & ? & _). eauto.
  - intros c ctx' Hc.
    destruct (quiet_lookup _ _ _ _ Hq Hc) as (ctx & ? & Hmsg & _).
    rewrite <-Hmsg. apply Hsub. eauto.
  - rewrite Hb. intros k c ctx' Hk Hc Hdone.
    destruct (quiet_lookup _ _ _ _ Hq Hc) as (ctx & ? & _ & _ & Hcc).
    eapply acknowledged_mono; [done|]. eapply Hcomp; [done..|congruence].
  - rewrite Hb, Hhist. intros m [<-|Hm]%elem_of_cons; [done|].
    destruct (Hpend _ Hm) as [(c & ctx & Hk & Hc & <-)|Hack].
    + left. destruct (quiet_lookup_inv _ _ _ _ Hq Hc) as (ctx' & ? & Hmsg & _).
      exists c, ctx'. by rewrite <-Hmsg.
    + right. eapply acknowledged_mono; [|done]. set_solver.
  - rewrite Hhist. intros m [<-|Hm]%elem_of_cons; [done|].
    apply elem_of_cons. right. by apply Hmark.
Qed.

Lemma quietAction_not_mark w a m : quietAction w a → a ≠ ActMark m.
Proof. by destruct a. Qed.

Lemma quiet_aboveMarks w w' : quiet w w' → aboveMarks w → aboveMarks w'.
Proof.
  intros Hq Habove k c ctx' m Hk Hc Hm Hp.
  pose proof Hq as (Hb & _ & a & Ha & Hhist).
  destruct (quiet_lookup _ _ _ _ Hq Hc) as (ctx & Hctx & Hmsg & _).
  rewrite Hb in Hk. rewrite Hhist in Hm. rewrite <-Hmsg in *.
  apply elem_of_cons in Hm as [<-|Hm]; [done|]. by eapply Habove.
Qed.

Lemma marksAscend_cons a h :
  (∀ m, a ≠ ActMark m) → marksAscend h → marksAscend (a :: h).
Proof.
  intros Ha Hh [|a' later] m2 earlier m1 Heq; simplify_eq/=.
  - by destruct (Ha m2).
  - by eapply Hh.
Qed.

Lemma noPrematureCommit_cons a h :
  (∀ m, a ≠ ActMark m) → noPrematureCommit h → noPrematureCommit (a :: h).
Proof.
  intros Ha Hh [|a' later] m earlier m' Heq; simplify_eq/=.
  - by destruct (Ha m).
  - by eapply Hh.
Qed.

Lemma marksAdmitted_cons a h :
  (∀ m, a ≠ ActMark m) → marksAdmitted h → marksAdmitted (a :: h).
Proof.
  intros Ha Hh [|a' later] m earlier Heq; simplify_eq/=.
  - by destruct (Ha m).
  - by eapply Hh.
Qed.

Lemma inOrder_suffix new h : inOrder (new ++ h) → inOrder h.
Proof.
  intros Hh later m2 earlier m1 ->. apply (Hh (new ++ later)).
  by rewrite <-app_assoc.
Qed.

Lemma oneTopic_suffix t new h : oneTopic t (new ++ h) → oneTopic t h.
Proof. intros Hh m Hm. apply Hh. set_solver. Qed.

Section Steps.
Context {rt : Extern}.

Lemma Reply_quiet now rnd w c m :
  is_Some (heap w !! c) → quiet w (Reply now rnd w c m).
Proof.
  intros [ctx Hc]. unfold Reply. rewrite (deref_lookup _ _ _ Hc).
  split_and!; simpl; [done| |eexists; split; [|done]; done].
  intros c'. destruct (decide (c' = c)) as [->|Hne].
  - rewrite lookup_insert_eq, Hc. by constructor.
  - rewrite lookup_insert_ne by done. destruct (heap w !! c'); by constructor.
Qed.

Lemma OnMessage_quiet w c : is_Some (heap w !! c) → quiet w (OnMessage w c).
Proof.
  intros Hc. split_and!; simpl; [done| |by exists (ActDispatch c)].
  intros c'. destruct (heap w !! c'); by constructor.
Qed.

(** A context returned by [addInflightMsg] was put into the map. *)
Lemma addInflightMsg_admits now rnd w msg w1 c err :
  addInflightMsg now rnd w msg = (w1, Some c, err) →
  ∃ ctx,
    inFlight (bridge w) !! coordinate msg = None
    ∧ heap w !! c = None
    ∧ bridge w1 = setInFlight (<[coordinate msg := c]> (inFlight (bridge w)))
                              (bridge w)
    ∧ heap w1 = <[c := ctx]> (heap w)
    ∧ history w1 = ActAdmit msg :: history w
    ∧ reqOffset ctx = coordinate msg
    ∧ saramaMsg ctx = msg
    ∧ timeReceived ctx = now
    ∧ complete ctx = false.
Proof.
  intros Hadd.
  destruct (inFlight (bridge w) !! coordinate msg) as [c'|] eqn:Hk.
  { rewrite addInflightMsg_dup in Hadd by eauto. done. }
  destruct (addInflightMsg_novel now rnd w msg Hk)
    as (ctx & err' & Hadd' & Hfresh & Hoff & Hmsg & Htime & Hcomp & _).
  rewrite Hadd in Hadd'. simplify_eq/=. exists ctx. by split_and!.
Qed.

Lemma addInflightMsg_Inv now rnd w msg w1 c err :
  addInflightMsg now rnd w msg = (w1, Some c, err) → Inv w → Inv w1.
Proof.
  intros (ctx & Hnovel & Hfresh & Hb & Hh & Hhist & Hoff & Hmsg & _ & Hinc)
         %addInflightMsg_admits [[Hmap Hkey] Hdisp Hadm Hcomp Hpend Hmark].
  assert (history w ⊆ history w1) as Hsub by (rewrite Hhist; set_solver).
  assert (∀ c' x, heap w !! c' = Some x → heap w1 !! c' = Some x) as Hold.
  { intros c' x Hc'. rewrite Hh, lookup_insert_ne; [done|]. congruence. }
  split.
  - split; rewrite ?Hb, ?Hh; simpl.
    + intros k c'. rewrite lookup_insert. case_decide as Hkk.
      * intros [= <-]. subst k. rewrite lookup_insert_eq. eauto.
      * intros Hk. destruct (Hmap _ _ Hk) as (x & Hx & <-).
        exists x. rewrite <-Hh. eauto.
    + intros c' x. rewrite lookup_insert. case_decide.
      * intros [= <-]. congruence.
      * apply Hkey.
  - intros c' Hc'. rewrite Hhist in Hc'.
    apply elem_of_cons in Hc' as [[=]|Hc'].
    destruct (Hdisp _ Hc') as [x Hx]. eauto.
  - intros c' x. rewrite Hh, Hhist, lookup_insert. case_decide.
    + intros [= <-]. rewrite Hmsg. left.
    + intros Hx. right. eauto.
  - rewrite Hb, Hh; simpl. intros k c' x.
    rewrite !lookup_insert. case_decide as Hkk.
    + intros [= <-]. rewrite decide_True by done. intros [= <-]. congruence.
    + intros Hk. case_decide as Hcc.
      * subst c'. destruct (Hmap _ _ Hk) as (? & ? & _). congruence.
      * intros Hx Hdone. eapply acknowledged_mono; [done|]. eauto.
  - rewrite Hb, Hh, Hhist; simpl. intros m [[= <-]|Hm]%elem_of_cons.
    + left. exists c, ctx. by rewrite !lookup_insert_eq.
    + destruct (Hpend _ Hm) as [(c' & x & Hk & Hx & <-)|Hack].
      * left. exists c', x. rewrite lookup_insert_ne by congruence.
        rewrite <-Hh. eauto.
      * right. eapply acknowledged_mono; [|done]. set_solver.
  - rewrite Hhist. intros m [[=]|Hm]%elem_of_cons.
    apply elem_of_cons. right. by apply Hmark.
Qed.

Lemma addInflightMsg_aboveMarks now rnd w msg w1 c err :
  addInflightMsg now rnd w msg = (w1, Some c, err) →
  Inv w → inOrder (history w1) → aboveMarks w → aboveMarks w1.
Proof.
  intros (ctx & Hnovel & Hfresh & Hb & Hh & Hhist & Hoff & Hmsg & _)
         %addInflightMsg_admits Hinv Hord Habove k c' x m.
  rewrite Hb, Hh, Hhist; simpl. rewrite !lookup_insert.
  destruct (decide (coordinate msg = k)) as [<-|Hkk].
  - intros [= <-]. rewrite decide_True by done.
    intros [= <-] [[=]|Hm]%elem_of_cons Hp. rewrite Hmsg in *.
    apply (Hord [] msg (history w) m); [done| |done].
    by apply (inv_marked _ Hinv).
  - intros Hk. destruct (decide (c = c')) as [<-|Hcc].
    + destruct (inv_tracked _ Hinv) as [Hmap _].
      destruct (Hmap _ _ Hk) as (? & ? & _). congruence.
    + intros Hx [[=]|Hm]%elem_of_cons Hp. by eapply Habove.
Qed.

End Steps.

Lemma coordinate_ext m m' :
  Topic m = Topic m' → Partition m = Partition m' → Offset m = Offset m' →
  coordinate m = coordinate m'.
Proof. unfold coordinate. by intros -> -> ->. Qed.

Lemma tracked_lookup w k c :
  tracked w → inFlight (bridge w) !! k = Some c →
  ∃ x, heap w !! c = Some x ∧ reqOffset x = k
       ∧ k = coordinate (saramaMsg x).
Proof.
  intros [Hmap Hkey] Hk. destruct (Hmap _ _ Hk) as (x & Hx & Hoff).
  exists x. split_and!; [done..|]. rewrite <-Hoff. eauto.
Qed.

Lemma tracked_inj w k1 k2 c :
  tracked w → inFlight (bridge w) !! k1 = Some c →
  inFlight (bridge w) !! k2 = Some c → k1 = k2.
Proof.
  intros Hw (x1 & Hx1 & <- & _)%tracked_lookup (x2 & Hx2 & <- & _)%tracked_lookup;
    [|done..]. congruence.
Qed.

(** ** An acknowledgement *)

Section Completion.
Context {rt : Extern}.
Context (seed : nat) (w : World) (k : string) (ctx : loc) (pm : ProducerMessage).
Hypothesis Hinv : Inv w.
Hypothesis Hctx : inFlight (bridge w) !! k = Some ctx.
Hypothesis Hpm : pmMetadata pm = MetaString k.
Hypothesis Henq : ActEnqueue pm ∈ history w.

Let wa := record (ActAck k) w.
Let w1 := markComplete wa ctx.
Let ready := readyToAck seed w1 ctx.
Let w' := setInFlightComplete seed wa ctx.

Lemma completion_history :
  history w'
  = match last ready with
    | Some highest =>
      ActMark (saramaMsg (deref (heap w) highest)) :: ActAck k :: history w
    | None => ActAck k :: history w
    end.
Proof.
  destruct (setInFlightComplete_unfold seed wa ctx) as (_ & _ & _ & Hh).
  exact Hh.
Qed.

Lemma completion_history_sub : history w ⊆ history w'.
Proof. rewrite completion_history. destruct (last ready); set_solver. Qed.

Lemma completion_lookup c x' :
  heap w' !! c = Some x' →
  ∃ x, heap w !! c = Some x ∧ saramaMsg x' = saramaMsg x
       ∧ reqOffset x' = reqOffset x
       ∧ (complete x' = true → c = ctx ∨ complete x = true).
Proof.
  destruct (setInFlightComplete_unfold seed wa ctx) as (Hh & _).
  unfold w'. rewrite Hh. simpl. rewrite lookup_alter.
  case_decide as Hc; [subst c|by eauto 10].
  destruct (heap w !! ctx) as [x|]; [|done]. intros [= <-]. eauto 10.
Qed.

Lemma completion_lookup_inv c x :
  heap w !! c = Some x →
  ∃ x', heap w' !! c = Some x' ∧ saramaMsg x' = saramaMsg x.
Proof.
  intros Hx. destruct (setInFlightComplete_unfold seed wa ctx) as (Hh & _).
  unfold w'. rewrite Hh. simpl. rewrite lookup_alter.
  case_decide; [subst c|by eauto]. rewrite Hx. simpl. eauto.
Qed.

Lemma completion_acknowledged k' c :
  inFlight (bridge w) !! k' = Some c → isComplete w1 c →
  acknowledged (ActAck k :: history w) k'.
Proof.
  intros Hk' [[-> _]|Hdone]%isComplete_markComplete.
  - rewrite (tracked_inj _ _ _ _ (inv_tracked _ Hinv) Hk' Hctx).
    split; [left|]. exists pm. split; [done|by right].
  - destruct (tracked_lookup _ _ _ (inv_tracked _ Hinv) Hk') as (x & Hx & _).
    unfold isComplete in Hdone. simpl in Hdone.
    rewrite (deref_lookup _ _ _ Hx) in Hdone.
    eapply acknowledged_mono; [|by eapply (inv_complete _ Hinv)]. set_solver.
Qed.

Lemma completion_ready c :
  c ∈ ready →
  ∃ k' x, inFlight (bridge w) !! k' = Some c ∧ heap w !! c = Some x
          ∧ k' = coordinate (saramaMsg x)
          ∧ Partition (saramaMsg x) = partitionOf w1 ctx
          ∧ isComplete w1 c.
Proof.
  intros ([k' Hk'] & Hp & Hdone)%readyToAck_inFlight.
  destruct (tracked_lookup _ _ _ (inv_tracked _ Hinv) Hk') as (x & Hx & _ & Hk).
  exists k', x. split_and!; [done..| |done].
  rewrite <-Hp. unfold w1. rewrite partitionOf_markComplete.
  unfold partitionOf. simpl. by rewrite (deref_lookup _ _ _ Hx).
Qed.

(** A context of the partition that stays in the map is at or above the
    offset that is marked. *)
Lemma completion_rest highest xh k' c x :
  last ready = Some highest → heap w !! highest = Some xh →
  inFlight (bridge w) !! k' = Some c → heap w !! c = Some x →
  Partition (saramaMsg x) = Partition (saramaMsg xh) →
  c ∉ ready →
  Offset (saramaMsg xh) ≤ Offset (saramaMsg x).
Proof.
  intros Hlast Hxh Hk' Hx Hp Hc.
  assert (highest ∈ ready) as Hhi.
  { apply last_Some in Hlast as [l ->]. set_solver. }
  destruct (completion_ready _ Hhi) as (kh & xh' & _ & ? & _ & Hph & _).
  simplify_eq.
  assert (c ∈ completeInParition seed w1 ctx) as Hin.
  { apply elem_of_completeInParition. split; [by exists k'|].
    rewrite <-Hph, <-Hp. unfold w1. rewrite partitionOf_markComplete.
    unfold partitionOf. simpl. by rewrite (deref_lookup _ _ _ Hx). }
  pose proof (readyToAck_last_highest seed w1 ctx highest c Hlast Hin) as Hle.
  fold ready in Hle. rewrite decide_False in Hle by done.
  unfold w1 in Hle. rewrite !offsetOf_markComplete in Hle.
  unfold offsetOf in Hle. simpl in Hle.
  by rewrite (deref_lookup _ _ _ Hx), (deref_lookup _ _ _ Hxh) in Hle.
Qed.

Lemma completion_Inv : Inv w'.
Proof.
  pose proof completion_history_sub as Hsub.
  assert (tracked wa) as Hwa by apply (inv_tracked _ Hinv).
  split.
  - by apply tracked_setInFlightComplete.
  - intros c Hc. assert (ActDispatch c ∈ history w) as Hc'.
    { rewrite completion_history in Hc. destruct (last ready); set_solver. }
    destruct (inv_dispatched _ Hinv _ Hc') as [x Hx].
    destruct (completion_lookup_inv _ _ Hx) as (x' & ? & _). eauto.
  - intros c x' (x & Hx & -> & _)%completion_lookup.
    apply Hsub. by eapply (inv_admitted _ Hinv).
  - intros k' c x' [Hk' Hc]%(setInFlightComplete_inFlight _ _ _ _ _ Hwa) Hx' Hdone.
    destruct (completion_lookup _ _ Hx') as (x & Hx & _ & _ & Hcases).
    eapply acknowledged_mono; [|apply (completion_acknowledged k' c Hk')].
    { rewrite completion_history. destruct (last ready); set_solver. }
    apply isComplete_markComplete. simpl.
    destruct (Hcases Hdone) as [->|Hx1]; [left; eauto|right].
    unfold isComplete. simpl. by rewrite (deref_lookup _ _ _ Hx).
  - intros m Hm. assert (ActAdmit m ∈ history w) as Hm'.
    { rewrite completion_history in Hm. destruct (last ready); set_solver. }
    destruct (inv_pending _ Hinv _ Hm') as [(c & x & Hk' & Hx & <-)|Hack];
      [|right; by eapply acknowledged_mono].
    destruct (decide (c ∈ ready)) as [Hc|Hc].
    + right. destruct (completion_ready _ Hc) as (_ & _ & _ & _ & _ & _ & Hdone).
      eapply acknowledged_mono; [|by apply (completion_acknowledged _ c)].
      rewrite completion_history. destruct (last ready); set_solver.
    + left. destruct (completion_lookup_inv _ _ Hx) as (x' & Hx' & Hmsg).
      exists c, x'. split_and!; [|done..].
      by apply (setInFlightComplete_inFlight _ _ _ _ _ Hwa).
  - intros m Hm. apply Hsub. rewrite completion_history in Hm.
    destruct (last ready) as [hi|] eqn:Hlast.
    + apply elem_of_cons in Hm as [[= ->]|Hm];
        [|apply (inv_marked _ Hinv); set_solver].
      assert (hi ∈ ready) as Hhi
        by (apply last_Some in Hlast as [l ->]; set_solver).
      destruct (completion_ready _ Hhi) as (_ & x & _ & Hx & _).
      rewrite (deref_lookup _ _ _ Hx). by eapply (inv_admitted _ Hinv).
    + apply (inv_marked _ Hinv). set_solver.
Qed.

Lemma completion_aboveMarks : aboveMarks w → aboveMarks w'.
Proof.
  assert (tracked wa) as Hwa by apply (inv_tracked _ Hinv).
  intros Habove k' c x' m.
  intros [Hk' Hc]%(setInFlightComplete_inFlight _ _ _ _ _ Hwa).
  intros (x & Hx & -> & _)%completion_lookup Hm Hp.
  rewrite completion_history in Hm.
  destruct (last ready) as [hi|] eqn:Hlast.
  - apply elem_of_cons in Hm as [[= ->]|Hm]; [|eapply Habove; set_solver].
    assert (hi ∈ ready) as Hhi
      by (apply last_Some in Hlast as [l ->]; set_solver).
    destruct (completion_ready _ Hhi) as (_ & xh & _ & Hxh & _).
    rewrite (deref_lookup _ _ _ Hxh) in *.
    by eapply (completion_rest hi xh k' c x).
  - eapply Habove; set_solver.
Qed.

Lemma completion_marksAscend :
  aboveMarks w → marksAscend (history w) → marksAscend (history w').
Proof.
  intros Habove Hasc. rewrite completion_history.
  assert (marksAscend (ActAck k :: history w)) as Hasc'
    by (by apply marksAscend_cons).
  destruct (last ready) as [hi|] eqn:Hlast; [|done].
  intros [|a later] m2 earlier m1 Heq; simplify_eq/=; [|by eapply Hasc'].
  intros Hm1 Hp.
  assert (hi ∈ ready) as Hhi
    by (apply last_Some in Hlast as [l ->]; set_solver).
  destruct (completion_ready _ Hhi) as (kh & xh & Hkh & Hxh & _).
  rewrite (deref_lookup _ _ _ Hxh) in *.
  eapply Habove; [done..|set_solver|done].
Qed.

Lemma completion_marksAdmitted :
  marksAdmitted (history w) → marksAdmitted (history w').
Proof.
  intros Hadm. rewrite completion_history.
  assert (marksAdmitted (ActAck k :: history w)) as Hadm'
    by (by apply marksAdmitted_cons).
  destruct (last ready) as [hi|] eqn:Hlast; [|done].
  intros [|a later] m earlier Heq; simplify_eq/=; [|by eapply Hadm'].
  assert (hi ∈ ready) as Hhi
    by (apply last_Some in Hlast as [l ->]; set_solver).
  destruct (completion_ready _ Hhi) as (_ & xh & _ & Hxh & _).
  rewrite (deref_lookup _ _ _ Hxh). right. by eapply (inv_admitted _ Hinv).
Qed.

Lemma completion_noPrematureCommit t :
  oneTopic t (history w) →
  noPrematureCommit (history w) → noPrematureCommit (history w').
Proof.
  intros Htopic Hnpc. rewrite completion_history.
  assert (noPrematureCommit (ActAck k :: history w)) as Hnpc'
    by (by apply noPrematureCommit_cons).
  destruct (last ready) as [hi|] eqn:Hlast; [|done].
  intros [|a later] m earlier m' Heq; simplify_eq/=; [|by eapply Hnpc'].
  intros Hm' Hp Hle.
  assert (ActAdmit m' ∈ history w) as Hadm by set_solver.
  assert (hi ∈ ready) as Hhi
    by (apply last_Some in Hlast as [l ->]; set_solver).
  destruct (completion_ready _ Hhi) as (kh & xh & Hkh & Hxh & -> & _).
  rewrite (deref_lookup _ _ _ Hxh) in *.
  destruct (inv_pending _ Hinv _ Hadm) as [(c & x & Hk' & Hx & <-)|Hack];
    [|eapply acknowledged_mono; [|done]; set_solver].
  destruct (decide (c ∈ ready)) as [Hc|Hc].
  { destruct (completion_ready _ Hc) as (_ & _ & _ & _ & _ & _ & Hdone).
    by apply (completion_acknowledged _ c). }
  pose proof (completion_rest hi xh _ c x Hlast Hxh Hk' Hx Hp Hc) as Hge.
  assert (coordinate (saramaMsg x) = coordinate (saramaMsg xh)) as Hco.
  { apply coordinate_ext; [|done|lia].
    rewrite (Htopic (saramaMsg x)) by done.
    symmetry. apply Htopic. by eapply (inv_admitted _ Hinv). }
  rewrite Hco in Hk'. by simplify_eq.
Qed.

End Completion.

(** ** Runs *)

Section Runs.
Context {rt : Extern}.

Lemma Good_start t cf : Good t (start cf).
Proof.
  assert (∀ k : string, inFlight (bridge (start cf)) !! k = None) as Hmap
    by (intros k; apply lookup_empty).
  assert (∀ c : loc, heap (start cf) !! c = None) as Hheap
    by (intros c; apply lookup_empty).
  assert (∀ a, a ∉ history (start cf)) as Hhist
    by (intros a; apply not_elem_of_nil).
  split_and!.
  - split.
    + split; [intros k c|intros c x]; by rewrite ?Hmap, ?Hheap.
    + intros c Hc. by destruct (Hhist _ Hc).
    + intros c x. by rewrite Hheap.
    + intros k c x. by rewrite Hmap.
    + intros m Hm. by destruct (Hhist _ Hm).
    + intros m Hm. by destruct (Hhist _ Hm).
  - by intros [|??] ?? [=].
  - intros _. split.
    + intros k c x m. by rewrite Hmap.
    + by intros [|??] ??? [=].
  - intros _. by intros [|??] ??? [=].
Qed.

Lemma Good_quiet t w w' : quiet w w' → Good t w → Good t w'.
Proof.
  intros Hq (Hinv & Hadm & Hord & Htopic).
  pose proof Hq as (_ & _ & a & Ha & Hhist).
  split_and!; [by eapply quiet_Inv| | |]; rewrite Hhist.
  - apply marksAdmitted_cons; [|done].
    intros m. by eapply quietAction_not_mark.
  - intros [Habove Hasc]%(inOrder_suffix [a])%Hord. rewrite <-Hhist. split.
    + by eapply quiet_aboveMarks.
    + rewrite Hhist. apply marksAscend_cons; [|done].
      intros m. by eapply quietAction_not_mark.
  - intros Hnpc%(oneTopic_suffix _ [a])%Htopic.
    apply noPrematureCommit_cons; [|done].
    intros m. by eapply quietAction_not_mark.
Qed.

Lemma Good_admit t now rnd w msg w1 c err :
  addInflightMsg now rnd w msg = (w1, Some c, err) → Good t w → Good t w1.
Proof.
  intros Hadd (Hinv & Hadm & Hord & Htopic).
  pose proof (addInflightMsg_admits _ _ _ _ _ _ _ Hadd)
    as (_ & _ & _ & _ & _ & Hhist & _).
  split_and!; [by eapply addInflightMsg_Inv| | |].
  - rewrite Hhist. by apply marksAdmitted_cons.
  - intros Hord1. pose proof Hord1 as Hord0. rewrite Hhist in Hord0.
    apply (inOrder_suffix [_]) in Hord0. destruct (Hord Hord0) as [Habove Hasc].
    split; [by eapply addInflightMsg_aboveMarks|].
    rewrite Hhist. by apply marksAscend_cons.
  - rewrite Hhist. intros Hnpc%(oneTopic_suffix _ [_])%Htopic.
    by apply noPrematureCommit_cons.
Qed.

Lemma Good_complete t seed w k ctx pm :
  inFlight (bridge w) !! k = Some ctx →
  pmMetadata pm = MetaString k → ActEnqueue pm ∈ history w →
  Good t w → Good t (setInFlightComplete seed (record (ActAck k) w) ctx).
Proof.
  intros Hk Hpm Henq (Hinv & Hadm & Hord & Htopic).
  pose proof (completion_history seed w k ctx) as Hhist.
  assert (∃ new, history (setInFlightComplete seed (record (ActAck k) w) ctx)
                 = new ++ history w) as [new Hnew].
  { rewrite Hhist. destruct (last _); [by eexists [_; _]|by eexists [_]]. }
  split_and!; [by eapply completion_Inv| | |].
  - by eapply completion_marksAdmitted.
  - rewrite Hnew. intros [Habove Hasc]%inOrder_suffix%Hord. rewrite <-Hnew.
    split; [by eapply completion_aboveMarks|by eapply completion_marksAscend].
  - rewrite Hnew. intros Ht. pose proof (oneTopic_suffix _ _ _ Ht) as Ht0.
    rewrite <-Hnew. eapply completion_noPrematureCommit; eauto.
Qed.

Lemma addInflightMsg_nil now rnd w msg w1 err :
  addInflightMsg now rnd w msg = (w1, None, err) → w1 = w.
Proof.
  unfold addInflightMsg.
  destruct (inFlight (bridge w) !! _); [by intros [= <-]|].
  destruct (json_Unmarshal _ _) as [rc [e|]]; by intros [=].
Qed.

Lemma addInflightMsg_allocates now rnd w msg w1 c err :
  addInflightMsg now rnd w msg = (w1, Some c, err) → is_Some (heap w1 !! c).
Proof.
  intros (ctx & _ & _ & _ & -> & _)%addInflightMsg_admits.
  rewrite lookup_insert_eq. eauto.
Qed.

Lemma step_Good t w ev w' : step w ev = Some w' → Good t w → Good t w'.
Proof.
  destruct ev as [msg now rnd now' rnd'|c m now rnd|pm seed|err]; simpl.
  - unfold ConsumerMessagesLoop_iter. case_match; [done|].
    destruct (addInflightMsg now rnd w msg) as [[w1 [c|]] [e|]] eqn:Hadd;
      simpl; intros [= <-] Hw.
    + eapply Good_quiet; [|by eapply Good_admit].
      eapply Reply_quiet, addInflightMsg_allocates, Hadd.
    + eapply Good_quiet; [|by eapply Good_admit].
      eapply OnMessage_quiet, addInflightMsg_allocates, Hadd.
    + by rewrite (addInflightMsg_nil _ _ _ _ _ _ Hadd).
    + by rewrite (addInflightMsg_nil _ _ _ _ _ _ Hadd).
  - case_decide as Hc; [|done]. intros [= <-] Hw.
    eapply Good_quiet; [|done]. apply Reply_quiet.
    destruct Hw as (Hinv & _). by apply (inv_dispatched _ Hinv).
  - case_decide as Hpm; [|done]. unfold ProducerSuccessLoop_iter.
    destruct (pmMetadata pm) as [k|] eqn:Hk; [|done].
    destruct (inFlight (bridge w) !! k) as [ctx|] eqn:Hctx; [|done].
    simpl. intros [= <-] Hw. by eapply Good_complete.
  - case_decide; [|done]. unfold ProducerErrorLoop_iter. by case_match.
Qed.

Lemma run_Good t w evs w' : run w evs = Some w' → Good t w → Good t w'.
Proof.
  revert w. induction evs as [|ev evs IH]; intros w; simpl.
  - by intros [= <-].
  - destruct (step w ev) as [w1|] eqn:Hstep; [|done].
    intros Hrun Hw. eapply IH; [done|]. by eapply step_Good.
Qed.

Lemma run_tracked cf evs w : run (start cf) evs = Some w → tracked w.
Proof.
  intros Hrun. destruct (run_Good "" _ _ _ Hrun (Good_start _ cf)) as (Hinv & _).
  apply (inv_tracked _ Hinv).
Qed.

(** The configuration does not change in a run, and the map never holds
    more than [MaxInFlight] contexts. *)
Lemma step_conf w ev w' : step w ev = Some w' → conf (bridge w') = conf (bridge w).
Proof.
  destruct ev as [msg now rnd now' rnd'|c m now rnd|pm seed|err]; simpl.
  - unfold ConsumerMessagesLoop_iter. case_match; [done|].
    destruct (addInflightMsg now rnd w msg) as [[w1 [c|]] [e|]] eqn:Hadd;
      simpl; intros [= <-];
      try (by rewrite (addInflightMsg_nil _ _ _ _ _ _ Hadd));
      destruct (addInflightMsg_admits _ _ _ _ _ _ _ Hadd)
        as (_ & _ & _ & Hb & _); simpl; by rewrite Hb.
  - case_decide; [|done]. by intros [= <-].
  - case_decide; [|done]. unfold ProducerSuccessLoop_iter.
    destruct (pmMetadata pm) as [k|]; [|done].
    destruct (inFlight (bridge w) !! k) as [ctx|]; [|done].
    simpl. intros [= <-].
    by destruct (setInFlightComplete_unfold seed (record (ActAck k) w) ctx)
      as (_ & -> & _).
  - case_decide; [|done]. unfold ProducerErrorLoop_iter. by case_match.
Qed.

Lemma step_capacity w ev w' :
  step w ev = Some w' →
  Z.of_nat (size (inFlight (bridge w))) ≤ MaxInFlight (conf (bridge w)) →
  Z.of_nat (size (inFlight (bridge w'))) ≤ MaxInFlight (conf (bridge w)).
Proof.
  destruct ev as [msg now rnd now' rnd'|c m now rnd|pm seed|err]; simpl.
  - unfold ConsumerMessagesLoop_iter. case_match eqn:Hcap; [done|].
    apply Z.leb_gt in Hcap.
    destruct (addInflightMsg now rnd w msg) as [[w1 [c|]] [e|]] eqn:Hadd;
      simpl; intros [= <-] _;
      try (rewrite (addInflightMsg_nil _ _ _ _ _ _ Hadd); lia);
      destruct (addInflightMsg_admits _ _ _ _ _ _ _ Hadd)
        as (_ & Hnovel & _ & Hb & _); simpl; rewrite Hb; simpl;
      rewrite map_size_insert_None by done; lia.
  - case_decide; [|done]. by intros [= <-].
  - case_decide; [|done]. unfold ProducerSuccessLoop_iter.
    destruct (pmMetadata pm) as [k|]; [|done].
    destruct (inFlight (bridge w) !! k) as [ctx|]; [|done].
    simpl. intros [= <-] Hle.
    pose proof (map_subseteq_size _ _
      (setInFlightComplete_subseteq seed (record (ActAck k) w) ctx)) as Hsz.
    simpl in Hsz. lia.
  - case_decide; [|done]. unfold ProducerErrorLoop_iter. by case_match.
Qed.

End Runs.


(** ** What setInFlightComplete does *)

Section Advance.
Context {rt : Extern}.

(** C1, the general part: [setInFlightComplete] marks the context
    complete and changes nothing else in the heap; the list it builds
    holds exactly the in-flight contexts of the partition of the context,
    each once, by ascending offset; the contexts ready to acknowledge are
    the longest prefix of complete contexts of that list; exactly those are
    removed from the map; [MarkOffset] is called once, with the message of
    the last, and highest, of the prefix, when the prefix is not empty,
    and not at all otherwise; and when a context of the partition with an
    offset below all the others is not complete, nothing is removed and
    nothing is marked. *)
Lemma setInFlightComplete_spec seed (w : World) (ctx : loc) :
  tracked w →
  let w' := setInFlightComplete seed w ctx in
  let sorted := completeInParition seed (markComplete w ctx) ctx in
  let ready := readyToAck seed (markComplete w ctx) ctx in
  heap w' = alter (set_complete true) ctx (heap w)
  ∧ (is_Some (heap w !! ctx) → isComplete w' ctx)
  ∧ (∀ c, c ∈ sorted ↔ isInFlight w c ∧ partitionOf w c = partitionOf w ctx)
  ∧ NoDup sorted
  ∧ StronglySorted (λ a b, offsetOf w a ≤ offsetOf w b) sorted
  ∧ (∃ rest, sorted = ready ++ rest
       ∧ Forall (isComplete w') ready
       ∧ ∀ c, head rest = Some c → ¬ isComplete w' c)
  ∧ (∀ k c, inFlight (bridge w') !! k = Some c
            ↔ inFlight (bridge w) !! k = Some c ∧ c ∉ ready)
  ∧ history w'
    = match last ready with
      | Some highest => ActMark (saramaMsg (deref (heap w) highest)) :: history w
      | None => history w
      end
  ∧ (∀ highest c, last ready = Some highest → c ∈ ready →
                  offsetOf w c ≤ offsetOf w highest)
  ∧ (∀ lowest,
       lowest ∈ sorted → ¬ isComplete w' lowest →
       (∀ c, c ∈ sorted → c ≠ lowest → offsetOf w lowest < offsetOf w c) →
       inFlight (bridge w') = inFlight (bridge w) ∧ history w' = history w).
Proof.
  intros Hw w' sorted ready. set (w1 := markComplete w ctx) in *.
  destruct (setInFlightComplete_unfold seed w ctx) as (Hheap & _ & Hmap & Hhist).
  fold w' w1 ready in Hheap, Hmap, Hhist.
  assert (∀ c, isComplete w' c ↔ isComplete w1 c) as Hdone
    by (intros c; unfold isComplete; by rewrite Hheap).
  assert (∀ c, offsetOf w1 c = offsetOf w c) as Hoff
    by (intros c; apply offsetOf_markComplete).
  pose proof (completeInParition_sorted seed w1 ctx) as Hsorted.
  fold sorted in Hsorted.
  split_and!.
  - done.
  - intros Hctx. apply Hdone, isComplete_markComplete. by left.
  - intros c. unfold sorted. rewrite elem_of_completeInParition.
    unfold w1. by rewrite !partitionOf_markComplete.
  - by apply completeInParition_NoDup, tracked_markComplete.
  - eapply StronglySorted_weaken; [|exact Hsorted].
    intros a b. cbv beta. by rewrite !Hoff.
  - destruct (readyToAck_split seed w1 ctx) as (rest & Hl & Hall & Hhd).
    exists rest. split_and!; [done| |].
    + eapply Forall_impl; [exact Hall|]. intros c. apply Hdone.
    + intros c Hc. rewrite Hdone. by apply Hhd.
  - intros k c. by apply setInFlightComplete_inFlight.
  - done.
  - intros highest c Hlast Hc.
    pose proof (readyToAck_last_highest seed w1 ctx highest c Hlast) as Hle.
    fold ready in Hle. rewrite decide_True in Hle by done.
    rewrite !Hoff in Hle. apply Hle.
    destruct (readyToAck_split seed w1 ctx) as (rest & -> & _).
    apply elem_of_app. by left.
  - intros lowest Hin Hinc Hlow.
    assert (ready = []) as Hnil.
    { apply (readyToAck_lowest_incomplete seed w1 ctx lowest); [done| |].
      - by rewrite <-Hdone.
      - intros c Hc Hne. rewrite !Hoff. by apply Hlow. }
    rewrite Hmap, Hhist, Hnil. done.
Qed.

(** What an admission does to the contexts in flight. *)
Lemma admit_inFlight now rnd w msg w1 c err x :
  addInflightMsg now rnd w msg = (w1, Some c, err) →
  isInFlight w1 x ↔ x = c ∨ isInFlight w x.
Proof.
  intros (ctx & Hnovel & _ & Hb & _)%addInflightMsg_admits.
  unfold isInFlight. rewrite Hb. simpl. split.
  - intros [k Hk]. rewrite lookup_insert in Hk. case_decide; [left|right].
    + congruence.
    + by exists k.
  - intros [->|[k Hk]].
    + exists (coordinate msg). by rewrite lookup_insert_eq.
    + exists k. rewrite lookup_insert_ne; [done|]. congruence.
Qed.

Lemma admit_fresh now rnd w msg w1 c err x :
  addInflightMsg now rnd w msg = (w1, Some c, err) →
  tracked w → isInFlight w x → x ≠ c.
Proof.
  intros (ctx & _ & Hfresh & _)%addInflightMsg_admits Hw [k Hk] ->.
  destruct (tracked_lookup _ _ _ Hw Hk) as (? & ? & _). congruence.
Qed.

Lemma admit_deref_new now rnd w msg w1 c err :
  addInflightMsg now rnd w msg = (w1, Some c, err) →
  saramaMsg (deref (heap w1) c) = msg ∧ complete (deref (heap w1) c) = false.
Proof.
  intros (ctx & _ & _ & _ & -> & _ & _ & <- & _ & <-)%addInflightMsg_admits.
  unfold deref. by rewrite lookup_total_insert_eq.
Qed.

Lemma admit_deref_old now rnd w msg w1 c err x :
  addInflightMsg now rnd w msg = (w1, Some c, err) →
  x ≠ c → deref (heap w1) x = deref (heap w) x.
Proof.
  intros (ctx & _ & _ & _ & -> & _)%addInflightMsg_admits Hne.
  unfold deref. by rewrite lookup_total_insert_ne.
Qed.

Lemma admit_tracked now rnd w msg w1 c err :
  addInflightMsg now rnd w msg = (w1, Some c, err) → tracked w → tracked w1.
Proof.
  intros (ctx & Hnovel & Hfresh & Hb & Hh & _ & Hoff & Hmsg & _)
         %addInflightMsg_admits [Hmap Hkey].
  split; rewrite ?Hb, Hh; simpl.
  - intros k c'. rewrite lookup_insert. case_decide as Hkk.
    + intros [= <-]. subst k. rewrite lookup_insert_eq. eauto.
    + intros Hk. destruct (Hmap _ _ Hk) as (x & Hx & <-).
      exists x. rewrite lookup_insert_ne; [done|]. congruence.
  - intros c' x. rewrite lookup_insert. case_decide.
    + intros [= <-]. congruence.
    + apply Hkey.
Qed.

Lemma heap_setInFlightComplete seed w ctx :
  heap (setInFlightComplete seed w ctx) = heap (markComplete w ctx).
Proof. by destruct (setInFlightComplete_unfold seed w ctx) as (-> & _). Qed.

Lemma isComplete_setInFlightComplete seed w ctx c :
  isComplete (setInFlightComplete seed w ctx) c
  ↔ (c = ctx ∧ is_Some (heap w !! ctx)) ∨ isComplete w c.
Proof.
  rewrite <-isComplete_markComplete. unfold isComplete.
  by rewrite heap_setInFlightComplete.
Qed.

Lemma offsetOf_setInFlightComplete seed w ctx c :
  offsetOf (setInFlightComplete seed w ctx) c = offsetOf w c.
Proof.
  rewrite <-(offsetOf_markComplete w ctx). unfold offsetOf.
  by rewrite heap_setInFlightComplete.
Qed.

Lemma partitionOf_setInFlightComplete seed w ctx c :
  partitionOf (setInFlightComplete seed w ctx) c = partitionOf w c.
Proof.
  rewrite <-(partitionOf_markComplete w ctx). unfold partitionOf.
  by rewrite heap_setInFlightComplete.
Qed.

Lemma saramaMsg_setInFlightComplete seed w ctx c :
  saramaMsg (deref (heap (setInFlightComplete seed w ctx)) c)
  = saramaMsg (deref (heap w) c).
Proof. by rewrite heap_setInFlightComplete, saramaMsg_markComplete. Qed.

Lemma allocated_setInFlightComplete seed w ctx c :
  is_Some (heap (setInFlightComplete seed w ctx) !! c) ↔ is_Some (heap w !! c).
Proof.
  rewrite heap_setInFlightComplete. simpl. rewrite lookup_alter.
  case_decide; [subst|done]. by rewrite fmap_is_Some.
Qed.

End Advance.

(** ** Out-of-order completion on one partition *)

Section OutOfOrder.
Context {rt : Extern}.
Context (p : Z) (c10 c11 c12 : loc).

Lemma three_cases c (P : loc → Prop) :
  c ∈ [c10; c11; c12] → P c10 → P c11 → P c12 → P c.
Proof.
  intros Hc ???. repeat (apply elem_of_cons in Hc as [->|Hc]; [done|]).
  by apply elem_of_nil in Hc.
Qed.

(** While the context at offset 10 is not complete, completing another
    one removes nothing and marks nothing. *)
Lemma three_wait seed w done c :
  three p c10 c11 c12 w done → c ∈ [c11; c12] → c10 ∉ done →
  let w' := setInFlightComplete seed w c in
  inFlight (bridge w') = inFlight (bridge w)
  ∧ history w' = history w
  ∧ three p c10 c11 c12 w' (c :: done).
Proof.
  intros (Hw & Hpart & H10 & H11 & H12 & Halloc & Hdone) Hc H10' w'.
  assert (c ∈ [c10; c11; c12]) as Hc' by set_solver.
  assert (c10 ≠ c) as Hne.
  { intros <-. repeat (apply elem_of_cons in Hc as [Hc|Hc]; [congruence|]).
    by apply elem_of_nil in Hc. }
  assert (partitionOf w c = p) as Hp by (apply Hpart; done).
  destruct (setInFlightComplete_spec seed w c Hw)
    as (_ & _ & Hin & _ & _ & _ & _ & _ & _ & Hlow).
  destruct (Hlow c10) as [Hmap Hhist].
  { apply Hin. rewrite Hp. apply Hpart. set_solver. }
  { rewrite isComplete_setInFlightComplete. intros [[? _]|H10c]; [done|].
    apply H10', Hdone; [set_solver|done]. }
  { intros x [Hfl Hx]%Hin Hx10. rewrite Hp in Hx.
    assert (x ∈ [c10; c11; c12]) as Hx' by (apply Hpart; done).
    revert Hx10. pattern x. apply three_cases; [done|..]; intros; [done|lia..]. }
  split_and!; [done..|]. split_and!.
  - by apply tracked_setInFlightComplete.
  - intros x. unfold w'. rewrite partitionOf_setInFlightComplete.
    unfold isInFlight. rewrite Hmap. apply Hpart.
  - unfold w'. by rewrite offsetOf_setInFlightComplete.
  - unfold w'. by rewrite offsetOf_setInFlightComplete.
  - unfold w'. by rewrite offsetOf_setInFlightComplete.
  - intros x Hx. apply allocated_setInFlightComplete. by apply Halloc.
  - intros x Hx. unfold w'. rewrite isComplete_setInFlightComplete.
    rewrite (Hdone x Hx), elem_of_cons. split.
    + intros [[-> _]|?]; [by left|by right].
    + intros [->|?]; [left|by right]. split; [done|by apply Halloc].
Qed.

(** Once the other two are complete, completing the context at offset 10
    marks the message at offset 12 and removes the three. *)
Lemma three_advance seed w done :
  three p c10 c11 c12 w done → c11 ∈ done → c12 ∈ done →
  let w' := setInFlightComplete seed w c10 in
  history w' = ActMark (saramaMsg (deref (heap w) c12)) :: history w
  ∧ (∀ k c, inFlight (bridge w') !! k = Some c
            ↔ inFlight (bridge w) !! k = Some c ∧ c ∉ [c10; c11; c12]).
Proof.
  intros (Hw & Hpart & H10 & H11 & H12 & Halloc & Hdone) Hd11 Hd12 w'.
  assert (partitionOf w c10 = p) as Hp by (apply Hpart; set_solver).
  destruct (setInFlightComplete_spec seed w c10 Hw)
    as (_ & _ & Hin & _ & _ & _ & Hmap & Hhist & Hhi & _).
  set (w1 := markComplete w c10) in *.
  assert (∀ x, x ∈ completeInParition seed w1 c10 ↔ x ∈ [c10; c11; c12])
    as Hsorted.
  { intros x. rewrite Hin, Hp. apply Hpart. }
  assert (readyToAck seed w1 c10 = completeInParition seed w1 c10) as Hready.
  { apply readyToAck_all_complete. intros x Hx%Hsorted.
    apply isComplete_markComplete.
    pattern x. apply three_cases; [done|..].
    - left. split; [done|]. apply Halloc. set_solver.
    - right. apply Hdone; [set_solver|done].
    - right. apply Hdone; [set_solver|done]. }
  rewrite Hready in *.
  destruct (last (completeInParition seed w1 c10)) as [hi|] eqn:Hlast.
  - assert (hi = c12) as ->.
    { assert (hi ∈ [c10; c11; c12]) as Hhi'
        by (apply Hsorted; by eapply last_Some_elem_of).
      assert (offsetOf w c12 ≤ offsetOf w hi) as Hle.
      { apply Hhi; [done|]. apply Hsorted. set_solver. }
      revert Hle. pattern hi. apply three_cases; [done|..]; intros; [lia..|done]. }
    split; [done|]. intros k c. unfold w'. rewrite Hmap. by rewrite Hsorted.
  - apply last_None in Hlast.
    assert (c10 ∈ completeInParition seed w1 c10) as Hc
      by (apply Hsorted; set_solver).
    rewrite Hlast in Hc. by apply elem_of_nil in Hc.
Qed.

End OutOfOrder.

Section ThreeAdmitted.
Context {rt : Extern}.

Lemma admit_allocated now rnd w msg w1 c err x :
  addInflightMsg now rnd w msg = (w1, Some c, err) →
  is_Some (heap w !! x) → is_Some (heap w1 !! x).
Proof.
  intros (ctx & _ & _ & _ & -> & _)%addInflightMsg_admits Hx.
  rewrite lookup_insert. by case_decide.
Qed.

Lemma admit_lookup now rnd w msg w1 c err k x :
  addInflightMsg now rnd w msg = (w1, Some c, err) → tracked w →
  inFlight (bridge w1) !! k = Some x ∧ x ≠ c
  ↔ inFlight (bridge w) !! k = Some x.
Proof.
  intros Hadd Hw.
  pose proof (admit_fresh _ _ _ _ _ _ _ x Hadd Hw) as Hfresh.
  destruct (addInflightMsg_admits _ _ _ _ _ _ _ Hadd)
    as (ctx & Hnovel & _ & -> & _).
  simpl. rewrite lookup_insert. case_decide as Hk.
  - subst k. split; [by intros [[= ->] ?]|]. congruence.
  - split; [by intros []|]. intros Hx. split; [done|].
    apply Hfresh. by exists k.
Qed.

(** Offsets 10, 11 and 12 of partition [p], admitted to a map that holds
    nothing of that partition. *)
Lemma three_admitted t p v10 v11 v12 now1 rnd1 now2 rnd2 now3 rnd3
    w0 w1 w2 w3 c10 c11 c12 e10 e11 e12 :
  tracked w0 →
  (∀ c, isInFlight w0 c → partitionOf w0 c ≠ p) →
  addInflightMsg now1 rnd1 w0
    {| Topic := t; Partition := p; Offset := 10; Value := v10 |}
  = (w1, Some c10, e10) →
  addInflightMsg now2 rnd2 w1
    {| Topic := t; Partition := p; Offset := 11; Value := v11 |}
  = (w2, Some c11, e11) →
  addInflightMsg now3 rnd3 w2
    {| Topic := t; Partition := p; Offset := 12; Value := v12 |}
  = (w3, Some c12, e12) →
  three p c10 c11 c12 w3 []
  ∧ saramaMsg (deref (heap w3) c12)
    = {| Topic := t; Partition := p; Offset := 12; Value := v12 |}
  ∧ (∀ k c, inFlight (bridge w3) !! k = Some c ∧ c ∉ [c10; c11; c12]
            ↔ inFlight (bridge w0) !! k = Some c).
Proof.
  intros Hw0 Hp0 Ha1 Ha2 Ha3.
  pose proof (admit_tracked _ _ _ _ _ _ _ Ha1 Hw0) as Hw1.
  pose proof (admit_tracked _ _ _ _ _ _ _ Ha2 Hw1) as Hw2.
  pose proof (admit_tracked _ _ _ _ _ _ _ Ha3 Hw2) as Hw3.
  assert (isInFlight w1 c10) as Hf10
    by (apply (admit_inFlight _ _ _ _ _ _ _ _ Ha1); by left).
  assert (isInFlight w2 c11) as Hf11
    by (apply (admit_inFlight _ _ _ _ _ _ _ _ Ha2); by left).
  assert (isInFlight w2 c10) as Hf10'
    by (apply (admit_inFlight _ _ _ _ _ _ _ _ Ha2); by right).
  assert (c10 ≠ c11) as Hne1 by (eapply admit_fresh; done).
  assert (c10 ≠ c12) as Hne2 by (eapply admit_fresh; done).
  assert (c11 ≠ c12) as Hne3 by (eapply admit_fresh; done).
  destruct (admit_deref_new _ _ _ _ _ _ _ Ha1) as [Hm10 Hd10].
  destruct (admit_deref_new _ _ _ _ _ _ _ Ha2) as [Hm11 Hd11].
  destruct (admit_deref_new _ _ _ _ _ _ _ Ha3) as [Hm12 Hd12].
  assert (deref (heap w3) c11 = deref (heap w2) c11) as He11
    by (eapply admit_deref_old; done).
  assert (deref (heap w3) c10 = deref (heap w1) c10) as He10.
  { rewrite (admit_deref_old _ _ _ _ _ _ _ c10 Ha3) by done.
    by eapply admit_deref_old. }
  assert (∀ x, isInFlight w0 x →
               (x ∉ [c10; c11; c12]) ∧ deref (heap w3) x = deref (heap w0) x)
    as Hold.
  { intros x Hx.
    assert (isInFlight w1 x) as Hx1
      by (apply (admit_inFlight _ _ _ _ _ _ _ _ Ha1); by right).
    assert (isInFlight w2 x) as Hx2
      by (apply (admit_inFlight _ _ _ _ _ _ _ _ Ha2); by right).
    pose proof (admit_fresh _ _ _ _ _ _ _ x Ha1 Hw0 Hx).
    pose proof (admit_fresh _ _ _ _ _ _ _ x Ha2 Hw1 Hx1).
    pose proof (admit_fresh _ _ _ _ _ _ _ x Ha3 Hw2 Hx2).
    split; [set_solver|].
    rewrite (admit_deref_old _ _ _ _ _ _ _ x Ha3) by done.
    rewrite (admit_deref_old _ _ _ _ _ _ _ x Ha2) by done.
    by eapply admit_deref_old. }
  split_and!.
  - split_and!; [done| | | | | |].
    + intros x. rewrite (admit_inFlight _ _ _ _ _ _ _ x Ha3).
      rewrite (admit_inFlight _ _ _ _ _ _ _ x Ha2).
      rewrite (admit_inFlight _ _ _ _ _ _ _ x Ha1).
      unfold partitionOf. split.
      * intros [[->|[->|[->|Hx]]] Hp]; [set_solver..|].
        destruct (Hold _ Hx) as [_ Hderef]. rewrite Hderef in Hp.
        by destruct (Hp0 _ Hx).
      * intros Hx. pattern x. apply (three_cases c10 c11 c12); [done|..].
        -- rewrite He10, Hm10. auto.
        -- rewrite He11, Hm11. auto.
        -- rewrite Hm12. auto.
    + unfold offsetOf. by rewrite He10, Hm10.
    + unfold offsetOf. by rewrite He11, Hm11.
    + unfold offsetOf. by rewrite Hm12.
    + intros x Hx. pattern x. apply (three_cases c10 c11 c12); [done|..].
      * eapply admit_allocated; [done|]. eapply admit_allocated; [done|].
        by eapply addInflightMsg_allocates.
      * eapply admit_allocated; [done|]. by eapply addInflightMsg_allocates.
      * by eapply addInflightMsg_allocates.
    + intros x Hx. unfold isComplete. split; [|by intros ?%elem_of_nil].
      pattern x. apply (three_cases c10 c11 c12); [done|..].
      * by rewrite He10, Hd10.
      * by rewrite He11, Hd11.
      * by rewrite Hd12.
  - done.
  - intros k x.
    rewrite <-(admit_lookup _ _ _ _ _ _ _ k x Ha1 Hw0).
    rewrite <-(admit_lookup _ _ _ _ _ _ _ k x Ha2 Hw1).
    rewrite <-(admit_lookup _ _ _ _ _ _ _ k x Ha3 Hw2).
    rewrite !elem_of_cons, elem_of_nil. naive_solver.
Qed.

End ThreeAdmitted.

Section Scenario.
Context {rt : Extern}.

(** Scenario 2 of the spec, for any runtime, topic, partition and
    payloads: after 11 and after 12 nothing is marked and nothing leaves
    the map; after 10 the message at offset 12 is marked, once, and the map
    is back to what it held before the three admissions. *)
Lemma out_of_order t p v10 v11 v12 now1 rnd1 now2 rnd2 now3 rnd3 s1 s2 s3
    w0 w1 w2 w3 c10 c11 c12 e10 e11 e12 :
  tracked w0 →
  (∀ c, isInFlight w0 c → partitionOf w0 c ≠ p) →
  addInflightMsg now1 rnd1 w0
    {| Topic := t; Partition := p; Offset := 10; Value := v10 |}
  = (w1, Some c10, e10) →
  addInflightMsg now2 rnd2 w1
    {| Topic := t; Partition := p; Offset := 11; Value := v11 |}
  = (w2, Some c11, e11) →
  addInflightMsg now3 rnd3 w2
    {| Topic := t; Partition := p; Offset := 12; Value := v12 |}
  = (w3, Some c12, e12) →
  let w4 := setInFlightComplete s1 w3 c11 in
  let w5 := setInFlightComplete s2 w4 c12 in
  let w6 := setInFlightComplete s3 w5 c10 in
  history w4 = history w3
  ∧ inFlight (bridge w4) = inFlight (bridge w3)
  ∧ history w5 = history w3
  ∧ inFlight (bridge w5) = inFlight (bridge w3)
  ∧ history w6
    = ActMark {| Topic := t; Partition := p; Offset := 12; Value := v12 |}
      :: history w3
  ∧ inFlight (bridge w6) = inFlight (bridge w0).
Proof.
  intros Hw0 Hp0 Ha1 Ha2 Ha3 w4 w5 w6.
  destruct (three_admitted _ _ _ _ _ _ _ _ _ _ _ _ _ _ _ _ _ _ _ _ _
              Hw0 Hp0 Ha1 Ha2 Ha3) as (H3 & Hm12 & Hrest).
  destruct (three_wait p c10 c11 c12 s1 w3 [] c11 H3)
    as (Hmap4 & Hhist4 & H4); [set_solver..|].
  fold w4 in Hmap4, Hhist4, H4.
  destruct (three_wait p c10 c11 c12 s2 w4 [c11] c12 H4)
    as (Hmap5 & Hhist5 & H5); [set_solver| |].
  { intros ->%list_elem_of_singleton.
    destruct H3 as (_ & _ & ? & ? & _). lia. }
  fold w5 in Hmap5, Hhist5, H5.
  destruct (three_advance p c10 c11 c12 s3 w5 [c12; c11] H5)
    as (Hhist6 & Hmap6); [set_solver..|].
  fold w6 in Hmap6, Hhist6.
  assert (saramaMsg (deref (heap w5) c12) = saramaMsg (deref (heap w3) c12))
    as Hsame.
  { unfold w5, w4. by rewrite !saramaMsg_setInFlightComplete. }
  split_and!; [done|done|congruence|congruence| |].
  - rewrite Hhist6, Hsame, Hm12. congruence.
  - apply map_eq. intros k. apply option_eq. intros c.
    rewrite Hmap6, Hmap5, Hmap4. apply Hrest.
Qed.

(** C1: [setInFlightComplete] marks the context complete; collects the
    in-flight contexts of its partition and sorts them by ascending
    offset; takes the longest prefix of complete contexts; removes exactly
    those from the map; and calls [MarkOffset] once, with the message of
    the last (the highest) of the prefix.  When a context of the partition
    with an offset below all the others is not complete, nothing is
    removed and nothing is marked.  In particular, for offsets 10, 11 and
    12 admitted on one partition and completed in the order 11, 12, 10,
    nothing is marked until 10 completes, and then offset 12 is marked,
    once, and the three contexts leave the map. *)
Theorem setInFlightComplete_advances seed (w : World) (ctx : loc) :
  tracked w →
  let w' := setInFlightComplete seed w ctx in
  let sorted := completeInParition seed (markComplete w ctx) ctx in
  let ready := readyToAck seed (markComplete w ctx) ctx in
  heap w' = alter (set_complete true) ctx (heap w)
  ∧ (is_Some (heap w !! ctx) → isComplete w' ctx)
  ∧ (∀ c, c ∈ sorted ↔ isInFlight w c ∧ partitionOf w c = partitionOf w ctx)
  ∧ NoDup sorted
  ∧ StronglySorted (λ a b, offsetOf w a ≤ offsetOf w b) sorted
  ∧ (∃ rest, sorted = ready ++ rest
       ∧ Forall (isComplete w') ready
       ∧ ∀ c, head rest = Some c → ¬ isComplete w' c)
  ∧ (∀ k c, inFlight (bridge w') !! k = Some c
            ↔ inFlight (bridge w) !! k = Some c ∧ c ∉ ready)
  ∧ history w'
    = match last ready with
      | Some highest => ActMark (saramaMsg (deref (heap w) highest)) :: history w
      | None => history w
      end
  ∧ (∀ highest c, last ready = Some highest → c ∈ ready →
                  offsetOf w c ≤ offsetOf w highest)
  ∧ (∀ lowest,
       lowest ∈ sorted → ¬ isComplete w' lowest →
       (∀ c, c ∈ sorted → c ≠ lowest → offsetOf w lowest < offsetOf w c) →
       inFlight (bridge w') = inFlight (bridge w) ∧ history w' = history w)
  ∧ (∀ t p v10 v11 v12 now1 rnd1 now2 rnd2 now3 rnd3 s1 s2 s3
       w0 w1 w2 w3 c10 c11 c12 e10 e11 e12,
       tracked w0 →
       (∀ c, isInFlight w0 c → partitionOf w0 c ≠ p) →
       addInflightMsg now1 rnd1 w0
         {| Topic := t; Partition := p; Offset := 10; Value := v10 |}
       = (w1, Some c10, e10) →
       addInflightMsg now2 rnd2 w1
         {| Topic := t; Partition := p; Offset := 11; Value := v11 |}
       = (w2, Some c11, e11) →
       addInflightMsg now3 rnd3 w2
         {| Topic := t; Partition := p; Offset := 12; Value := v12 |}
       = (w3, Some c12, e12) →
       let w4 := setInFlightComplete s1 w3 c11 in
       let w5 := setInFlightComplete s2 w4 c12 in
       let w6 := setInFlightComplete s3 w5 c10 in
       history w4 = history w3
       ∧ inFlight (bridge w4) = inFlight (bridge w3)
       ∧ history w5 = history w3
       ∧ inFlight (bridge w5) = inFlight (bridge w3)
       ∧ history w6
         = ActMark {| Topic := t; Partition := p; Offset := 12; Value := v12 |}
           :: history w3
       ∧ inFlight (bridge w6) = inFlight (bridge w0)).
Proof.
  intros Hw w' sorted ready.
  destruct (setInFlightComplete_spec seed w ctx Hw)
    as (H1 & H2 & H3 & H4 & H5 & H6 & H7 & H8 & H9 & H10).
  split_and!; try done. intros. by eapply out_of_order.
Qed.

End Scenario.

(** ** Checking the assumptions on a given history *)

Lemma inOrderb_sound h : inOrderb h = true → inOrder h.
Proof.
  induction h as [|a h IH]; intros Hb.
  - by intros [|??] ??? [=].
  - assert (inOrderb h = true) as Hh.
    { destruct a; simpl in Hb; try done. by apply andb_prop in Hb as [_ ?]. }
    intros [|a' later] m2 earlier m1 Heq; simplify_eq/=; [|by eapply IH].
    intros Hm1 Hp. apply andb_prop in Hb as [Hall _].
    rewrite forallb_forall in Hall.
    specialize (Hall _ (proj1 (list_elem_of_In _ _) Hm1)). simpl in Hall.
    rewrite decide_True in Hall by done. by apply Z.leb_le.
Qed.

Lemma oneTopicb_sound t h : oneTopicb t h = true → oneTopic t h.
Proof.
  unfold oneTopicb. rewrite forallb_forall. intros Hall m Hm.
  specialize (Hall _ (proj1 (list_elem_of_In _ _) Hm)). simpl in Hall.
  by apply bool_decide_eq_true in Hall.
Qed.

(** ** Runs and loops *)

Section Loops.
Context {rt : Extern}.

Lemma run_conf w evs w' :
  run w evs = Some w' → conf (bridge w') = conf (bridge w).
Proof.
  revert w. induction evs as [|ev evs IH]; intros w; simpl.
  - by intros [= <-].
  - destruct (step w ev) as [w1|] eqn:Hstep; [|done].
    intros Hrun. rewrite (IH _ Hrun). by eapply step_conf.
Qed.

Lemma run_capacity w evs w' :
  run w evs = Some w' →
  Z.of_nat (size (inFlight (bridge w))) ≤ MaxInFlight (conf (bridge w)) →
  Z.of_nat (size (inFlight (bridge w'))) ≤ MaxInFlight (conf (bridge w)).
Proof.
  revert w. induction evs as [|ev evs IH]; intros w; simpl.
  - by intros [= <-].
  - destruct (step w ev) as [w1|] eqn:Hstep; [|done].
    intros Hrun Hle. rewrite <-(step_conf _ _ _ Hstep).
    apply IH; [done|]. rewrite (step_conf _ _ _ Hstep).
    by eapply step_capacity.
Qed.

(** C2: in every run of the bridge whose admissions arrive in offset
    order on each partition (from the one topic the consumer reads), the
    offsets marked on a partition never go down, and when an offset is
    marked, every message ever admitted in the run on that partition at or
    below that offset has had its reply sent to the producer and
    acknowledged by it, before the mark. *)
Theorem marks_follow_replies (cf : KafkaBridgeConf) (evs : list Event)
    (w : World) :
  run (start cf) evs = Some w →
  oneTopic (TopicIn (Kafka cf)) (history w) →
  inOrder (history w) →
  (∀ later m2 earlier m1,
     history w = later ++ ActMark m2 :: earlier → ActMark m1 ∈ earlier →
     Partition m1 = Partition m2 → Offset m1 ≤ Offset m2)
  ∧ (∀ later m earlier m',
       history w = later ++ ActMark m :: earlier → ActAdmit m' ∈ history w →
       Partition m' = Partition m → Offset m' ≤ Offset m →
       ActAck (coordinate m') ∈ earlier
       ∧ ∃ pm, pmMetadata pm = MetaString (coordinate m')
               ∧ ActEnqueue pm ∈ earlier).
Proof.
  intros Hrun Htopic Horder.
  destruct (run_Good (TopicIn (Kafka cf)) _ _ _ Hrun (Good_start _ cf))
    as (_ & Hadm & Hord & Htop).
  destruct (Hord Horder) as [_ Hasc]. specialize (Htop Htopic).
  split; [exact Hasc|].
  intros later m earlier m' Heq Hm' Hp Hle.
  pose proof (Hadm _ _ _ Heq) as Hm.
  rewrite Heq in Hm'. apply elem_of_app in Hm' as [Hm'|Hm'].
  - apply list_elem_of_split in Hm' as (later2 & later1 & ->).
    assert (Offset m ≤ Offset m') as Hge.
    { apply (Horder later2 m' (later1 ++ ActMark m :: earlier) m);
        [by rewrite Heq, <-app_assoc|set_solver|done]. }
    rewrite (coordinate_ext m' m); [|by rewrite !Htopic by (rewrite Heq; set_solver)|done|lia].
    by eapply Htop.
  - apply elem_of_cons in Hm' as [[=]|Hm']. by eapply Htop.
Qed.

(** C3: with [MaxInFlight] at least 1, in every run of the bridge the
    in-flight map never holds more than [MaxInFlight] contexts; whenever
    it holds that many, the consumer loop waits instead of admitting. *)
Theorem inFlight_bounded (cf : KafkaBridgeConf) (evs : list Event)
    (w : World) :
  1 ≤ MaxInFlight cf →
  run (start cf) evs = Some w →
  Z.of_nat (size (inFlight (bridge w))) ≤ MaxInFlight cf
  ∧ (∀ now rnd now' rnd' msg,
       MaxInFlight cf ≤ Z.of_nat (size (inFlight (bridge w))) →
       ConsumerMessagesLoop_iter now rnd now' rnd' w msg = Waiting).
Proof.
  intros Hmax Hrun. split.
  - apply (run_capacity _ _ _ Hrun). simpl. rewrite map_size_empty. lia.
  - intros now rnd now' rnd' msg Hfull. unfold ConsumerMessagesLoop_iter.
    rewrite (run_conf _ _ _ Hrun). simpl.
    by rewrite (proj2 (Z.leb_le _ _) Hfull).
Qed.

(** C8: every iteration of the producer error loop panics; an iteration
    of the producer success loop panics exactly when the metadata of the
    acknowledgement is not the key of an entry of the in-flight map. *)
Theorem producer_failures_panic (w : World) :
  (∀ err, ∃ e, ProducerErrorLoop_iter w err = Panic e)
  ∧ (∀ seed msg,
       (∃ e, ProducerSuccessLoop_iter seed w msg = Panic e)
       ↔ ¬ ∃ reqOffset, pmMetadata msg = MetaString reqOffset
                        ∧ is_Some (inFlight (bridge w) !! reqOffset)).
Proof.
  split.
  - intros err. unfold ProducerErrorLoop_iter. case_match; eauto.
  - intros seed msg. unfold ProducerSuccessLoop_iter.
    destruct (pmMetadata msg) as [k|].
    + destruct (inFlight (bridge w) !! k) as [c|] eqn:Hk.
      * split; [by intros [? [=]]|]. intros []. eauto.
      * split; [|eauto]. intros _ (k' & [= <-] & [? ?]). congruence.
    + split; [|eauto]. by intros _ (k' & [=] & _).
Qed.

End Loops.

(** ** Replies *)

Section Replies.
Context {rt : Extern}.

Lemma Sub_nonneg t u : mono u ≤ mono t → 0 ≤ Sub t u.
Proof.
  intros Hle. unfold Sub, maxDuration, minDuration.
  repeat case_match; try lia.
Qed.

Lemma Seconds_nonneg d : 0 ≤ d → (0 <= Seconds d)%Q.
Proof. intros Hd. unfold Seconds, Qle. simpl. lia. Qed.

(** The seconds between two readings of the monotonic clock: the
    difference in nanoseconds over 10^9, or the longest duration when the
    difference does not fit [int64]. *)
Lemma Seconds_Sub t u :
  mono u ≤ mono t →
  (mono t - mono u < 2 ^ 63 →
   Seconds (Sub t u) = Qmake (mono t - mono u) 1000000000)
  ∧ (2 ^ 63 ≤ mono t - mono u →
     Seconds (Sub t u) = Qmake (2 ^ 63 - 1) 1000000000).
Proof.
  intros Hle. unfold Seconds, Sub, maxDuration, minDuration.
  destruct (Z.ltb_spec (2 ^ 63 - 1) (mono t - mono u)) as [Hover|Hfit].
  - split; [lia|done].
  - destruct (Z.ltb_spec (mono t - mono u) (- 2 ^ 63)); [lia|].
    split; [done|lia].
Qed.

(** [Reply] leaves the identity of every context alone. *)
Lemma Reply_sameCore now rnd w c m c' :
  sameCore (deref (heap w) c') (deref (heap (Reply now rnd w c m)) c').
Proof.
  unfold Reply, deref. simpl. destruct (decide (c' = c)) as [->|Hne].
  - by rewrite lookup_total_insert_eq.
  - by rewrite lookup_total_insert_ne.
Qed.


End Replies.

(** ** Messages that do not parse *)

Section ParseError.
Context {rt : Extern}.

Lemma quiet_tracked w w' : quiet w w' → tracked w → tracked w'.
Proof.
  intros Hq [Hmap Hkey]. pose proof Hq as (Hb & _). split; rewrite ?Hb.
  - intros k c Hk. destruct (Hmap _ _ Hk) as (ctx & Hc & <-).
    destruct (quiet_lookup_inv _ _ _ _ Hq Hc) as (ctx' & ? & _ & Hoff & _).
    exists ctx'. by rewrite <-Hoff.
  - intros c ctx' Hc.
    destruct (quiet_lookup _ _ _ _ Hq Hc) as (ctx & ? & Hmsg & Hoff & _).
    rewrite <-Hmsg, <-Hoff. eauto.
Qed.

(** A context that is alone on its partition is acknowledged at once. *)
Lemma alone_advance seed w c :
  tracked w → isInFlight w c → is_Some (heap w !! c) →
  (∀ c', isInFlight w c' → partitionOf w c' = partitionOf w c → c' = c) →
  let w' := setInFlightComplete seed w c in
  history w' = ActMark (saramaMsg (deref (heap w) c)) :: history w
  ∧ (∀ k c', inFlight (bridge w') !! k = Some c'
             ↔ inFlight (bridge w) !! k = Some c' ∧ c' ≠ c).
Proof.
  intros Hw Hfl Halloc Halone w'.
  destruct (setInFlightComplete_spec seed w c Hw)
    as (_ & _ & Hin & _ & _ & _ & Hmap & Hhist & _).
  set (w1 := markComplete w c) in *.
  assert (∀ x, x ∈ completeInParition seed w1 c ↔ x = c) as Hsorted.
  { intros x. rewrite Hin. split; [by intros [??]; apply Halone|by intros ->]. }
  assert (readyToAck seed w1 c = completeInParition seed w1 c) as Hready.
  { apply readyToAck_all_complete. intros x ->%Hsorted.
    apply isComplete_markComplete. by left. }
  rewrite Hready in *.
  destruct (last (completeInParition seed w1 c)) as [hi|] eqn:Hlast.
  - assert (hi = c) as -> by (by eapply Hsorted, last_Some_elem_of).
    split; [done|]. intros k c'. unfold w'. rewrite Hmap. by rewrite Hsorted.
  - apply last_None in Hlast. pose proof (proj2 (Hsorted c) eq_refl) as Hc.
    rewrite Hlast in Hc. by apply elem_of_nil in Hc.
Qed.

(** C5: a novel message whose value does not decode is put into the map
    all the same, before the decoding, and [addInflightMsg] returns its
    context with the error; the consumer loop then sends an error reply on
    that context and hands nothing to the processor.  The producer's
    acknowledgement of that reply finds the context in the map and
    completes it, and when nothing else of the partition is in flight the
    offset is marked at once and the context leaves the map. *)
Theorem parse_error_replied now rnd now' rnd' (w : World)
    (msg : ConsumerMessage) (e : error) :
  inFlight (bridge w) !! coordinate msg = None →
  (json_Unmarshal (Value msg) {| Headers := zeroHeaders |}).2 = Some e →
  ∃ w1 c,
    addInflightMsg now rnd w msg = (w1, Some c, Some e)
    ∧ heap w !! c = None
    ∧ inFlight (bridge w1) = <[coordinate msg := c]> (inFlight (bridge w))
    ∧ reqOffset (deref (heap w1) c) = coordinate msg
    ∧ saramaMsg (deref (heap w1) c) = msg
    ∧ complete (deref (heap w1) c) = false
    ∧ history w1 = ActAdmit msg :: history w
    ∧ (Z.of_nat (size (inFlight (bridge w))) < MaxInFlight (conf (bridge w)) →
       let w2 := Reply now' rnd' w1 c (NewErrorReply e (Value msg)) in
       let pm := {| pmTopic := TopicOut (Kafka (conf (bridge w)));
                    pmKey := key (deref (heap w1) c);
                    pmMetadata := MetaString (coordinate msg);
                    pmValue := c |} in
       ConsumerMessagesLoop_iter now rnd now' rnd' w msg = Done w2
       ∧ history w2 = ActEnqueue pm :: ActAdmit msg :: history w
       ∧ inFlight (bridge w2) !! coordinate msg = Some c
       ∧ ∀ seed, ∃ w3,
           ProducerSuccessLoop_iter seed w2 pm = Done w3
           ∧ isComplete w3 c
           ∧ (tracked w →
              (∀ c', isInFlight w c' → partitionOf w c' ≠ Partition msg) →
              history w3 = ActMark msg :: ActAck (coordinate msg) :: history w2
              ∧ inFlight (bridge w3) = inFlight (bridge w))).
Proof.
  intros Hnovel Herr.
  destruct (addInflightMsg_novel now rnd w msg Hnovel)
    as (ctx & err & Hadd & Hfresh & Hoff & Hmsg & _ & Hinc & ->).
  cbv zeta in Hadd. set (c := fresh (dom (heap w))) in *.
  rewrite Herr in Hadd. eexists _, c. split; [exact Hadd|].
  simpl. unfold deref. rewrite lookup_total_insert_eq.
  split_and!; [done..|]. intros Hcap.
  unfold ConsumerMessagesLoop_iter.
  rewrite (proj2 (Z.leb_gt _ _) Hcap), Hadd.
  set (w1 := {| bridge := _; heap := _; history := ActAdmit msg :: _ |}).
  set (w2 := Reply now' rnd' w1 c _).
  assert (heap w1 !! c = Some ctx) as Hc by apply lookup_insert_eq.
  assert (deref (heap w1) c = ctx) as Hderef by (by apply deref_lookup).
  assert (history w2
          = ActEnqueue {| pmTopic := TopicOut (Kafka (conf (bridge w)));
                          pmKey := key ctx;
                          pmMetadata := MetaString (coordinate msg);
                          pmValue := c |} :: ActAdmit msg :: history w)
    as Hhist2.
  { unfold w2, Reply. rewrite Hderef. simpl. by rewrite Hoff. }
  assert (inFlight (bridge w2) !! coordinate msg = Some c) as Hk2
    by apply lookup_insert_eq.
  split_and!; [done|by rewrite Hoff|done|]. intros seed.
  unfold ProducerSuccessLoop_iter. cbn [pmMetadata]. rewrite Hk2.
  eexists. split; [done|].
  assert (is_Some (heap w2 !! c)) as Halloc2.
  { unfold w2, Reply. simpl. rewrite lookup_insert_eq. eauto. }
  split.
  { apply isComplete_setInFlightComplete. left. split; [done|exact Halloc2]. }
  intros Hw Halone.
  assert (tracked w1) as Hw1 by (by eapply admit_tracked).
  assert (tracked w2) as Hw2
    by (eapply quiet_tracked; [apply Reply_quiet; eauto|done]).
  assert (∀ x, isInFlight w2 x ↔ x = c ∨ isInFlight w x) as Hfl
    by (intros x; change (isInFlight w1 x ↔ x = c ∨ isInFlight w x);
        by eapply admit_inFlight).
  assert (∀ x, saramaMsg (deref (heap w2) x) = saramaMsg (deref (heap w1) x))
    as Hsame by (intros x; symmetry; by apply Reply_sameCore).
  assert (∀ x, x ≠ c → deref (heap w1) x = deref (heap w) x) as Hold
    by (intros x Hne; exact (admit_deref_old _ _ _ _ _ _ _ x Hadd Hne)).
  destruct (alone_advance seed (record (ActAck (coordinate msg)) w2) c)
    as (Hhist3 & Hmap3); [done|by apply Hfl; left|done| |].
  { intros x [->|Hx]%Hfl; [done|]. unfold partitionOf. simpl.
    rewrite !Hsame, Hderef, Hmsg.
    assert (x ≠ c) as Hne by (by eapply admit_fresh).
    rewrite (Hold x Hne). intros Hp. by destruct (Halone _ Hx). }
  split.
  - rewrite Hhist3.
    change (heap (record (ActAck (coordinate msg)) w2)) with (heap w2).
    change (history (record (ActAck (coordinate msg)) w2))
      with (ActAck (coordinate msg) :: history w2).
    by rewrite Hsame, Hderef, Hmsg, Hhist2, Hoff.
  - apply map_eq. intros k. apply option_eq. intros x.
    rewrite Hmap3. simpl. rewrite lookup_insert. case_decide as Hkk.
    + subst k. rewrite Hnovel. split; [by intros [[= ->] ?]|done].
    + split; [by intros []|]. intros Hx. split; [done|].
      eapply admit_fresh; [done..|]. by exists k.
Qed.

End ParseError.

(** ** Scenario 2, run on the concrete runtime *)

Lemma run_admitted :
  @run Sample.runtime (start Sample.cf2) Sample.admissions = Some Sample.admitted.
Proof. vm_compute. reflexivity. Qed.

Lemma run_final :
  @run Sample.runtime (start Sample.cf2) (Sample.admissions ++ Sample.completions)
  = Some Sample.final.
Proof. vm_compute. reflexivity. Qed.

Lemma tracked_admitted : tracked Sample.admitted.
Proof. exact (@run_tracked Sample.runtime _ _ _ run_admitted). Qed.

Example coordinate_in_0_5 : coordinate (Sample.msgAt 5 "") = "in:0:5".
Proof. vm_compute. reflexivity. Qed.

Example coordinate_negative :
  coordinate {| Topic := "t"; Partition := -1; Offset := 42; Value := "" |}
  = "t:-1:42".
Proof. vm_compute. reflexivity. Qed.

Example UUIDv4_zero : UUIDv4 [] = "00000000-0000-4000-8000-000000000000".
Proof. vm_compute. reflexivity. Qed.

Example UUIDv4_bytes :
  UUIDv4 [255; 1; 2; 3; 4; 5; 255; 7; 255; 9; 10; 11; 12; 13; 14; 171]
  = "ff010203-0405-4f07-bf09-0a0b0c0d0eab".
Proof. vm_compute. reflexivity. Qed.

(** After 11 and 12 are acknowledged nothing is marked and the three
    contexts are still in flight; after 10 the one mark is offset 12 and
    the map is empty. *)
Example scenario2_waits :
  (λ w, (marked w, size (inFlight (bridge w))))
    <$> @run Sample.runtime (start Sample.cf2)
          (Sample.admissions ++ take 2 Sample.completions)
  = Some ([], 3%nat).
Proof. vm_compute. reflexivity. Qed.

Example scenario2_marks :
  marked Sample.final = [Sample.msgAt 12 Sample.request]
  ∧ inFlight (bridge Sample.final) = ∅.
Proof. split; vm_compute; reflexivity. Qed.

(** Scenario 3: a redelivery while the first delivery is in flight changes
    nothing. *)
Example scenario3_redelivery w :
  @run Sample.runtime (start Sample.cf2)
    [EvMessage (Sample.msgAt 7 Sample.request) Sample.t0 [] Sample.t1 []]
  = Some w →
  @run Sample.runtime w
    [EvMessage (Sample.msgAt 7 Sample.request) Sample.t1 [] Sample.t1 []]
  = Some w.
Proof. vm_compute. intros [= <-]. reflexivity. Qed.

(** Scenario 4: a payload that does not parse is held in the map, replied
    to with an error, and marked on the producer's acknowledgement. *)
Example scenario4_parse_error :
  (λ w, (marked w, size (inFlight (bridge w))))
    <$> @run Sample.runtime (start Sample.cf2)
          [EvMessage (Sample.msgAt 3 "not json") Sample.t0 [] Sample.t1 [];
           EvSuccess {| pmTopic := "out"; pmKey := "";
                        pmMetadata := MetaString "in:0:3";
                        pmValue := 1%positive |} 0]
  = Some ([Sample.msgAt 3 "not json"], 0%nat).
Proof. vm_compute. reflexivity. Qed.

(** An acknowledgement for a coordinate that is not in flight, and any
    producer error, end the process. *)
Example unknown_acknowledgement :
  @ProducerSuccessLoop_iter Sample.runtime 0 Sample.final
    (Sample.sent 10 1%positive)
  = Panic "Received confirmation for message not in in-flight map: in:0:10".
Proof. vm_compute. reflexivity. Qed.

Example producer_error :
  ProducerErrorLoop_iter Sample.admitted
    {| peMsg := Sample.sent 10 1%positive; peErr := "kafka: timed out" |}
  = Panic "kafka: timed out".
Proof. vm_compute. reflexivity. Qed.

Lemma setInFlightComplete_advances_witness :
  heap (@setInFlightComplete Sample.runtime 0 Sample.admitted 2%positive)
  = alter (set_complete true) 2%positive (heap Sample.admitted)
  ∧ history (@setInFlightComplete Sample.runtime 0 Sample.admitted 2%positive)
    = history Sample.admitted.
Proof.
  pose proof (@setInFlightComplete_advances Sample.runtime 0 Sample.admitted
                2%positive tracked_admitted) as (Hheap & _ & _ & _ & _ & _ & _ & Hhist & _).
  split; [exact Hheap|]. rewrite Hhist. vm_compute. reflexivity.
Defined.

Lemma marks_follow_replies_witness :
  marked Sample.final = [Sample.msgAt 12 Sample.request]
  ∧ (∀ later m earlier m',
       history Sample.final = later ++ ActMark m :: earlier →
       ActAdmit m' ∈ earlier →
       Partition m' = Partition m → Offset m' ≤ Offset m →
       ActAck (coordinate m') ∈ earlier).
Proof.
  split; [vm_compute; reflexivity|].
  assert (oneTopic (TopicIn (Kafka Sample.cf2)) (history Sample.final)) as Htopic
    by (apply oneTopicb_sound; vm_compute; reflexivity).
  assert (inOrder (history Sample.final)) as Horder
    by (apply inOrderb_sound; vm_compute; reflexivity).
  destruct (@marks_follow_replies Sample.runtime Sample.cf2 _ _ run_final
              Htopic Horder) as [_ Hnpc].
  intros later m earlier m' Heq Hm' Hp Hle.
  refine (proj1 (Hnpc later m earlier m' Heq _ Hp Hle)).
  rewrite Heq. apply elem_of_app. right. by right.
Defined.

Lemma inFlight_bounded_witness :
  Z.of_nat (size (inFlight (bridge Sample.admitted))) ≤ 3
  ∧ @ConsumerMessagesLoop_iter Sample.runtime Sample.t0 [] Sample.t1 []
      Sample.admitted (Sample.msgAt 13 Sample.request) = Waiting.
Proof.
  assert (1 ≤ MaxInFlight Sample.cf2) as Hmax by (simpl; lia).
  destruct (@inFlight_bounded Sample.runtime Sample.cf2 _ _ Hmax run_admitted)
    as [Hle Hwait].
  split; [exact Hle|]. apply Hwait. vm_compute. discriminate.
Defined.

Lemma parse_error_replied_witness :
  ∃ w2, @ConsumerMessagesLoop_iter Sample.runtime Sample.t0 [] Sample.t1 []
          (start Sample.cf2) (Sample.msgAt 3 "not json") = Done w2
        ∧ inFlight (bridge w2) !! "in:0:3" = Some 1%positive.
Proof.
  assert (inFlight (bridge (start Sample.cf2))
            !! coordinate (Sample.msgAt 3 "not json") = None) as Hnovel
    by (vm_compute; reflexivity).
  assert ((@json_Unmarshal Sample.runtime (Value (Sample.msgAt 3 "not json"))
             {| Headers := zeroHeaders |}).2 = Some "invalid character")
    as Herr by (vm_compute; reflexivity).
  destruct (@parse_error_replied Sample.runtime Sample.t0 [] Sample.t1 []
              (start Sample.cf2) (Sample.msgAt 3 "not json") _ Hnovel Herr)
    as (w1 & c & Hadd & _ & _ & _ & _ & _ & _ & Hloop).
  assert (c = 1%positive) as ->.
  { vm_compute in Hadd. by injection Hadd. }
  destruct Hloop as (Hdone & _ & Hin & _); [vm_compute; reflexivity|].
  eexists. split; [exact Hdone|exact Hin].
Defined.


(** * Further properties of the bridge *)

(** ** The map in a run *)

Section MoreTracker.
Context {rt : Extern}.

(** X1: In every run each entry of the in-flight map points to a context in
    the heap whose [reqOffset] is the entry's key and the coordinate of
    its message, a message that was admitted; no context is in the map
    under two keys; and the configuration is the one the bridge started
    with. *)
Theorem run_map_wellformed (cf : KafkaBridgeConf) (evs : list Event)
    (w : World) :
  run (start cf) evs = Some w →
  (∀ k c, inFlight (bridge w) !! k = Some c →
     ∃ ctx, heap w !! c = Some ctx
            ∧ reqOffset ctx = k
            ∧ k = coordinate (saramaMsg ctx)
            ∧ ActAdmit (saramaMsg ctx) ∈ history w)
  ∧ (∀ k1 k2 c, inFlight (bridge w) !! k1 = Some c →
                inFlight (bridge w) !! k2 = Some c → k1 = k2)
  ∧ conf (bridge w) = cf.
Proof.
  intros Hrun.
  destruct (run_Good "" _ _ _ Hrun (Good_start _ cf)) as (Hinv & _).
  pose proof (inv_tracked _ Hinv) as Hw. split_and!.
  - intros k c Hk. destruct (tracked_lookup _ _ _ Hw Hk) as (x & Hx & Hoff & Hco).
    exists x. split_and!; [done..|]. by eapply (inv_admitted _ Hinv).
  - intros k1 k2 c. by apply tracked_inj.
  - by rewrite (run_conf _ _ _ Hrun).
Qed.

Lemma keeps_refl x : keeps x x.
Proof. by split_and!. Qed.

Lemma keeps_trans x y z : keeps x y → keeps y z → keeps x z.
Proof.
  intros (H1 & H2 & H3 & H4 & H5 & Hxy) (G1 & G2 & G3 & G4 & G5 & Hyz).
  split_and!; [congruence..|auto].
Qed.

Lemma Reply_keeps now rnd w c m c' x :
  heap w !! c' = Some x →
  ∃ x', heap (Reply now rnd w c m) !! c' = Some x' ∧ keeps x x'.
Proof.
  intros Hx. unfold Reply. simpl. destruct (decide (c' = c)) as [->|Hne].
  - rewrite lookup_insert_eq, (deref_lookup _ _ _ Hx).
    eexists. split; [done|]. by split_and!.
  - rewrite lookup_insert_ne by done. exists x. split; [done|apply keeps_refl].
Qed.

Lemma setInFlightComplete_keeps seed w ctx c x :
  heap w !! c = Some x →
  ∃ x', heap (setInFlightComplete seed w ctx) !! c = Some x' ∧ keeps x x'.
Proof.
  intros Hx. rewrite heap_setInFlightComplete. simpl. rewrite lookup_alter.
  case_decide; [subst|].
  - rewrite Hx. eexists. split; [done|]. by split_and!.
  - exists x. split; [done|apply keeps_refl].
Qed.

Lemma step_keeps w ev w' c x :
  step w ev = Some w' → heap w !! c = Some x →
  ∃ x', heap w' !! c = Some x' ∧ keeps x x'.
Proof.
  destruct ev as [msg now rnd now' rnd'|c0 m now rnd|pm seed|err]; simpl.
  - unfold ConsumerMessagesLoop_iter. case_match; [done|].
    destruct (addInflightMsg now rnd w msg) as [[w1 [c1|]] [e|]] eqn:Hadd;
      simpl; intros [= <-] Hx;
      try (rewrite (addInflightMsg_nil _ _ _ _ _ _ Hadd);
           exists x; split; [done|apply keeps_refl]);
      destruct (addInflightMsg_admits _ _ _ _ _ _ _ Hadd)
        as (ctx & _ & Hfresh & _ & Hh & _);
      assert (heap w1 !! c = Some x) as Hx1
        by (rewrite Hh, lookup_insert_ne; [done|congruence]).
    + by apply Reply_keeps.
    + exists x. split; [done|apply keeps_refl].
  - case_decide; [|done]. intros [= <-] Hx. by apply Reply_keeps.
  - case_decide; [|done]. unfold ProducerSuccessLoop_iter.
    destruct (pmMetadata pm) as [k|]; [|done].
    destruct (inFlight (bridge w) !! k) as [ctx|]; [|done].
    simpl. intros [= <-] Hx.
    by apply (setInFlightComplete_keeps seed (record (ActAck k) w)).
  - case_decide; [|done]. unfold ProducerErrorLoop_iter. by case_match.
Qed.

(** X2: Whatever happens in a run, a context that is in the heap stays
    there with the message, coordinate, key, time of receipt and request
    headers it was admitted with, and once complete it stays complete. *)
Theorem context_kept (w : World) (evs : list Event) (w' : World)
    (c : loc) (x : msgContext) :
  run w evs = Some w' → heap w !! c = Some x →
  ∃ x', heap w' !! c = Some x' ∧ keeps x x'.
Proof.
  revert w x. induction evs as [|ev evs IH]; intros w x; simpl.
  - intros [= <-] Hx. exists x. split; [done|apply keeps_refl].
  - destruct (step w ev) as [w1|] eqn:Hstep; [|done]. intros Hrun Hx.
    destruct (step_keeps _ _ _ _ _ Hstep Hx) as (x1 & Hx1 & Hk1).
    destruct (IH _ _ Hrun Hx1) as (x' & Hx' & Hk').
    exists x'. split; [done|]. by eapply keeps_trans.
Qed.

Lemma readyToAck_key seed w ctx c :
  tracked w → c ∈ readyToAck seed (markComplete w ctx) ctx →
  inFlight (bridge w) !! reqOffset (deref (heap (markComplete w ctx)) c)
  = Some c.
Proof.
  intros Hw [[k Hk] _]%readyToAck_inFlight.
  destruct (tracked_markComplete _ ctx Hw) as [Hmap _].
  destruct (Hmap _ _ Hk) as (x & Hx & <-). by rewrite (deref_lookup _ _ _ Hx).
Qed.

(** X3: Completing a context leaves the other partitions alone: their
    entries stay in the map, no context but the completed one changes, and
    a new mark, if there is one, is on the partition of that context. *)
Theorem other_partitions_untouched seed (w : World) (ctx : loc) :
  tracked w →
  let w' := setInFlightComplete seed w ctx in
  (∀ k c, inFlight (bridge w) !! k = Some c →
          partitionOf w c ≠ partitionOf w ctx →
          inFlight (bridge w') !! k = Some c)
  ∧ (∀ c, c ≠ ctx → deref (heap w') c = deref (heap w) c)
  ∧ (∀ m, ActMark m ∈ history w' →
          ActMark m ∈ history w ∨ Partition m = partitionOf w ctx).
Proof.
  intros Hw w'. split_and!.
  - intros k c Hk Hp. apply setInFlightComplete_inFlight; [done|].
    split; [done|]. intros (_ & Hp' & _)%readyToAck_inFlight.
    by rewrite !partitionOf_markComplete in Hp'.
  - intros c Hne. unfold w'. rewrite heap_setInFlightComplete, deref_markComplete.
    rewrite decide_False; [done|]. by intros [? _].
  - intros m. unfold w'.
    destruct (setInFlightComplete_unfold seed w ctx) as (_ & _ & _ & ->).
    destruct (last _) as [hi|] eqn:Hlast; [|by left].
    intros [[= ->]|Hm]%elem_of_cons; [right|by left].
    apply last_Some_elem_of, readyToAck_inFlight in Hlast as (_ & Hp & _).
    by rewrite !partitionOf_markComplete in Hp.
Qed.

(** X4: When the context that completes was the last one of its partition
    that was not complete, nothing of the partition stays in the map, and
    the message that is marked is one of the partition with the highest
    offset in flight. *)
Theorem last_completion_drains seed (w : World) (ctx : loc) :
  tracked w → isInFlight w ctx → is_Some (heap w !! ctx) →
  (∀ c, isInFlight w c → partitionOf w c = partitionOf w ctx → c ≠ ctx →
        isComplete w c) →
  let w' := setInFlightComplete seed w ctx in
  (∀ k c, inFlight (bridge w') !! k = Some c
          ↔ inFlight (bridge w) !! k = Some c
            ∧ partitionOf w c ≠ partitionOf w ctx)
  ∧ ∃ highest,
      isInFlight w highest
      ∧ partitionOf w highest = partitionOf w ctx
      ∧ (∀ c, isInFlight w c → partitionOf w c = partitionOf w ctx →
              offsetOf w c ≤ offsetOf w highest)
      ∧ history w' = ActMark (saramaMsg (deref (heap w) highest)) :: history w.
Proof.
  intros Hw Hfl Halloc Hrest w'.
  destruct (setInFlightComplete_spec seed w ctx Hw)
    as (_ & _ & Hin & _ & _ & _ & Hmap & Hhist & Hhi & _).
  set (w1 := markComplete w ctx) in *.
  assert (readyToAck seed w1 ctx = completeInParition seed w1 ctx) as Hready.
  { apply readyToAck_all_complete. intros x [Hx Hp]%Hin.
    apply isComplete_markComplete.
    destruct (decide (x = ctx)) as [->|Hne]; [by left|right]. by apply Hrest. }
  rewrite Hready in *. split.
  - intros k c. unfold w'. rewrite Hmap, Hin. split.
    + intros [Hk Hc]. split; [done|]. intros Hp. apply Hc. split; [by exists k|done].
    + intros [Hk Hp]. split; [done|]. by intros [_ ?].
  - destruct (last (completeInParition seed w1 ctx)) as [hi|] eqn:Hlast.
    + pose proof (last_Some_elem_of _ _ Hlast) as [Hhifl Hhip]%Hin.
      exists hi. split_and!; [done..| |done].
      intros c Hc Hp. apply Hhi; [done|]. by apply Hin.
    + apply last_None in Hlast.
      assert (ctx ∈ completeInParition seed w1 ctx) as Hc by (by apply Hin).
      rewrite Hlast in Hc. by apply elem_of_nil in Hc.
Qed.

Lemma size_foldl_delete (f : loc → string) (l : list loc)
    (m : gmap string loc) :
  NoDup (f <$> l) → (∀ c, c ∈ l → is_Some (m !! f c)) →
  (size (foldl (λ m c, delete (f c) m) m l) + length l = size m)%nat.
Proof.
  revert m. induction l as [|c l IH]; intros m Hnd Hin; simpl; [lia|].
  rewrite fmap_cons in Hnd. apply NoDup_cons in Hnd as [Hc Hnd].
  assert (is_Some (m !! f c)) as Hfc by (apply Hin; left).
  pose proof (map_size_delete_Some _ _ Hfc) as Hdel.
  destruct Hfc as [x Hx].
  assert (size m ≠ 0%nat) as Hpos.
  { intros ->%map_size_empty_inv. by rewrite lookup_empty in Hx. }
  specialize (IH (delete (f c) m) Hnd). rewrite Hdel in IH.
  cut (size (foldl (λ m c, delete (f c) m) (delete (f c) m) l) + length l
       = pred (size m))%nat; [lia|].
  apply IH. intros c' Hc'. rewrite lookup_delete_ne; [apply Hin; by right|].
  intros Heq. apply Hc. rewrite Heq. by apply list_elem_of_fmap_2.
Qed.

(** X5: A completion takes as many entries out of the map as there are
    contexts ready to acknowledge; so in a map that was within the
    ceiling, a completion that acknowledges something leaves room, and the
    consumer loop does not wait after it. *)
Theorem completion_frees_capacity seed (w : World) (ctx : loc) :
  tracked w →
  let w' := setInFlightComplete seed w ctx in
  let ready := readyToAck seed (markComplete w ctx) ctx in
  (size (inFlight (bridge w')) + length ready = size (inFlight (bridge w)))%nat
  ∧ (Z.of_nat (size (inFlight (bridge w))) ≤ MaxInFlight (conf (bridge w)) →
     ready ≠ [] →
     ∀ now rnd now' rnd' msg,
       ConsumerMessagesLoop_iter now rnd now' rnd' w' msg ≠ Waiting).
Proof.
  intros Hw w' ready.
  destruct (setInFlightComplete_unfold seed w ctx) as (_ & Hconf & Hmap & _).
  fold w' ready in Hconf, Hmap.
  assert (size (inFlight (bridge w')) + length ready
          = size (inFlight (bridge w)))%nat as Hsize.
  { rewrite Hmap. apply size_foldl_delete.
    - apply NoDup_fmap_2_strong.
      + intros x y Hx%(readyToAck_key _ _ _ _ Hw) Hy%(readyToAck_key _ _ _ _ Hw) Heq.
        rewrite Heq in Hx. congruence.
      + destruct (readyToAck_split seed (markComplete w ctx) ctx)
          as (rest & Hl & _).
        pose proof (completeInParition_NoDup seed _ ctx
                      (tracked_markComplete _ ctx Hw)) as Hnd.
        rewrite Hl in Hnd. by apply NoDup_app in Hnd as [? _].
    - intros c Hc%(readyToAck_key _ _ _ _ Hw). eauto. }
  split; [done|]. intros Hle Hne now rnd now' rnd' msg.
  unfold ConsumerMessagesLoop_iter. rewrite Hconf.
  assert (length ready ≠ 0%nat) by (by destruct ready).
  rewrite (proj2 (Z.leb_gt _ _)) by lia.
  by destruct (addInflightMsg now rnd w' msg) as [[? [?|]] [?|]].
Qed.

End MoreTracker.

(** ** Validation, again *)

(** X6: A configuration that passed [ValidateConf] has a URL, a wait of at
    least 10 seconds and a ceiling other than 0, and validating it again
    changes nothing. *)
Theorem ValidateConf_idempotent (k k' : KafkaBridge) :
  ValidateConf k = (k', None) →
  RPC_URL (conf k') ≠ ""
  ∧ 10 ≤ MaxTXWaitTime (conf k')
  ∧ MaxInFlight (conf k') ≠ 0
  ∧ ValidateConf k' = (k', None).
Proof.
  intros Hv.
  destruct (decide (RPC_URL (conf k) = "")) as [He|Hne].
  { by rewrite (ValidateConf_error _ He) in Hv. }
  destruct (ValidateConf_ok _ Hne) as (k1 & Hk1 & _ & _ & _ & Hurl & Hwait & Hmax).
  rewrite Hv in Hk1. injection Hk1 as <-.
  assert (RPC_URL (conf k') ≠ "") as H1 by congruence.
  assert (10 ≤ MaxTXWaitTime (conf k')) as H2 by lia.
  assert (MaxInFlight (conf k') ≠ 0) as H3 by (rewrite Hmax; case_decide; lia).
  split_and!; [done..|].
  unfold ValidateConf. rewrite decide_False by done.
  rewrite (proj2 (Z.ltb_ge _ _)) by done.
  rewrite (proj2 (Z.eqb_neq _ _)) by done.
  by destruct k'.
Qed.

Lemma ValidateConf_idempotent_witness :
  ValidateConf (ValidateConf Sample.kShort).1
  = ((ValidateConf Sample.kShort).1, None).
Proof.
  apply (ValidateConf_idempotent Sample.kShort). vm_compute. reflexivity.
Defined.

(** ** No admitted message is lost *)

Section Covered.
Context {rt : Extern}.

Lemma quiet_covered w w' : quiet w w' → covered w → covered w'.
Proof.
  intros Hq Hcov m. pose proof Hq as (Hb & _ & a & Ha & Hh). rewrite Hh.
  intros [<-|Hm]%elem_of_cons; [done|].
  destruct (Hcov m Hm) as [(c & x & Hk & Hx & Hm')|(mk & Hmk & Hp & Ho)].
  - left. destruct (quiet_lookup_inv _ _ _ _ Hq Hx) as (x' & Hx' & Hs & _).
    exists c, x'. rewrite Hb. split_and!; [done..|congruence].
  - right. exists mk. split_and!; [by right|done..].
Qed.

Lemma admit_covered now rnd w msg w1 c err :
  addInflightMsg now rnd w msg = (w1, Some c, err) → covered w → covered w1.
Proof.
  intros Hadd Hcov m.
  destruct (addInflightMsg_admits _ _ _ _ _ _ _ Hadd)
    as (ctx & Hnew & Hfresh & Hb & Hh & Hhist & Hoff & Hmsg & _).
  rewrite Hhist, Hb, Hh. simpl. intros [[= <-]|Hm]%elem_of_cons.
  - left. exists c, ctx. by rewrite !lookup_insert_eq.
  - destruct (Hcov m Hm) as [(c0 & x & Hk & Hx & Hm')|(mk & Hmk & Hp & Ho)].
    + left. exists c0, x. rewrite !lookup_insert_ne; [done|congruence..].
    + right. exists mk. split_and!; [by right|done..].
Qed.

Lemma completion_covered seed w k ctx :
  tracked w → covered w →
  covered (setInFlightComplete seed (record (ActAck k) w) ctx).
Proof.
  intros Hw Hcov m.
  set (wa := record (ActAck k) w).
  assert (tracked wa) as Hwa by done.
  destruct (setInFlightComplete_spec seed wa ctx Hwa)
    as (_ & _ & _ & _ & _ & _ & Hmap & Hhist & Hhi & _).
  set (ready := readyToAck seed (markComplete wa ctx) ctx) in *.
  rewrite Hhist. intros Hm.
  assert (ActAdmit m ∈ history w) as Hm0.
  { destruct (last ready); simpl in Hm;
      repeat (apply elem_of_cons in Hm as [?|Hm]; [done|]); done. }
  destruct (Hcov m Hm0) as [(c0 & x & Hk0 & Hx & Hm')|(mk & Hmk & Hp & Ho)].
  - destruct (decide (c0 ∈ ready)) as [Hr|Hr].
    + right. destruct (last ready) as [hi|] eqn:Hlast.
      * exists (saramaMsg (deref (heap wa) hi)). split_and!; [by left| |].
        -- pose proof (last_Some_elem_of _ _ Hlast) as Hin.
           apply readyToAck_inFlight in Hin as (_ & Hp1 & _).
           apply readyToAck_inFlight in Hr as (_ & Hp2 & _).
           rewrite !partitionOf_markComplete in Hp1, Hp2.
           unfold partitionOf in Hp1, Hp2. simpl in Hp1, Hp2.
           rewrite (deref_lookup _ _ _ Hx), Hm' in Hp2. simpl. congruence.
        -- pose proof (Hhi hi c0 eq_refl Hr) as Hle.
           unfold offsetOf in Hle. simpl in Hle.
           by rewrite (deref_lookup _ _ _ Hx), Hm' in Hle.
      * apply last_None in Hlast. rewrite Hlast in Hr. by apply elem_of_nil in Hr.
    + left. destruct (setInFlightComplete_keeps seed wa ctx c0 x Hx)
        as (x' & Hx' & Hkeep & _).
      exists c0, x'. split_and!; [by apply Hmap|done|congruence].
  - right. exists mk. split_and!; [|done..].
    destruct (last ready); [right|]; by right.
Qed.

Lemma step_covered w ev w' :
  step w ev = Some w' → Inv w → covered w → covered w'.
Proof.
  destruct ev as [msg now rnd now' rnd'|c m now rnd|pm seed|err]; simpl.
  - unfold ConsumerMessagesLoop_iter. case_match; [done|].
    destruct (addInflightMsg now rnd w msg) as [[w1 [c|]] [e|]] eqn:Hadd;
      simpl; intros [= <-] Hinv Hw.
    + eapply quiet_covered; [|by eapply admit_covered].
      eapply Reply_quiet, addInflightMsg_allocates, Hadd.
    + eapply quiet_covered; [|by eapply admit_covered].
      eapply OnMessage_quiet, addInflightMsg_allocates, Hadd.
    + by rewrite (addInflightMsg_nil _ _ _ _ _ _ Hadd).
    + by rewrite (addInflightMsg_nil _ _ _ _ _ _ Hadd).
  - case_decide as Hc; [|done]. intros [= <-] Hinv Hw.
    eapply quiet_covered; [|done]. apply Reply_quiet.
    by apply (inv_dispatched _ Hinv).
  - case_decide as Hpm; [|done]. unfold ProducerSuccessLoop_iter.
    destruct (pmMetadata pm) as [k|] eqn:Hk; [|done].
    destruct (inFlight (bridge w) !! k) as [ctx|] eqn:Hctx; [|done].
    simpl. intros [= <-] Hinv Hw. apply completion_covered; [|done].
    apply (inv_tracked _ Hinv).
  - case_decide; [|done]. unfold ProducerErrorLoop_iter. by case_match.
Qed.

Lemma run_covered_from w evs w' :
  run w evs = Some w' → Good "" w → covered w → covered w'.
Proof.
  revert w. induction evs as [|ev evs IH]; intros w; simpl.
  - by intros [= <-].
  - destruct (step w ev) as [w1|] eqn:Hstep; [|done].
    intros Hrun Hw Hcov. eapply IH; [done|by eapply step_Good|].
    eapply step_covered; [done| |done]. by destruct Hw.
Qed.

(** X7: In every run, a message that was admitted is still in the map, under
    its coordinate and with its context, or the consumer was told to mark
    an admitted message with the same partition number and an offset at or
    above its own: no admitted message drops out of the map without such a
    mark.  When all the messages admitted are of one topic, the mark is on
    the topic of the message; otherwise it need not be, since
    [setInFlightComplete] groups the contexts by partition number alone. *)
Theorem no_message_lost (cf : KafkaBridgeConf) (evs : list Event) (w : World)
    (m : ConsumerMessage) :
  run (start cf) evs = Some w → ActAdmit m ∈ history w →
  (∃ c ctx, inFlight (bridge w) !! coordinate m = Some c
            ∧ heap w !! c = Some ctx ∧ saramaMsg ctx = m)
  ∨ (∃ mk, ActMark mk ∈ history w
           ∧ ActAdmit mk ∈ history w
           ∧ Partition mk = Partition m
           ∧ Offset m ≤ Offset mk
           ∧ (∀ t, oneTopic t (history w) → Topic mk = Topic m)).
Proof.
  intros Hrun Hm.
  destruct (run_Good "" _ _ _ Hrun (Good_start _ cf)) as (Hinv & _).
  assert (covered (start cf)) as Hstart
    by (intros m' Hm'; by apply elem_of_nil in Hm').
  destruct (run_covered_from _ _ _ Hrun (Good_start _ cf) Hstart m Hm)
    as [?|(mk & Hmk & Hp & Ho)]; [by left|right].
  pose proof (inv_marked _ Hinv _ Hmk) as Hadm.
  exists mk. split_and!; [done..|].
  intros t Ht. by rewrite (Ht _ Hadm), (Ht _ Hm).
Qed.

End Covered.

Lemma no_message_lost_witness :
  ∃ mk, ActMark mk ∈ history Sample.final
        ∧ Topic mk = "in" ∧ Partition mk = 0 ∧ 10 ≤ Offset mk.
Proof.
  assert (ActAdmit (Sample.msgAt 10 Sample.request) ∈ history Sample.final)
    as Hin by (apply (bool_decide_unpack _); vm_compute; reflexivity).
  assert (oneTopic "in" (history Sample.final)) as Htopic
    by (apply oneTopicb_sound; vm_compute; reflexivity).
  destruct (@no_message_lost Sample.runtime Sample.cf2 _ _ _ run_final Hin)
    as [(c & ctx & Hk & _)|(mk & Hmk & _ & Hp & Ho & Ht)].
  - vm_compute in Hk. discriminate.
  - exists mk. split_and!; [exact Hmk|exact (Ht "in" Htopic)|exact Hp|exact Ho].
Defined.

(** With two topics on one partition number the mark that covers a
    message can be on the other topic: a:0:5 and b:0:6 are admitted, b:0:6
    is acknowledged and then a:0:5; both leave the map and b:0:6 alone is
    marked. *)
Example two_topics_one_mark :
  (λ w, (marked w, size (inFlight (bridge w))))
    <$> @run Sample.runtime (start Sample.cf2)
          [EvMessage {| Topic := "a"; Partition := 0; Offset := 5;
                        Value := Sample.request |} Sample.t0 [] Sample.t1 [];
           EvMessage {| Topic := "b"; Partition := 0; Offset := 6;
                        Value := Sample.request |} Sample.t0 [] Sample.t1 [];
           EvReply 1%positive Sample.success Sample.t1 [];
           EvReply 2%positive Sample.success Sample.t1 [];
           EvSuccess {| pmTopic := "out"; pmKey := "B";
                        pmMetadata := MetaString "b:0:6";
                        pmValue := 2%positive |} 0;
           EvSuccess {| pmTopic := "out"; pmKey := "B";
                        pmMetadata := MetaString "a:0:5";
                        pmValue := 1%positive |} 0]
  = Some ([{| Topic := "b"; Partition := 0; Offset := 6;
              Value := Sample.request |}], 0%nat).
Proof. vm_compute. reflexivity. Qed.

(** ** Witnesses on scenario 2 *)

Lemma run_waiting :
  @run Sample.runtime (start Sample.cf2)
    (Sample.admissions ++ take 2 Sample.completions)
  = Some Sample.waiting.
Proof. vm_compute. reflexivity. Qed.

Lemma tracked_waiting : tracked Sample.waiting.
Proof. exact (@run_tracked Sample.runtime _ _ _ run_waiting). Qed.

Lemma run_completions :
  @run Sample.runtime Sample.admitted Sample.completions = Some Sample.final.
Proof. vm_compute. reflexivity. Qed.

Lemma isInFlight_elem w c :
  isInFlight w c ↔ c ∈ (map_to_list (inFlight (bridge w))).*2.
Proof.
  unfold isInFlight. rewrite list_elem_of_fmap. split.
  - intros [k Hk]. exists (k, c). by rewrite elem_of_map_to_list.
  - intros ([k c'] & -> & Hk%elem_of_map_to_list). by exists k.
Qed.

Lemma run_map_wellformed_witness :
  conf (bridge Sample.final) = Sample.cf2
  ∧ ∀ k c, inFlight (bridge Sample.admitted) !! k = Some c →
           ∃ ctx, heap Sample.admitted !! c = Some ctx ∧ reqOffset ctx = k.
Proof.
  split.
  - destruct (@run_map_wellformed Sample.runtime Sample.cf2 _ _ run_final) as (_ & _ & H).
    exact H.
  - intros k c Hk.
    destruct (@run_map_wellformed Sample.runtime Sample.cf2 _ _ run_admitted)
      as (Hmap & _).
    destruct (Hmap k c Hk) as (ctx & Hctx & Hoff & _). exists ctx. split; [exact Hctx|exact Hoff].
Defined.

Lemma context_kept_witness :
  ∃ x, heap Sample.final !! 2%positive = Some x
       ∧ saramaMsg x = Sample.msgAt 11 Sample.request
       ∧ key x = "B".
Proof.
  assert (∃ x0, heap Sample.admitted !! 2%positive = Some x0
                ∧ saramaMsg x0 = Sample.msgAt 11 Sample.request
                ∧ key x0 = "B") as (x0 & Hx0 & Hm & Hk).
  { eexists. split; [vm_compute; reflexivity|].
    split; vm_compute; reflexivity. }
  destruct (@context_kept Sample.runtime _ _ _ _ _ run_completions Hx0)
    as (x & Hx & Hm' & _ & Hk' & _).
  exists x. split_and!; [exact Hx|congruence..].
Defined.

Lemma other_partitions_untouched_witness :
  deref (heap (@setInFlightComplete Sample.runtime 0 Sample.waiting 1%positive))
        2%positive
  = deref (heap Sample.waiting) 2%positive.
Proof.
  destruct (@other_partitions_untouched Sample.runtime 0 Sample.waiting
              1%positive tracked_waiting) as (_ & Hheap & _).
  apply Hheap. discriminate.
Defined.

Lemma last_completion_drains_witness :
  inFlight (bridge (@setInFlightComplete Sample.runtime 0 Sample.waiting
                      1%positive)) !! "in:0:11" = None.
Proof.
  assert (isInFlight Sample.waiting 1%positive) as Hfl
    by (exists "in:0:10"; vm_compute; reflexivity).
  assert (is_Some (heap Sample.waiting !! 1%positive)) as Halloc
    by (vm_compute; eexists; reflexivity).
  assert (∀ c, isInFlight Sample.waiting c →
               partitionOf Sample.waiting c = partitionOf Sample.waiting 1%positive →
               c ≠ 1%positive → isComplete Sample.waiting c) as Hrest.
  { clear. intros c Hc%isInFlight_elem _ Hne. vm_compute in Hc.
    repeat (apply elem_of_cons in Hc as [->|Hc];
            [first [by destruct Hne|vm_compute; reflexivity]|]).
    all: try by apply elem_of_nil in Hc. }
  destruct (@last_completion_drains Sample.runtime 0 Sample.waiting 1%positive
              tracked_waiting Hfl Halloc Hrest) as (Hmap & _).
  clear Hfl Halloc Hrest.
  destruct (inFlight (bridge (@setInFlightComplete Sample.runtime 0 Sample.waiting
                                1%positive)) !! "in:0:11") as [c|] eqn:Hk;
    [exfalso|reflexivity].
  apply Hmap in Hk as [Hk Hp]. vm_compute in Hk. injection Hk as <-.
  apply Hp. vm_compute. reflexivity.
Defined.

Lemma completion_frees_capacity_witness :
  (size (inFlight (bridge (@setInFlightComplete Sample.runtime 0 Sample.waiting
                             1%positive))) + 3 = 3)%nat.
Proof.
  destruct (@completion_frees_capacity Sample.runtime 0 Sample.waiting 1%positive
              tracked_waiting) as (Hsize & _).
  etransitivity; [|etransitivity; [exact Hsize|vm_compute; reflexivity]].
  f_equal; vm_compute; reflexivity.
Defined.

(** ** The order of the map and of the sort *)

Lemma completeInParition_unique (rt1 rt2 : Extern) seed1 seed2 w ctx t :
  tracked w →
  (∀ c, isInFlight w c → Topic (saramaMsg (deref (heap w) c)) = t) →
  @completeInParition rt1 seed1 w ctx = @completeInParition rt2 seed2 w ctx.
Proof.
  intros Hw Ht.
  apply (StronglySorted_unique_strong (λ a b, offsetOf w a ≤ offsetOf w b)).
  - intros a b [[ka Hka] Hpa]%elem_of_completeInParition
                [[kb Hkb] Hpb]%elem_of_completeInParition Hab Hba.
    destruct (tracked_lookup _ _ _ Hw Hka) as (xa & Hxa & _ & Hca).
    destruct (tracked_lookup _ _ _ Hw Hkb) as (xb & Hxb & _ & Hcb).
    pose proof (Ht a (ex_intro _ ka Hka)) as Hta.
    pose proof (Ht b (ex_intro _ kb Hkb)) as Htb.
    unfold partitionOf, offsetOf in *.
    rewrite (deref_lookup _ _ _ Hxa) in *. rewrite (deref_lookup _ _ _ Hxb) in *.
    assert (ka = kb) as ->.
    { rewrite Hca, Hcb. apply coordinate_ext; [congruence|congruence|lia]. }
    congruence.
  - apply completeInParition_sorted.
  - apply completeInParition_sorted.
  - apply NoDup_Permutation; [by apply completeInParition_NoDup..|].
    intros x. by rewrite !elem_of_completeInParition.
Qed.

(** X8: When the contexts in flight are all of one topic, what a completion
    does is the same whatever the order in which the map is walked and
    however [sort.Sort] orders equal elements: the resulting map, heap and
    marks do not depend on the runtime. *)
Theorem completion_order_independent (rt1 rt2 : Extern) (seed1 seed2 : nat)
    (w : World) (ctx : loc) (t : string) :
  tracked w →
  (∀ c, isInFlight w c → Topic (saramaMsg (deref (heap w) c)) = t) →
  @setInFlightComplete rt1 seed1 w ctx = @setInFlightComplete rt2 seed2 w ctx.
Proof.
  intros Hw Ht. unfold setInFlightComplete, readyToAck.
  rewrite (completeInParition_unique rt1 rt2 seed1 seed2 _ ctx t); [done| |].
  - by apply tracked_markComplete.
  - intros c Hc. rewrite saramaMsg_markComplete. by apply Ht.
Qed.

Lemma run_inFlight_topic {rt : Extern} cf evs w t :
  run (start cf) evs = Some w → oneTopic t (history w) →
  ∀ c, isInFlight w c → Topic (saramaMsg (deref (heap w) c)) = t.
Proof.
  intros Hrun Ht c [k Hk].
  destruct (run_Good "" _ _ _ Hrun (Good_start _ cf)) as (Hinv & _).
  destruct (tracked_lookup _ _ _ (inv_tracked _ Hinv) Hk) as (x & Hx & _).
  rewrite (deref_lookup _ _ _ Hx). apply Ht. by apply (inv_admitted _ Hinv c).
Qed.

(** ** An acknowledgement that comes twice *)

Section Twice.
Context {rt : Extern}.

Lemma readyToAck_member seed w ctx :
  isInFlight w ctx → isComplete w ctx →
  (∀ c, isInFlight w c → partitionOf w c = partitionOf w ctx → c ≠ ctx →
        isComplete w c ∨ offsetOf w ctx < offsetOf w c) →
  ctx ∈ readyToAck seed w ctx.
Proof.
  intros Hfl Hdone Hothers.
  destruct (readyToAck_split seed w ctx) as (rest & Hsplit & _ & Hhead).
  assert (ctx ∈ completeInParition seed w ctx) as Hin
    by (by apply elem_of_completeInParition).
  pose proof (completeInParition_sorted seed w ctx) as Hsorted.
  rewrite Hsplit in Hin, Hsorted.
  apply elem_of_app in Hin as [?|Hin]; [done|exfalso].
  destruct rest as [|r rest']; [by apply elem_of_nil in Hin|].
  pose proof (Hhead r eq_refl) as Hr.
  assert (r ∈ completeInParition seed w ctx) as [Hrfl Hrp]%elem_of_completeInParition.
  { rewrite Hsplit. apply elem_of_app. right. by left. }
  assert (r ≠ ctx) as Hne by (by intros ->).
  destruct (Hothers r Hrfl Hrp Hne) as [?|Hlt]; [done|].
  apply elem_of_cons in Hin as [->|Hin]; [done|].
  apply StronglySorted_app_1_r in Hsorted.
  apply StronglySorted_inv in Hsorted as [_ Hall].
  rewrite Forall_forall in Hall. specialize (Hall ctx Hin). lia.
Qed.

(** X9: When the producer acknowledges the reply of a context that is the
    lowest one outstanding on its partition, the context leaves the map;
    an acknowledgement that comes again for it, as after a second [Reply]
    on the same context, finds nothing under the coordinate and the
    process panics. *)
Theorem repeated_acknowledgement_panics seed seed' (w : World) (k : string)
    (ctx : loc) (pm : ProducerMessage) :
  tracked w →
  inFlight (bridge w) !! k = Some ctx →
  pmMetadata pm = MetaString k →
  (∀ c, isInFlight w c → partitionOf w c = partitionOf w ctx → c ≠ ctx →
        isComplete w c ∨ offsetOf w ctx < offsetOf w c) →
  ∃ w1, ProducerSuccessLoop_iter seed w pm = Done w1
        ∧ inFlight (bridge w1) !! k = None
        ∧ ProducerSuccessLoop_iter seed' w1 pm
          = Panic ("Received confirmation for message not in in-flight map: "
                   +:+ k).
Proof.
  intros Hw Hk Hpm Hothers. unfold ProducerSuccessLoop_iter at 1.
  rewrite Hpm, Hk. eexists. split; [done|].
  set (wa := record (ActAck k) w).
  assert (tracked wa) as Hwa by done.
  assert (inFlight (bridge (setInFlightComplete seed wa ctx)) !! k = None) as Hgone.
  { destruct (inFlight (bridge (setInFlightComplete seed wa ctx)) !! k)
      as [c|] eqn:Hc; [exfalso|done].
    apply (setInFlightComplete_inFlight _ _ _ _ _ Hwa) in Hc as [Hc Hnot].
    simpl in Hc. rewrite Hk in Hc. injection Hc as <-. apply Hnot.
    destruct (tracked_lookup _ _ _ Hw Hk) as (x & Hx & _).
    apply readyToAck_member.
    - by exists k.
    - apply isComplete_markComplete. left. split; [done|]. by exists x.
    - intros c Hc. rewrite !partitionOf_markComplete, !offsetOf_markComplete.
      intros Hp Hne. destruct (Hothers c Hc Hp Hne) as [?|?]; [left|by right].
      apply isComplete_markComplete. by right. }
  split; [done|]. unfold ProducerSuccessLoop_iter. by rewrite Hpm, Hgone.
Qed.

End Twice.

Lemma completion_order_independent_witness :
  @setInFlightComplete Sample.runtime 0 Sample.waiting 1%positive
  = @setInFlightComplete Sample.reversed 1 Sample.waiting 1%positive.
Proof.
  assert (oneTopic "in" (history Sample.waiting)) as Htopic
    by (apply oneTopicb_sound; vm_compute; reflexivity).
  exact (completion_order_independent Sample.runtime Sample.reversed 0 1
           Sample.waiting 1%positive "in" tracked_waiting
           (@run_inFlight_topic Sample.runtime _ _ _ "in" run_waiting Htopic)).
Defined.

Lemma repeated_acknowledgement_panics_witness :
  ∃ w1, @ProducerSuccessLoop_iter Sample.runtime 0 Sample.waiting
          (Sample.sent 10 1%positive) = Done w1
        ∧ @ProducerSuccessLoop_iter Sample.runtime 0 w1 (Sample.sent 10 1%positive)
          = Panic "Received confirmation for message not in in-flight map: in:0:10".
Proof.
  assert (inFlight (bridge Sample.waiting) !! "in:0:10" = Some 1%positive) as Hk
    by (vm_compute; reflexivity).
  assert (pmMetadata (Sample.sent 10 1%positive) = MetaString "in:0:10") as Hpm
    by (vm_compute; reflexivity).
  assert (∀ c, isInFlight Sample.waiting c →
               partitionOf Sample.waiting c = partitionOf Sample.waiting 1%positive →
               c ≠ 1%positive →
               isComplete Sample.waiting c
               ∨ offsetOf Sample.waiting 1%positive < offsetOf Sample.waiting c)
    as Hothers.
  { clear Hk Hpm. intros c Hc%isInFlight_elem _ Hne. vm_compute in Hc.
    repeat (apply elem_of_cons in Hc as [->|Hc];
            [first [by destruct Hne|left; vm_compute; reflexivity]|]).
    all: try by apply elem_of_nil in Hc. }
  destruct (@repeated_acknowledgement_panics Sample.runtime 0 0 Sample.waiting
              "in:0:10" 1%positive (Sample.sent 10 1%positive)
              tracked_waiting Hk Hpm Hothers) as (w1 & Hdone & _ & Hpanic).
  exists w1. split. exact Hdone. exact Hpanic.
Defined.

(** ** What the producer is handed *)

Section Sent.
Context {rt : Extern}.

Lemma sendable_later w w' pm :
  conf (bridge w') = conf (bridge w) →
  (∀ c x, heap w !! c = Some x → ∃ x', heap w' !! c = Some x' ∧ keeps x x') →
  sendable w pm → sendable w' pm.
Proof.
  intros Hconf Hkeeps (x & Hx & Hmeta & Hkey & Htopic).
  destruct (Hkeeps _ _ Hx) as (x' & Hx' & _ & Hoff & Hk & _).
  exists x'. split_and!; [done|congruence..].
Qed.

Lemma Reply_allSendable now rnd w c m :
  allSendable w → allSendable (Reply now rnd w c m).
Proof.
  intros Hw pm. unfold Reply at 1. cbn [history record].
  intros [[= ->]|Hpm]%elem_of_cons.
  - eexists. cbn. rewrite lookup_insert_eq. by split_and!.
  - apply (sendable_later w); [done| |by apply Hw].
    intros c' x. apply Reply_keeps.
Qed.

Lemma admit_allSendable now rnd w msg w1 c err :
  addInflightMsg now rnd w msg = (w1, Some c, err) →
  allSendable w → allSendable w1.
Proof.
  intros Hadd Hw pm.
  destruct (addInflightMsg_admits _ _ _ _ _ _ _ Hadd)
    as (ctx & _ & Hfresh & Hb & Hh & Hhist & _).
  rewrite Hhist. intros [?|Hpm]%elem_of_cons; [done|].
  apply (sendable_later w); [by rewrite Hb| |by apply Hw].
  intros c' x Hx. exists x. split; [|apply keeps_refl].
  rewrite Hh, lookup_insert_ne; [done|congruence].
Qed.

Lemma completion_allSendable seed w k ctx :
  allSendable w → allSendable (setInFlightComplete seed (record (ActAck k) w) ctx).
Proof.
  intros Hw pm.
  destruct (setInFlightComplete_unfold seed (record (ActAck k) w) ctx)
    as (_ & Hconf & _ & ->).
  intros Hpm. apply (sendable_later w); [done| |apply Hw].
  - intros c x Hx. by apply (setInFlightComplete_keeps seed (record (ActAck k) w)).
  - destruct (last _); simpl in Hpm;
      repeat (apply elem_of_cons in Hpm as [?|Hpm]; [done|]); done.
Qed.

Lemma step_allSendable w ev w' :
  step w ev = Some w' → allSendable w → allSendable w'.
Proof.
  destruct ev as [msg now rnd now' rnd'|c m now rnd|pm seed|err]; simpl.
  - unfold ConsumerMessagesLoop_iter. case_match; [done|].
    destruct (addInflightMsg now rnd w msg) as [[w1 [c|]] [e|]] eqn:Hadd;
      simpl; intros [= <-] Hw.
    + by eapply Reply_allSendable, admit_allSendable.
    + intros pm [?|Hpm]%elem_of_cons; [done|].
      by apply (admit_allSendable _ _ _ _ _ _ _ Hadd Hw).
    + by rewrite (addInflightMsg_nil _ _ _ _ _ _ Hadd).
    + by rewrite (addInflightMsg_nil _ _ _ _ _ _ Hadd).
  - case_decide; [|done]. intros [= <-]. apply Reply_allSendable.
  - case_decide; [|done]. unfold ProducerSuccessLoop_iter.
    destruct (pmMetadata pm) as [k|]; [|done].
    destruct (inFlight (bridge w) !! k) as [ctx|]; [|done].
    simpl. intros [= <-]. apply completion_allSendable.
  - case_decide; [|done]. unfold ProducerErrorLoop_iter. by case_match.
Qed.

Lemma run_allSendable w evs w' :
  run w evs = Some w' → allSendable w → allSendable w'.
Proof.
  revert w. induction evs as [|ev evs IH]; intros w; simpl.
  - by intros [= <-].
  - destruct (step w ev) as [w1|] eqn:Hstep; [|done].
    intros Hrun Hw. eapply IH; [done|]. by eapply step_allSendable.
Qed.

(** X10: In every run, a message the bridge handed to the producer has the
    context it replies for as its [Value], the coordinate of that
    context's message as its metadata, the context's key as its key and the
    configured outbound topic as its topic.  So the type assertion on the
    metadata never fails on the bridge's own messages, in either producer
    loop. *)
Theorem sent_messages_wellformed (cf : KafkaBridgeConf) (evs : list Event)
    (w : World) (pm : ProducerMessage) :
  run (start cf) evs = Some w → ActEnqueue pm ∈ history w →
  (∃ x, heap w !! pmValue pm = Some x
        ∧ pmMetadata pm = MetaString (coordinate (saramaMsg x))
        ∧ pmKey pm = key x
        ∧ ActAdmit (saramaMsg x) ∈ history w)
  ∧ pmTopic pm = TopicOut (Kafka cf)
  ∧ (∀ seed, ProducerSuccessLoop_iter seed w pm ≠ Panic typeAssertion)
  ∧ (∀ e, ProducerErrorLoop_iter w {| peMsg := pm; peErr := e |} = Panic e).
Proof.
  intros Hrun Hpm.
  assert (allSendable (start cf)) as Hstart
    by (intros pm' Hpm'; by apply elem_of_nil in Hpm').
  destruct (run_allSendable _ _ _ Hrun Hstart pm Hpm)
    as (x & Hx & Hmeta & Hkey & Htopic).
  destruct (run_Good "" _ _ _ Hrun (Good_start _ cf)) as (Hinv & _).
  destruct (inv_tracked _ Hinv) as [_ Hco].
  split_and!.
  - exists x. split_and!; [done| |done|by apply (inv_admitted _ Hinv (pmValue pm))].
    by rewrite Hmeta, (Hco _ _ Hx).
  - by rewrite Htopic, (run_conf _ _ _ Hrun).
  - intros seed. unfold ProducerSuccessLoop_iter. rewrite Hmeta.
    by destruct (inFlight (bridge w) !! reqOffset x).
  - intros e. unfold ProducerErrorLoop_iter. simpl. by rewrite Hmeta.
Qed.

Lemma step_replyBytes w ev w' c :
  step w ev = Some w' → is_Some (heap w !! c) →
  (∀ m now rnd, ev ≠ EvReply c m now rnd) →
  is_Some (heap w' !! c)
  ∧ replyBytes (deref (heap w') c) = replyBytes (deref (heap w) c).
Proof.
  intros Hstep [x Hx] Hev.
  destruct (step_keeps _ _ _ _ _ Hstep Hx) as (x' & Hx' & _). split; [by exists x'|].
  revert Hstep.
  destruct ev as [msg now rnd now' rnd'|c0 m now rnd|pm seed|err]; simpl.
  - unfold ConsumerMessagesLoop_iter. case_match; [done|].
    destruct (addInflightMsg now rnd w msg) as [[w1 [c1|]] [e|]] eqn:Hadd;
      simpl; intros [= <-];
      try (by rewrite (addInflightMsg_nil _ _ _ _ _ _ Hadd));
      destruct (addInflightMsg_admits _ _ _ _ _ _ _ Hadd)
        as (ctx & _ & Hfresh & _ & Hh & _);
      assert (c ≠ c1) as Hne by congruence.
    + unfold Reply, deref. simpl. rewrite lookup_total_insert_ne by done.
      by rewrite Hh, lookup_total_insert_ne.
    + unfold deref. simpl. by rewrite Hh, lookup_total_insert_ne.
  - case_decide; [|done]. intros [= <-].
    assert (c ≠ c0) as Hne by (intros ->; by eapply Hev).
    unfold Reply, deref. simpl. by rewrite lookup_total_insert_ne.
  - case_decide; [|done]. unfold ProducerSuccessLoop_iter.
    destruct (pmMetadata pm) as [k|]; [|done].
    destruct (inFlight (bridge w) !! k) as [ctx|]; [|done].
    simpl. intros [= <-].
    rewrite heap_setInFlightComplete, deref_markComplete. by case_decide.
  - case_decide; [|done]. unfold ProducerErrorLoop_iter. by case_match.
Qed.

(** X11: After [Reply] on a context, and until the next [Reply] on it, the
    producer that encodes the context gets the serialized reply with the
    stamped headers and no error, whatever else the bridge admits, sends or
    acknowledges in between; [Length] is the length of those bytes. *)
Theorem reply_encoded now rnd (w : World) (c : loc) (m : ReplyMsg)
    (evs : list Event) (w' : World) :
  is_Some (heap w !! c) →
  Forall (λ ev, ∀ m' now' rnd', ev ≠ EvReply c m' now' rnd') evs →
  run (Reply now rnd w c m) evs = Some w' →
  let stamped :=
    {| replyHeaders := stampedHeaders now rnd (deref (heap w) c) (replyHeaders m);
       replyBody := replyBody m |} in
  Encode (deref (heap w') c) = (json_Marshal stamped, None)
  ∧ Length (deref (heap w') c) = Z.of_nat (String.length (json_Marshal stamped)).
Proof.
  intros Halloc Hevs Hrun stamped.
  assert (replyBytes (deref (heap w') c) = json_Marshal stamped) as Hbytes.
  { assert (replyBytes (deref (heap (Reply now rnd w c m)) c)
            = json_Marshal stamped) as Hfirst.
    { unfold Reply, deref. simpl. by rewrite lookup_total_insert_eq. }
    assert (is_Some (heap (Reply now rnd w c m) !! c)) as Halloc'.
    { unfold Reply. simpl. rewrite lookup_insert_eq. by eexists. }
    revert Hrun Hfirst Halloc'. generalize (Reply now rnd w c m). clear Halloc.
    induction Hevs as [|ev evs Hev _ IH]; intros w0; simpl.
    - by intros [= <-].
    - destruct (step w0 ev) as [w1|] eqn:Hstep; [|done].
      intros Hrun Hfirst Halloc.
      destruct (step_replyBytes _ _ _ c Hstep Halloc Hev) as [Halloc1 Heq].
      apply (IH w1); [done|congruence|done]. }
  unfold Encode, Length. by rewrite Hbytes.
Qed.

(** X12: Two replies on one context hand the producer the same message twice:
    both have the context as their [Value], and the context holds the bytes
    of the second reply only, so a producer that encodes after the second
    [Reply] sends the second reply twice. *)
Theorem double_reply now1 rnd1 now2 rnd2 (w : World) (c : loc)
    (m1 m2 : ReplyMsg) :
  let w2 := Reply now2 rnd2 (Reply now1 rnd1 w c m1) c m2 in
  let stamped2 :=
    {| replyHeaders :=
         stampedHeaders now2 rnd2 (deref (heap w) c) (replyHeaders m2);
       replyBody := replyBody m2 |} in
  (∃ pm, history w2 = ActEnqueue pm :: ActEnqueue pm :: history w
         ∧ pmValue pm = c
         ∧ pmMetadata pm = MetaString (reqOffset (deref (heap w) c)))
  ∧ Encode (deref (heap w2) c) = (json_Marshal stamped2, None)
  ∧ inFlight (bridge w2) = inFlight (bridge w).
Proof.
  intros w2 stamped2. unfold w2, stamped2, Reply, Encode, deref. simpl.
  rewrite !lookup_total_insert_eq. simpl. split_and!; [|done..].
  by eexists.
Qed.

End Sent.

Lemma sent_messages_wellformed_witness :
  pmTopic (Sample.sent 10 1%positive) = "out"
  ∧ ∃ x, heap Sample.final !! 1%positive = Some x
         ∧ ActAdmit (saramaMsg x) ∈ history Sample.final.
Proof.
  assert (ActEnqueue (Sample.sent 10 1%positive) ∈ history Sample.final) as Hin
    by (apply (bool_decide_unpack _); vm_compute; reflexivity).
  destruct (@sent_messages_wellformed Sample.runtime Sample.cf2 _ _ _
              run_final Hin) as ((x & Hx & _ & _ & Hadm) & Htopic & _).
  split; [exact Htopic|]. exists x. split; [exact Hx|exact Hadm].
Defined.

Lemma reply_encoded_witness :
  ∃ stamped,
    Encode (deref (heap Sample.final) 1%positive)
    = (@json_Marshal Sample.runtime stamped, None)
    ∧ ReqOffset (replyHeaders stamped) = "in:0:10".
Proof.
  pose (w := default (start Sample.cf2)
               (@run Sample.runtime (start Sample.cf2) (take 3 Sample.admissions))).
  assert (is_Some (heap w !! 1%positive)) as Halloc
    by (vm_compute; eexists; reflexivity).
  assert (Forall (λ ev, ∀ m' now' rnd', ev ≠ EvReply 1%positive m' now' rnd')
                 (drop 4 Sample.admissions ++ Sample.completions)) as Hevs
    by (repeat constructor; intros; discriminate).
  assert (@run Sample.runtime (@Reply Sample.runtime Sample.t1 [] w 1%positive
                                 Sample.success)
               (drop 4 Sample.admissions ++ Sample.completions)
          = Some Sample.final) as Hrun by (vm_compute; reflexivity).
  destruct (@reply_encoded Sample.runtime _ _ _ _ _ _ _ Halloc Hevs Hrun)
    as [Henc _].
  eexists. split; [exact Henc|]. vm_compute. reflexivity.
Defined.

(** ** The slice that is sorted *)

Lemma index_Some (a : ctxByOffset) i x :
  index a i = Some x ↔ 0 ≤ i ∧ a !! Z.to_nat i = Some x.
Proof. unfold index. case_decide; naive_solver. Qed.

Lemma index_is_Some (a : ctxByOffset) i :
  is_Some (index a i) ↔ 0 ≤ i < Len a.
Proof.
  unfold index, Len. case_decide.
  - rewrite lookup_lt_is_Some. lia.
  - split; [by intros [? ?]|lia].
Qed.

(** X13: [Swap] panics exactly when an index is out of range; otherwise it
    exchanges the two elements and nothing else, so the slice it leaves is
    a permutation of the one it found, of the same length, swapping again
    restores it, and [Less] sees the two positions exchanged. *)
Theorem Swap_spec (a : ctxByOffset) (i j : Z) :
  (is_Some (Swap a i j) ↔ 0 ≤ i < Len a ∧ 0 ≤ j < Len a)
  ∧ ∀ b, Swap a i j = Some b →
      b ≡ₚ a
      ∧ Len b = Len a
      ∧ index b i = index a j
      ∧ index b j = index a i
      ∧ (∀ k, k ≠ i → k ≠ j → index b k = index a k)
      ∧ Swap b i j = Some a
      ∧ ∀ h, ctxByOffset_Less h b i j = ctxByOffset_Less h a j i.
Proof.
  split.
  - rewrite <-!index_is_Some. unfold Swap.
    destruct (index a j) as [x|], (index a i) as [y|]; simpl;
      split; try (intros [[? ?] [? ?]]; done); try (intros [? ?]; done); eauto.
  - intros b. unfold Swap.
    destruct (index a j) as [x|] eqn:Hj; [|done].
    destruct (index a i) as [y|] eqn:Hi; [|done]. simpl. intros [= <-].
    pose proof Hj as Haj. pose proof Hi as Hai.
    apply index_Some in Hj as [Hj0 Hj], Hi as [Hi0 Hi].
    pose proof (lookup_lt_Some _ _ _ Hi) as Hilt.
    pose proof (lookup_lt_Some _ _ _ Hj) as Hjlt.
    set (ni := Z.to_nat i) in *. set (nj := Z.to_nat j) in *.
    unfold ctxByOffset in *.
    assert (∀ n, <[nj:=y]> (<[ni:=x]> a) !! n
                 = if decide (n = nj) then Some y
                   else if decide (n = ni) then Some x else a !! n) as Hb.
    { intros n. unfold ctxByOffset in *.
      rewrite !list_lookup_insert, !length_insert.
      repeat case_decide; try done; try lia; naive_solver. }
    assert (index (<[nj:=y]> (<[ni:=x]> a)) i = Some x) as Hbi.
    { apply index_Some. split; [done|]. fold ni. rewrite Hb.
      case_decide as Heq; [|by rewrite decide_True]. rewrite Heq in Hi. congruence. }
    assert (index (<[nj:=y]> (<[ni:=x]> a)) j = Some y) as Hbj.
    { apply index_Some. split; [done|]. fold nj. rewrite Hb. by rewrite decide_True. }
    split_and!.
    + by apply Permutation_insert_swap.
    + unfold Len. by rewrite !length_insert.
    + exact Hbi.
    + exact Hbj.
    + intros k Hki Hkj. unfold index. case_decide; [|done]. rewrite Hb.
      rewrite !decide_False; [done|unfold ni; lia|unfold nj; lia].
    + rewrite Hbi, Hbj. simpl. f_equal. fold ni nj.
      apply list_eq. intros n. unfold ctxByOffset in *.
      rewrite !list_lookup_insert, !length_insert.
      clearbody ni nj.
      repeat case_decide; destruct_and?; subst; try done; try lia; congruence.
    + intros h. unfold ctxByOffset_Less. rewrite Hbi, Hbj.
      by rewrite Haj, Hai.
Qed.

(** ** Starting the bridge *)

Ltac effects :=
  intros;
  repeat match goal with
         | H : _ ∈ [] |- _ => by apply elem_of_nil in H
         | H : _ ∈ _ :: _ |- _ => apply elem_of_cons in H as [H|H]
         end;
  simplify_eq; eauto.

Section Command.
Context {st : Startup}.

(** X14: When the [kafka] command runs, the processor is never initialised
    with a wait under 10 seconds, and the node is never dialled on an empty
    URL; the Kafka side starts only after the dial succeeded and the
    processor was initialised, with the configuration [KafkaCommon]
    validated, and its error is the command's; with no URL nothing is
    done at all; and in print mode nothing is done but printing. *)
Theorem kafkaCommand_effects (printYAML : bool) (k : KafkaBridge)
    (effs : list Effect) (err : option error) :
  kafkaCommand printYAML k = (effs, err) →
  (∀ n, EffInit n ∈ effs → n = Z.max 10 (MaxTXWaitTime (conf k)))
  ∧ (∀ u, EffDial u ∈ effs → u = RPC_URL (conf k) ∧ u ≠ "")
  ∧ (∀ kc, EffKafkaStart kc ∈ effs →
       printYAML = false
       ∧ rpc_Dial (RPC_URL (conf k)) = None
       ∧ kc = (kafka_ValidateConf (Kafka (conf k))).1
       ∧ err = kafka_Start kc
       ∧ effs = [EffDial (RPC_URL (conf k));
                 EffInit (Z.max 10 (MaxTXWaitTime (conf k)));
                 EffKafkaStart kc])
  ∧ (RPC_URL (conf k) = "" → effs = [] ∧ is_Some err)
  ∧ (printYAML = true → ∀ e, e ∈ effs → ∃ s, e = EffPrint s)
  ∧ (∀ e, rpc_Dial (RPC_URL (conf k)) = Some e → printYAML = false →
          ∀ eff, eff ∈ effs → eff = EffDial (RPC_URL (conf k))).
Proof.
  unfold kafkaCommand, PreRunE.
  destruct (kafka_ValidateConf (Kafka (conf k))) as [kc [e|]] eqn:Hkc.
  { intros [= <- <-]. split_and!; effects. }
  destruct (decide (RPC_URL (conf (withKafka kc k)) = "")) as [Hnone|Hurl].
  { rewrite (ValidateConf_error _ Hnone). intros [= <- <-]. split_and!; effects. }
  destruct (ValidateConf_ok _ Hurl) as (k' & -> & _ & Hk & _ & Hu & Hwait & _).
  simpl in Hurl, Hu, Hwait, Hk. unfold RunE, Start.
  destruct printYAML.
  { destruct (MarshalToYAML (conf k')) as [b e]. intros [= <- <-].
    split_and!; effects. }
  unfold connect. rewrite Hu, Hwait, Hk.
  destruct (rpc_Dial (RPC_URL (conf k))) as [e|] eqn:Hdial; simpl;
    intros [= <- <-]; split_and!; effects.
Qed.

End Command.

Lemma kafkaCommand_effects_witness :
  (@kafkaCommand Sample.startup false Sample.kShort).1
  = [EffDial "http://localhost:8545"; EffInit 10;
     EffKafkaStart (Kafka Sample.cf2)].
Proof.
  destruct (@kafkaCommand_effects Sample.startup false Sample.kShort _ _
              (surjective_pairing _)) as (_ & _ & Hstart & _).
  destruct (Hstart (Kafka Sample.cf2)) as (_ & _ & _ & _ & ->).
  - vm_compute. do 2 apply list_elem_of_further. apply list_elem_of_here.
  - vm_compute. reflexivity.
Defined.

(** ** The server command *)

Lemma startBridges_spec {C B R : Type} (configure : option C → Configured B)
    (routine : string → B → R) l rs stop :
  startBridges configure routine l = (rs, stop) →
  ∃ l1 l2, l = l1 ++ l2
    ∧ length rs = length l1
    ∧ (∀ r, r ∈ rs ↔ ∃ name conf b, (name, conf) ∈ l1
                       ∧ configure conf = CfgReady b ∧ r = routine name b)
    ∧ (∀ name conf, (name, conf) ∈ l1 → ∃ b, configure conf = CfgReady b)
    ∧ match stop with
      | None => l2 = []
      | Some s =>
        ∃ name conf l2', l2 = (name, conf) :: l2'
          ∧ (configure conf = CfgPanic ∧ s = Panicked
             ∨ ∃ err, configure conf = CfgError err ∧ s = Returned (Some err))
      end.
Proof.
  revert rs stop. induction l as [|[name conf] l IH]; intros rs stop; simpl.
  - intros [= <- <-]. exists [], []. split_and!; [done..| | |done].
    + intros r. split; [by intros ?%elem_of_nil|].
      by intros (? & ? & ? & ?%elem_of_nil & _).
    + by intros ? ? ?%elem_of_nil.
  - destruct (configure conf) as [b|e|] eqn:Hconf.
    + destruct (startBridges configure routine l) as [rs' stop'] eqn:Hl.
      intros [= <- <-].
      destruct (IH _ _ eq_refl) as (l1 & l2 & -> & Hlen & Hrs & Hready & Hstop).
      exists ((name, conf) :: l1), l2. split_and!; [done|simpl; lia| | |done].
      * intros r. rewrite elem_of_cons, Hrs. split.
        -- intros [->|(n & c & b' & Hin & Hc & ->)].
           ++ exists name, conf, b. split; [by left|done].
           ++ exists n, c, b'. split; [by right|done].
        -- intros (n & c & b' & [[= -> ->]|Hin]%elem_of_cons & Hc & ->).
           ++ left. congruence.
           ++ right. by exists n, c, b'.
      * intros n c [[= -> ->]|Hin]%elem_of_cons; [by exists b|by eapply Hready].
    + intros [= <- <-]. exists [], ((name, conf) :: l).
      split_and!; [done..| | |].
      * intros r. split; [by intros ?%elem_of_nil|].
        by intros (? & ? & ? & ?%elem_of_nil & _).
      * by intros ? ? ?%elem_of_nil.
      * exists name, conf, l. split; [done|right]. by exists e.
    + intros [= <- <-]. exists [], ((name, conf) :: l).
      split_and!; [done..| | |].
      * intros r. split; [by intros ?%elem_of_nil|].
        by intros (? & ? & ? & ?%elem_of_nil & _).
      * by intros ? ? ?%elem_of_nil.
      * exists name, conf, l. split; [done|left]. done.
Qed.

Lemma kafka_configure_ready conf k :
  kafka_configure conf = CfgReady k
  ↔ ∃ cf, conf = Some cf ∧ RPC_URL cf ≠ ""
          ∧ ValidateConf (SetConf cf NewKafkaBridge) = (k, None).
Proof.
  unfold kafka_configure. destruct conf as [cf|]; [|naive_solver].
  destruct (decide (RPC_URL cf = "")) as [Hnone|Hurl].
  - rewrite (ValidateConf_error (SetConf cf NewKafkaBridge)) by done. naive_solver.
  - destruct (ValidateConf_ok (SetConf cf NewKafkaBridge) Hurl) as (k' & Hk' & _).
    rewrite Hk'. split.
    + intros [= <-]. by exists cf.
    + intros (cf0 & [= <-] & _ & Hv). rewrite Hk' in Hv. by injection Hv as ->.
Qed.

Lemma kafka_configure_error conf e :
  kafka_configure conf = CfgError e →
  e = "No JSON/RPC URL set for ethereum node"
  ∧ ∃ cf, conf = Some cf ∧ RPC_URL cf = "".
Proof.
  unfold kafka_configure. destruct conf as [cf|]; [|done].
  destruct (decide (RPC_URL cf = "")) as [Hnone|Hurl].
  - rewrite (ValidateConf_error (SetConf cf NewKafkaBridge)) by done.
    intros [= <-]. eauto.
  - by destruct (ValidateConf_ok (SetConf cf NewKafkaBridge) Hurl) as (k' & -> & _).
Qed.

Lemma kafka_configure_panic conf : kafka_configure conf = CfgPanic → conf = None.
Proof.
  unfold kafka_configure. destruct conf as [cf|]; [|done].
  by destruct (ValidateConf (SetConf cf NewKafkaBridge)) as [? [?|]].
Qed.

Lemma Start_Init {st : Startup} p k n :
  EffInit n ∈ (Start p k).1 → n = MaxTXWaitTime (conf k).
Proof.
  unfold Start, connect. destruct p.
  - destruct (MarshalToYAML (conf k)). simpl. effects.
  - destruct (rpc_Dial (RPC_URL (conf k))); simpl; effects.
Qed.

Section ServerProps.
Context {W : Type} {srv : ServerExtern W}.

Lemma elem_of_range {A} seed (m : gmap string A) name x :
  (name, x) ∈ range seed m ↔ m !! name = Some x.
Proof. by rewrite range_perm, elem_of_map_to_list. Qed.




End ServerProps.

Lemma triple_eta {A B C : Type} (p : A * B * C) : p = (p.1.1, p.1.2, p.2).
Proof. by destruct p as [[? ?] ?]. Qed.




(** ** One iteration of the consumer loop *)

Section Iteration.
Context {rt : Extern}.

(** X18: An iteration of [ConsumerMessagesLoop] never panics, and waits
    exactly when the map is at or above the ceiling.  When it completes,
    the message is in the map under its coordinate and no other entry has
    changed; and one of three things happened: the coordinate was in the
    map already and nothing changed at all; or the message was new and
    parsed, was given a fresh context and that context went to the
    processor; or it was new and did not parse, and one error reply, tagged
    with the coordinate, went to the producer. *)
Theorem consumer_iteration now rnd now' rnd' (w : World) (msg : ConsumerMessage) :
  let iter := ConsumerMessagesLoop_iter now rnd now' rnd' w msg in
  let parsed := (json_Unmarshal (Value msg) {| Headers := zeroHeaders |}).2 in
  (∀ e, iter ≠ Panic e)
  ∧ (iter = Waiting
     ↔ MaxInFlight (conf (bridge w)) ≤ Z.of_nat (size (inFlight (bridge w))))
  ∧ ∀ w', iter = Done w' →
      conf (bridge w') = conf (bridge w)
      ∧ is_Some (inFlight (bridge w') !! coordinate msg)
      ∧ (∀ k, k ≠ coordinate msg →
              inFlight (bridge w') !! k = inFlight (bridge w) !! k)
      ∧ ((is_Some (inFlight (bridge w) !! coordinate msg) ∧ w' = w)
         ∨ (inFlight (bridge w) !! coordinate msg = None
            ∧ parsed = None
            ∧ ∃ c, inFlight (bridge w') !! coordinate msg = Some c
                   ∧ heap w !! c = None
                   ∧ history w' = ActDispatch c :: ActAdmit msg :: history w)
         ∨ (inFlight (bridge w) !! coordinate msg = None
            ∧ ∃ e c pm,
                parsed = Some e
                ∧ inFlight (bridge w') !! coordinate msg = Some c
                ∧ heap w !! c = None
                ∧ history w' = ActEnqueue pm :: ActAdmit msg :: history w
                ∧ pmValue pm = c
                ∧ pmMetadata pm = MetaString (coordinate msg))).
Proof.
  intros iter parsed. unfold iter, ConsumerMessagesLoop_iter.
  destruct (MaxInFlight (conf (bridge w)) <=? Z.of_nat (size (inFlight (bridge w))))
    eqn:Hcap.
  { apply Z.leb_le in Hcap. by split_and!. }
  apply Z.leb_gt in Hcap.
  destruct (inFlight (bridge w) !! coordinate msg) as [c0|] eqn:Hold.
  { rewrite addInflightMsg_dup by (by rewrite Hold).
    split_and!; [done|split; [done|lia]|].
    intros w' [= <-]. rewrite Hold. split_and!; [done|by eexists|done|].
    left. split; [by eexists|done]. }
  destruct (addInflightMsg_novel now rnd w msg Hold)
    as (ctx & err & Hadd & Hfresh & Hoff & Hmsg & _ & _ & Herr).
  simpl in Hadd. rewrite Hadd. set (c := fresh (dom (heap w))) in *.
  destruct err as [e|].
  - split_and!; [done|split; [done|lia]|].
    intros w' [= <-]. unfold Reply. simpl. rewrite lookup_insert_eq.
    split_and!; [done|by eexists| |].
    + intros k Hk. by rewrite lookup_insert_ne.
    + right. right. split; [done|]. eexists e, c, _.
      split_and!; [done|done|done|done|done|].
      simpl. unfold deref. by rewrite lookup_total_insert_eq, Hoff.
  - split_and!; [done|split; [done|lia]|].
    intros w' [= <-]. simpl. rewrite lookup_insert_eq.
    split_and!; [done|by eexists| |].
    + intros k Hk. by rewrite lookup_insert_ne.
    + right. left. split_and!; [done|done|]. by exists c.
Qed.

End Iteration.
